(** * Inference orchestration of the separation engine ([utils.py])

    A shallow embedding of the chunk / infer / overlap-add pipeline
    ([demix]), its windowing function ([_getWindowingArray]), the
    test-time-augmentation wrapper ([apply_tta]) and the shape reconciling
    weight loader ([load_not_compatible_weights]).

    Modelling conventions.
    - Sizes, offsets and counts are [nat]; Python's [//] by zero raises.
    - A float32 sample is an exact rational ([Q]): rounding is abstracted,
      so "equal within floating tolerance" reads as [==] on [Q].  The only
      non-finite values the pipeline can create from finite data come from
      the final division; they are kept explicit ([fval]) so that
      [np.nan_to_num] has something to do.
    - A tensor of shape (a, b, c) is a nested list; the last axis is the
      sample axis.
    - Python exceptions are values of [exn]; the [while] loop runs on fuel.
    - The four execution back ends (native, ONNX, TensorRT, compiled) and
      their pre/post transforms are one function from a batch of chunks,
      shape (batch, channels, chunk), to outputs of shape
      (batch, instruments, channels, chunk). *)

From stdpp Require Import gmap strings list fin_maps.
From Stdlib Require Import QArith Lia.

Set Warnings "-register-all".

Open Scope nat_scope.

(** ** Outcomes: a value, a Python exception, or an exhausted loop budget *)

Inductive exn : Set :=
  | ZeroDivisionError
  | RuntimeError
  | IndexError
  | KeyError
  | TypeError
  | AttributeError
  | ValueError.

Inductive outcome (A : Type) : Type :=
  | Done (a : A)
  | Raised (e : exn)
  | OutOfFuel.

Arguments Done {A} a.
Arguments Raised {A} e.
Arguments OutOfFuel {A}.

#[global] Instance outcome_ret : MRet outcome := fun _ a => Done a.

#[global] Instance outcome_bind : MBind outcome := fun _ _ f c =>
  match c with
  | Done a => f a
  | Raised e => Raised e
  | OutOfFuel => OutOfFuel
  end.

(** [for x in xs: acc = f(acc, x)] with exceptions. *)
Fixpoint foldlM {A B : Type} (f : A -> B -> outcome A) (xs : list B) (acc : A)
  : outcome A :=
  match xs with
  | [] => Done acc
  | x :: xs' => acc' ← f acc x; foldlM f xs' acc'
  end.

(** [[f(x) for x in xs]] with exceptions. *)
Fixpoint forM {A B : Type} (f : A -> outcome B) (xs : list A) : outcome (list B) :=
  match xs with
  | [] => Done []
  | x :: xs' => y ← f x; ys ← forM f xs'; Done (y :: ys)
  end.

(** ** Samples and the final division *)

Inductive fval : Type :=
  | Finite (q : Q)
  | PosInf
  | NegInf
  | NaN.

(** [result / counter] on finite operands: x/0 is a signed infinity, 0/0 is
    NaN (the counter is a sum of non-negative weights, so its zero is +0). *)
Definition true_divide (r c : Q) : fval :=
  if Qeq_bool c 0 then
    if Qeq_bool r 0 then NaN
    else if Qle_bool 0 r then PosInf else NegInf
  else Finite (r / c).

(** Largest finite float32, (2^24 - 1) * 2^104. *)
Definition FLT_MAX : Q := inject_Z ((2 ^ 24 - 1) * 2 ^ 104).

(** [np.nan_to_num(a, nan=0.0)]: [posinf]/[neginf] keep their defaults. *)
Definition nan_to_num (v : fval) : Q :=
  match v with
  | Finite q => q
  | NaN => 0
  | PosInf => FLT_MAX
  | NegInf => - FLT_MAX
  end.

Definition is_finite (v : fval) : bool :=
  match v with Finite _ => true | _ => false end.

(** ** Arrays *)

Abbreviation row := (list Q).
(** (channels, samples) *)
Abbreviation array2 := (list (list Q)).
(** (instruments, channels, samples) *)
Abbreviation array3 := (list (list (list Q))).

(** [a.shape[-1]] of a 2-D array; a buffer has at least one channel. *)
Definition cols (a : array2) : nat :=
  match a with
  | [] => 0
  | r :: _ => length r
  end.

(** In-place binary update [dst[k] = f(dst[k], src[k])] over the common
    prefix; [dst] keeps its length. *)
Fixpoint inplace {A B : Type} (f : A -> B -> A) (dst : list A) (src : list B)
  : list A :=
  match dst, src with
  | d :: dst', s :: src' => f d s :: inplace f dst' src'
  | _, _ => dst
  end.

(** [row[start : start + len(vals)] += vals] *)
Definition add_at (start : nat) (vals : row) (r : row) : row :=
  take start r ++ inplace Qplus (drop start r) vals.

(** [l[lo:hi] = v] for a scalar [v] and normalised bounds. *)
Definition fill_slice (lo hi : nat) (v : Q) (l : row) : row :=
  take lo l ++ replicate (hi - lo) v ++ drop hi l.

(** [l[lo:hi] = src] for a 1-D tensor [src]: the sizes must agree, or [src]
    has one element, which is broadcast. *)
Definition setitem_slice (lo hi : nat) (src l : row) : outcome row :=
  if length src =? hi - lo then Done (take lo l ++ src ++ drop hi l)
  else match src with
       | [v] => Done (fill_slice lo hi v l)
       | _ => Raised RuntimeError
       end.

(** Start of the slice [l[-k:]]: [-0] is [0], so [l[-0:]] is all of [l]. *)
Definition tail_start (len k : nat) : nat :=
  if k =? 0 then 0 else len - k.

(** ** Windowing function builder *)

(** [torch.linspace(first, last, steps)] *)
Definition linspace (first last : Q) (steps : nat) : row :=
  match steps with
  | 0 => []
  | 1 => [first]
  | _ => map (fun k => first + inject_Z (Z.of_nat k)
                               * ((last - first) / inject_Z (Z.of_nat (steps - 1))))%Q
             (seq 0 steps)
  end.

Definition _getWindowingArray (window_size fade_size : nat) : outcome row :=
  let fadein := linspace 0 1 fade_size in
  let fadeout := linspace 1 0 fade_size in
  let window := replicate window_size 1%Q in
  (* window[-fade_size:] = fadeout *)
  window ← setitem_slice (tail_start window_size fade_size) window_size fadeout window;
  (* window[:fade_size] = fadein *)
  window ← setitem_slice 0 (fade_size `min` window_size) fadein window;
  Done window.

(** ** Configuration *)

Record config : Type := {
  audio_chunk_size : nat;                      (* config.audio.chunk_size *)
  training_samplerate : nat;                   (* config.training.samplerate *)
  training_segment : nat;                      (* config.training.segment *)
  training_instruments : list string;          (* config.training.instruments *)
  training_target_instrument : option string;  (* getattr(.., 'target_instrument', None) *)
  inference_num_overlap : nat;                 (* config.inference.num_overlap *)
  inference_batch_size : nat                   (* config.inference.batch_size *)
}.

Definition prefer_target_instrument (cfg : config) : list string :=
  match training_target_instrument cfg with
  | Some t => if String.eqb t "" then training_instruments cfg else [t]
  | None => training_instruments cfg
  end.

Inductive mode : Set := generic | demucs.

Record flags : Set := {
  use_onnx : bool;
  use_tensorrt : bool;
  use_compile : bool
}.

(** The defaults of [demix]: plain PyTorch execution. *)
Definition native : flags :=
  {| use_onnx := false; use_tensorrt := false; use_compile := false |}.

Definition select_mode (fl : flags) (model_type : string) : mode :=
  if (use_onnx fl || use_tensorrt fl || use_compile fl)
     && String.eqb model_type "htdemucs"
  then demucs else generic.

(** [a // b] *)
Definition floordiv (a b : nat) : outcome nat :=
  if b =? 0 then Raised ZeroDivisionError else Done (a / b).

(** ** Padding *)

(** [nn.functional.pad(r, (left, right), mode="reflect")] on the last axis;
    torch refuses a padding that is not smaller than the input. *)
Definition reflect_pad (left right : nat) (r : row) : outcome row :=
  if (left <? length r) && (right <? length r) then
    Done (reverse (take left (drop 1 r)) ++ r ++ take right (drop 1 (reverse r)))
  else Raised RuntimeError.

(** [nn.functional.pad(r, (0, right), mode="constant", value=0)] *)
Definition constant_pad (right : nat) (r : row) : row :=
  r ++ replicate right 0%Q.

(** ** The chunk loop of [demix] *)

(** One execution of the accumulation statement (lines 521-527): where the
    chunk was placed, how many of its samples are valid, and the window it
    was weighted with ([None] in demucs mode, which adds 1.0). *)
Record placement : Type := {
  start : nat;
  seg_len : nat;
  window_used : option row
}.

Record loop_state : Type := {
  i : nat;
  batch_data : list array2;
  batch_locations : list (nat * nat);
  result : array3;
  counter : array3;
  (* history of the accumulation statement, oldest first; not a program
     variable: [batch_locations] is cleared after every batch *)
  placed : list placement
}.

Section ChunkLoop.

Variable md : mode.
Variable chunk_size step fade_size batch_size : nat.
Variable windowing_array : row.
Variable model : list array2 -> list array3.
(** The (possibly border-padded) mixture. *)
Variable mix : array2.

(** Lines 419-425: cut the chunk and pad it to [chunk_size]. *)
Definition pad_part (part : array2) : outcome array2 :=
  let chunk_len := cols part in
  match md with
  | generic =>
      if chunk_size / 2 <? chunk_len
      then forM (reflect_pad 0 (chunk_size - chunk_len)) part
      else Done (map (constant_pad (chunk_size - chunk_len)) part)
  | demucs => Done (map (constant_pad (chunk_size - chunk_len)) part)
  end.

(** Lines 514-519, evaluated after [i += step]. *)
Definition batch_window (i : nat) : row :=
  let window := windowing_array in
  if i - step =? 0 then fill_slice 0 (fade_size `min` length window) 1 window
  else if cols mix <=? i
       then fill_slice (tail_start (length window) fade_size) (length window) 1 window
       else window.

(** Lines 522-527 for one [(start, seg_len)] and its output [x[j]], of the
    contract shape (instruments, channels, chunk).  For an output of
    another shape torch raises or broadcasts; here the update runs over
    the stems and channels both sides have. *)
Definition accumulate (window : row) (loc : nat * nat) (xj : array3)
    (rc : array3 * array3) : array3 * array3 :=
  let '(start, seg_len) := loc in
  let '(result, counter) := rc in
  match md with
  | generic =>
      (inplace (inplace (fun r xr =>
                  add_at start (zip_with Qmult (take seg_len xr) (take seg_len window)) r))
               result xj,
       map (map (add_at start (take seg_len window))) counter)
  | demucs =>
      (inplace (inplace (fun r xr => add_at start (take seg_len xr) r)) result xj,
       map (map (add_at start (replicate seg_len 1%Q))) counter)
  end.

Definition placement_of (window : row) (loc : nat * nat) : placement :=
  {| start := loc.1; seg_len := loc.2;
     window_used := match md with generic => Some window | demucs => None end |}.

(** [for j, (start, seg_len) in enumerate(batch_locations)] *)
Fixpoint accumulate_batch (window : row) (locs : list (nat * nat)) (x : list array3)
    (rc : array3 * array3) : outcome (array3 * array3) :=
  match locs with
  | [] => Done rc
  | loc :: locs' =>
      match x with
      | [] => Raised IndexError
      | xj :: x' => accumulate_batch window locs' x' (accumulate window loc xj rc)
      end
  end.

(** One iteration of [while i < mix.shape[1]]. *)
Definition loop_body (st : loop_state) : outcome loop_state :=
  let part := map (fun r => take chunk_size (drop (i st) r)) mix in
  let chunk_len := cols part in
  part ← pad_part part;
  let batch_data := batch_data st ++ [part] in
  let batch_locations := batch_locations st ++ [(i st, chunk_len)] in
  let i := i st + step in
  if (batch_size <=? length batch_data) || (cols mix <=? i) then
    let x := model batch_data in
    let window := batch_window i in
    rc ← accumulate_batch window batch_locations x (result st, counter st);
    Done {| i := i; batch_data := []; batch_locations := [];
            result := rc.1; counter := rc.2;
            placed := placed st ++ map (placement_of window) batch_locations |}
  else
    Done {| i := i; batch_data := batch_data; batch_locations := batch_locations;
            result := result st; counter := counter st; placed := placed st |}.

Fixpoint demix_loop (fuel : nat) (st : loop_state) : outcome loop_state :=
  if i st <? cols mix then
    match fuel with
    | 0 => OutOfFuel
    | S fuel' => st' ← loop_body st; demix_loop fuel' st'
    end
  else Done st.

End ChunkLoop.

(** ** [demix] *)

(** What lines 380-397 fix before the loop starts. *)
Record plan : Type := {
  p_chunk_size : nat;
  p_num_instruments : nat;
  p_step : nat;
  p_fade_size : nat;
  p_border : nat;
  p_length_init : nat;
  p_window : row;
  p_mix : array2
}.

Definition padded (border length_init : nat) : bool :=
  (2 * border <? length_init) && (0 <? border).

Definition demix_plan (cfg : config) (md : mode) (mix : array2) : outcome plan :=
  match md with
  | demucs =>
      let chunk_size := training_samplerate cfg * training_segment cfg in
      let num_instruments := length (training_instruments cfg) in
      step ← floordiv chunk_size (inference_num_overlap cfg);
      Done {| p_chunk_size := chunk_size; p_num_instruments := num_instruments;
              p_step := step; p_fade_size := 0; p_border := 0;
              p_length_init := cols mix; p_window := []; p_mix := mix |}
  | generic =>
      let chunk_size := audio_chunk_size cfg in
      let num_instruments := length (prefer_target_instrument cfg) in
      let fade_size := chunk_size / 10 in
      step ← floordiv chunk_size (inference_num_overlap cfg);
      let border := chunk_size - step in
      let length_init := cols mix in
      windowing_array ← _getWindowingArray chunk_size fade_size;
      mix ← (if padded border length_init
             then forM (reflect_pad border border) mix
             else Done mix);
      Done {| p_chunk_size := chunk_size; p_num_instruments := num_instruments;
              p_step := step; p_fade_size := fade_size; p_border := border;
              p_length_init := length_init; p_window := windowing_array;
              p_mix := mix |}
  end.

(** Lines 406-410. *)
Definition initial_state (pl : plan) : loop_state :=
  let zeros := replicate (p_num_instruments pl)
                 (replicate (length (p_mix pl)) (replicate (cols (p_mix pl)) 0%Q)) in
  {| i := 0; batch_data := []; batch_locations := [];
     result := zeros; counter := zeros; placed := [] |}.

Definition demix_run (fuel : nat) (md : mode) (batch_size : nat)
    (model : list array2 -> list array3) (pl : plan) : outcome loop_state :=
  demix_loop md (p_chunk_size pl) (p_step pl) (p_fade_size pl) batch_size
             (p_window pl) model (p_mix pl) fuel (initial_state pl).

(** Lines 539-541: [result / counter], then NaN to 0. *)
Definition normalize (result counter : array3) : array3 :=
  zip_with (zip_with (zip_with (fun r c => nan_to_num (true_divide r c)))) result counter.

(** Lines 544-546: [estimated_sources[..., border:-border]]. *)
Definition strip_border (md : mode) (pl : plan) (a : array3) : array3 :=
  match md with
  | generic =>
      if padded (p_border pl) (p_length_init pl)
      then map (map (fun r => drop (p_border pl) (take (length r - p_border pl) r))) a
      else a
  | demucs => a
  end.

(** A Python [dict] keeps insertion order; assigning to a key that is
    present replaces the value where it stands. *)
Fixpoint dict_set {V : Type} (k : string) (v : V) (d : list (string * V))
  : list (string * V) :=
  match d with
  | [] => [(k, v)]
  | (k', v') :: d' =>
      if String.eqb k' k then (k', v) :: d' else (k', v') :: dict_set k v d'
  end.

Fixpoint dict_get {V : Type} (k : string) (d : list (string * V)) : option V :=
  match d with
  | [] => None
  | (k', v') :: d' => if String.eqb k' k then Some v' else dict_get k d'
  end.

(** [{k: v for k, v in pairs}] *)
Definition dict_of {V : Type} (pairs : list (string * V)) : list (string * V) :=
  fold_left (fun d kv => dict_set kv.1 kv.2 d) pairs [].

Inductive separated : Type :=
  | RawArray (a : array3)
  | Mapping (d : list (string * array2)).

(** Lines 538-559. *)
Definition demix_finalize (cfg : config) (md : mode) (pl : plan) (st : loop_state)
  : separated :=
  let estimated_sources := normalize (result st) (counter st) in
  let estimated_sources := strip_border md pl estimated_sources in
  let instruments :=
    match md with
    | demucs => training_instruments cfg
    | generic => prefer_target_instrument cfg
    end in
  let ret_data := dict_of (zip instruments estimated_sources) in
  match md with
  | demucs => if p_num_instruments pl <=? 1 then RawArray estimated_sources
              else Mapping ret_data
  | generic => Mapping ret_data
  end.

Definition demix (fuel : nat) (cfg : config) (model : list array2 -> list array3)
    (mix : array2) (model_type : string) (fl : flags) : outcome separated :=
  let md := select_mode fl model_type in
  pl ← demix_plan cfg md mix;
  st ← demix_run fuel md (inference_batch_size cfg) model pl;
  Done (demix_finalize cfg md pl st).

(** The back end that returns its input as the single instrument. *)
Definition identity_model (batch : list array2) : list array3 :=
  map (fun chunk => [chunk]) batch.

(** ** Test-time augmentation *)

(** [a[::-1]] on a (channels, samples) array. *)
Definition channel_reverse (a : array2) : array2 := reverse a.

(** [-1.0 * a] *)
Definition negate (a : array2) : array2 := map (map (Qmult (-1))) a.

(** numpy broadcasting of the operand [b] of an in-place operation on
    [a]: along each axis [b] has the extent of [a], or 1.  (A list of rows
    does not record the columns of an array without rows; such an array
    counts as having none.) *)
Definition broadcasts (b a : array2) : bool :=
  ((length b =? length a) || (length b =? 1))
  && ((cols b =? cols a) || (cols b =? 1)).

(** [l] along an axis of [n] entries: a single entry is repeated. *)
Definition stretch {A : Type} (n : nat) (l : list A) : list A :=
  match l with
  | [x] => replicate n x
  | _ => l
  end.

(** [a op= b] on (channels, samples) numpy arrays: [b] is broadcast to
    the shape of [a], which does not change; an operand that cannot be
    broadcast raises ValueError. *)
Definition array_inplace (op : Q -> Q -> Q) (a b : array2) : outcome array2 :=
  if broadcasts b a then
    Done (zip_with (fun ra rb => zip_with op ra (stretch (length ra) rb))
                   a (stretch (length a) b))
  else Raised ValueError.

(** [d[el] op= v] on arrays held in a dict: the entry is read (KeyError
    if there is none), updated in place and stored back.  The arrays of
    different entries are distinct objects. *)
Definition dict_update (op : Q -> Q -> Q) (el : string) (v : array2)
    (d : list (string * array2)) : outcome (list (string * array2)) :=
  match dict_get el d with
  | None => Raised KeyError
  | Some cur => cur ← array_inplace op cur v; Done (dict_set el cur d)
  end.

(** Lines 278-282 for the augmentation number [i]. *)
Definition merge_augmented (i : nat) (waveforms : list (string * array2))
    (waveforms_orig : list (string * array2)) : outcome (list (string * array2)) :=
  foldlM (fun orig el =>
            match dict_get el waveforms with
            | None => Raised KeyError
            | Some v =>
                if i =? 0 then dict_update Qplus el (channel_reverse v) orig
                else dict_update Qminus el v orig
            end)
         (map fst waveforms) waveforms_orig.

Definition apply_tta (fuel : nat) (cfg : config) (model : list array2 -> list array3)
    (mix : array2) (waveforms_orig : list (string * array2)) (model_type : string)
  : outcome (list (string * array2)) :=
  let track_proc_list := [channel_reverse mix; negate mix] in
  waveforms_orig ←
    foldlM (fun orig ia =>
              waveforms ← demix fuel cfg model ia.2 model_type native;
              match waveforms with
              | Mapping w => merge_augmented ia.1 w orig
              | RawArray _ => Raised TypeError
              end)
           (imap pair track_proc_list) waveforms_orig;
  let n := inject_Z (Z.of_nat (length track_proc_list + 1)) in
  Done (map (fun kv => (kv.1, map (map (fun x => x / n)%Q) kv.2)) waveforms_orig).

(** ** Weight reconciliation *)

Inductive ndarray : Type :=
  | Scalar (x : Q)
  | Axis (xs : list ndarray).

Record tensor : Type := {
  shape : list nat;
  data : ndarray
}.

(** The checkpoint objects considered: tensors, dicts with string keys
    (of such objects), and plain values ([PValue]) such as [None] or a
    Python number, which are no containers ([k in o] and [o[k]] raise
    TypeError) and have no [.shape].  Strings, lists, tuples and numpy
    arrays are not represented. *)
Inductive pyobj : Type :=
  | PTensor (t : tensor)
  | PDict (d : gmap string pyobj)
  | PValue.

(** [k in o] *)
Definition py_contains (k : string) (o : pyobj) : outcome bool :=
  match o with
  | PDict d => Done (match d !! k with Some _ => true | None => false end)
  | PTensor _ => Raised RuntimeError
  | PValue => Raised TypeError
  end.

(** [o[k]] *)
Definition py_getitem (k : string) (o : pyobj) : outcome pyobj :=
  match o with
  | PDict d => match d !! k with Some v => Done v | None => Raised KeyError end
  | PTensor _ => Raised IndexError
  | PValue => Raised TypeError
  end.

(** The object behind [o.shape], [o.cpu()]. *)
Definition py_tensor (o : pyobj) : outcome tensor :=
  match o with
  | PTensor t => Done t
  | _ => Raised AttributeError
  end.

(** [np.zeros(shape)] *)
Fixpoint zeros (shape : list nat) : ndarray :=
  match shape with
  | [] => Scalar 0
  | n :: shape' => Axis (replicate n (zeros shape'))
  end.

(** [dst[0:b0, 0:b1, ...] = src] *)
Fixpoint setitem_region (bounds : list nat) (dst src : ndarray) : ndarray :=
  match bounds with
  | [] => src
  | b :: bounds' =>
      match dst, src with
      | Axis ds, Axis ss =>
          Axis (inplace (fun d s => setitem_region bounds' d s) (take b ds) ss ++ drop b ds)
      | _, _ => dst
      end
  end.

(** [a[0:b0, 0:b1, ...]] *)
Fixpoint getitem_region (bounds : list nat) (a : ndarray) : ndarray :=
  match bounds with
  | [] => a
  | b :: bounds' =>
      match a with
      | Axis xs => Axis (map (getitem_region bounds') (take b xs))
      | Scalar _ => a
      end
  end.

(** [a[i0, i1, ...]] *)
Fixpoint item (idx : list nat) (a : ndarray) : option Q :=
  match idx, a with
  | [], Scalar x => Some x
  | k :: idx', Axis xs => x ← xs !! k; item idx' x
  | _, _ => None
  end.

(** Lines 618-634. *)
Definition reconcile (new_t old_t : tensor) : tensor :=
  let ln := length (shape new_t) in
  let axes := seq 0 ln in
  let max_shape := map (fun i => nth i (shape new_t) 0 `max` nth i (shape old_t) 0) axes in
  let slices_old := map (fun i => nth i (shape old_t) 0) axes in
  let slices_new := map (fun i => nth i (shape new_t) 0) axes in
  let max_matrix := zeros max_shape in
  let max_matrix :=
    Nat.iter ln (fun m => setitem_region slices_old m (data old_t)) max_matrix in
  {| shape := zip_with Nat.min slices_new max_shape;
     data := getitem_region slices_new max_matrix |}.

(** Lines 604-637 for one parameter [el] with current value [cur]. *)
Definition reconcile_entry (old_model : pyobj) (el : string) (cur : tensor)
  : outcome tensor :=
  present ← py_contains el old_model;
  if (present : bool) then
    o ← py_getitem el old_model;
    old_t ← py_tensor o;
    if bool_decide (shape cur = shape old_t) then Done old_t
    else if bool_decide (length (shape cur) ≠ length (shape old_t)) then Done cur
    else Done (reconcile cur old_t)
  else Done cur.

(** Lines 596-601: [if key in old_model: old_model = old_model[key]], for
    ['state'] and then for ['state_dict']. *)
Definition unwrap (key : string) (old_model : pyobj) : outcome pyobj :=
  present ← py_contains key old_model;
  if (present : bool) then py_getitem key old_model else Done old_model.

Definition unwrap_containers (weights : pyobj) : outcome pyobj :=
  old_model ← unwrap "state" weights;
  unwrap "state_dict" old_model.

(** [model.load_state_dict(sd)], strict: the key sets agree and every
    tensor has the shape of the parameter it is copied into. *)
Definition load_state_dict (params sd : list (string * tensor))
  : outcome (list (string * tensor)) :=
  if forallb (fun p => match dict_get p.1 sd with
                       | Some t => bool_decide (shape p.2 = shape t)
                       | None => false
                       end) params
     && forallb (fun s => match dict_get s.1 params with
                          | Some _ => true
                          | None => false
                          end) sd
  then Done (map (fun p => (p.1, default p.2 (dict_get p.1 sd))) params)
  else Raised RuntimeError.

(** [state] is the model's [state_dict()], [weights] what [torch.load]
    returned; the result is the model's parameters after the call.  The
    loop assigns only to the key it is visiting, so it is a map over the
    entries. *)
Definition load_not_compatible_weights (state : list (string * tensor)) (weights : pyobj)
  : outcome (list (string * tensor)) :=
  let new_model := state in
  old_model ← unwrap_containers weights;
  new_model ← forM (fun kv => t ← reconcile_entry old_model kv.1 kv.2; Done (kv.1, t))
                   new_model;
  load_state_dict state new_model.


(** ** Reading audio *)

(** What [sf.read] returns for the samples: a 1-D array for a mono file,
    otherwise an array of shape (frames, channels). *)
Inductive sf_data : Type :=
  | Mono (samples : row)
  | Frames (channels : nat) (frames : list row).

(** [a.T] of a (frames, channels) array. *)
Definition transpose (channels : nat) (frames : list row) : array2 :=
  map (fun c => map (fun fr => nth c fr 0%Q) frames) (seq 0 channels).

(** [read] is the outcome of [sf.read(path)]: [None] when it raised.  The
    result [None] stands for the pair [(None, None)]. *)
Definition read_audio_transposed (read : option (sf_data * nat)) (skip_err : bool)
  : outcome (option (array2 * nat)) :=
  match read with
  | None => if skip_err then Done None else Raised RuntimeError
  | Some (mix, sr) =>
      match mix with
      | Mono samples =>
          (* np.expand_dims(mix, axis=-1) *)
          Done (Some (transpose 1 (map (fun x => [x]) samples), sr))
      | Frames channels frames => Done (Some (transpose channels frames, sr))
      end
  end.

(** ** Normalisation *)

(** Arithmetic on values that may be infinite or NaN; finite results are
    exact (no overflow). *)
Definition fneg (a : fval) : fval :=
  match a with
  | Finite x => Finite (- x)
  | PosInf => NegInf
  | NegInf => PosInf
  | NaN => NaN
  end.

Definition fadd (a b : fval) : fval :=
  match a, b with
  | NaN, _ | _, NaN => NaN
  | Finite x, Finite y => Finite (x + y)
  | PosInf, NegInf | NegInf, PosInf => NaN
  | PosInf, _ | _, PosInf => PosInf
  | NegInf, _ | _, NegInf => NegInf
  end.

Definition fsub (a b : fval) : fval := fadd a (fneg b).

(** [inf * x] for a finite [x]. *)
Definition scale_inf (positive : bool) (x : Q) : fval :=
  match (x ?= 0)%Q with
  | Eq => NaN
  | Gt => if positive then PosInf else NegInf
  | Lt => if positive then NegInf else PosInf
  end.

Definition fmul (a b : fval) : fval :=
  match a, b with
  | NaN, _ | _, NaN => NaN
  | Finite x, Finite y => Finite (x * y)
  | Finite x, PosInf | PosInf, Finite x => scale_inf true x
  | Finite x, NegInf | NegInf, Finite x => scale_inf false x
  | PosInf, PosInf | NegInf, NegInf => PosInf
  | PosInf, NegInf | NegInf, PosInf => NegInf
  end.

Definition fdiv (a b : fval) : fval :=
  match a, b with
  | NaN, _ | _, NaN => NaN
  | Finite x, Finite y => true_divide x y
  | Finite _, _ => Finite 0
  | PosInf, Finite y => if Qle_bool 0 y then PosInf else NegInf
  | NegInf, Finite y => if Qle_bool 0 y then NegInf else PosInf
  | _, _ => NaN
  end.

(** Lines 539-541 on accumulators that may hold an infinity or NaN (a
    sum beyond the float32 range, a back end that returns one);
    [normalize] is this on finite accumulators. *)
Definition normalize_float (result counter : list (list (list fval))) : array3 :=
  zip_with (zip_with (zip_with (fun r c => nan_to_num (fdiv r c)))) result counter.

(** [a.mean()] of a 1-D array: 0/0 is NaN for an empty one. *)
Definition fmean (l : list fval) : fval :=
  fdiv (fold_right fadd (Finite 0) l) (Finite (inject_Z (Z.of_nat (length l)))).

Section Normalize.

(** [np.sqrt] on a finite non-negative number, rounding included. *)
Variable sqrt : Q -> Q.

Definition fsqrt (a : fval) : fval :=
  match a with
  | Finite x => if Qle_bool 0 x then Finite (sqrt x) else NaN
  | PosInf => PosInf
  | _ => NaN
  end.

(** [a.std()]: root of the mean squared distance to the mean. *)
Definition fstd (l : list fval) : fval :=
  let m := fmean l in
  fsqrt (fmean (map (fun x => fmul (fsub x m) (fsub x m)) l)).

(** [audio.mean(0)] of a (channels, time) array. *)
Definition mean_over_channels (audio : list (list fval)) : list fval :=
  map (fun t => fmean (map (fun r => nth t r NaN) audio))
      (seq 0 (match audio with [] => 0 | r :: _ => length r end)).

Definition normalize_audio (audio : list (list fval))
  : list (list fval) * list (string * fval) :=
  let mono := mean_over_channels audio in
  let mean := fmean mono in
  let std := fstd mono in
  (map (map (fun a => fdiv (fsub a mean) std)) audio,
   dict_of [("mean", mean); ("std", std)]).

End Normalize.

Definition denormalize_audio (audio : list (list fval)) (norm_params : list (string * fval))
  : outcome (list (list fval)) :=
  match dict_get "std" norm_params with
  | None => Raised KeyError
  | Some std =>
      match dict_get "mean" norm_params with
      | None => Raised KeyError
      | Some mean => Done (map (map (fun a => fadd (fmul a std) mean)) audio)
      end
  end.

(** ** Starting from a checkpoint *)

(** [input_param[0]] of a 1-D tensor. *)
Definition first_element (t : tensor) : outcome tensor :=
  match data t with
  | Axis (x :: _) => Done {| shape := []; data := x |}
  | _ => Raised IndexError
  end.

(** What [load_state_dict] does for one parameter: [Some t] when [t] is
    what the parameter holds afterwards, [None] when an error message is
    collected (the entry is no tensor, its shape differs, or it is missing
    under [strict]).  A 0-D parameter given a 1-D tensor is given its first
    element (torch's rule for checkpoints of old versions); indexing an
    empty one raises at once. *)
Definition load_entry (strict : bool) (d : gmap string pyobj) (p : string * tensor)
  : outcome (option tensor) :=
  match d !! p.1 with
  | Some (PTensor t) =>
      input_param ←
        (if bool_decide (shape p.2 = []) && (length (shape t) =? 1)
         then first_element t else Done t);
      Done (if bool_decide (shape p.2 = shape input_param) then Some input_param else None)
  | Some _ => Done None
  | None => Done (if strict then None else Some p.2)
  end.

(** [model.load_state_dict(o, strict=strict)]: the object must be a
    mapping; the parameters are visited in order; the collected error
    messages, and under [strict] a key that names no parameter, raise
    RuntimeError at the end. *)
Definition load_state_dict_obj (strict : bool) (params : list (string * tensor)) (o : pyobj)
  : outcome (list (string * tensor)) :=
  match o with
  | PDict d =>
      loaded ← forM (load_entry strict d) params;
      if forallb (fun t : option tensor => match t with Some _ => true | None => false end)
                 loaded
         && (negb strict
             || forallb (fun k => match dict_get k params with
                                  | Some _ => true
                                  | None => false
                                  end) (map fst (map_to_list d)))
      then Done (zip_with (fun p t => (p.1, default p.2 t)) params loaded)
      else Raised RuntimeError
  | _ => Raised TypeError
  end.

(** [lora] is what [torch.load(lora_path)] returned. *)
Definition load_lora_weights (state : list (string * tensor)) (lora : pyobj)
  : outcome (list (string * tensor)) :=
  load_state_dict_obj false state lora.

Record start_args : Type := {
  start_check_point : pyobj;            (* torch.load(args.start_check_point) *)
  model_type_arg : string;              (* args.model_type *)
  lora_checkpoint : option pyobj        (* torch.load(args.lora_checkpoint), if given *)
}.

Definition load_start_checkpoint (args : start_args) (state : list (string * tensor))
    (type_ : string) : outcome (list (string * tensor)) :=
  state ←
    (if String.eqb type_ "train" then
       load_not_compatible_weights state (start_check_point args)
     else
       state_dict ←
         (if String.eqb (model_type_arg args) "htdemucs"
             || String.eqb (model_type_arg args) "apollo"
          then unwrap_containers (start_check_point args)
          else Done (start_check_point args));
       load_state_dict_obj true state state_dict);
  match lora_checkpoint args with
  | Some lora => load_lora_weights state lora
  | None => Done state
  end.

(** ** Vocabulary of the statements *)

Definition window_10_3 : row := [0; 1 # 2; 1; 1; 1; 1; 1; 1; 1 # 2; 0]%Q.

(** Number of steps of size [b] needed to pass [a]. *)
Definition ceil_div (a b : nat) : nat := (a + b - 1) / b.

(** Every channel has [cols a] samples. *)
Definition rectangular (a : array2) : Prop := Forall (fun r => length r = cols a) a.

(** The back end returns one output per chunk of the batch. *)
Definition batch_preserving (model : list array2 -> list array3) : Prop :=
  forall batch, length (model batch) = length batch.

Definition location (p : placement) : nat * nat := (start p, seg_len p).

(** The chunks cut so far and their outputs go in pairs. *)
Definition pending_ok (st : loop_state) : Prop :=
  length (batch_data st) = length (batch_locations st).

(** The first [n] placements of a buffer of [len] samples. *)
Definition schedule (chunk_size step len n : nat) : list (nat * nat) :=
  map (fun k => (k * step, chunk_size `min` (len - k * step))) (seq 0 n).

(** Loop invariant: [n] chunks were cut, in schedule order, and the ones
    not yet accumulated are those of the open batch. *)
Definition on_schedule (chunk_size step len : nat) (st : loop_state) : Prop :=
  exists n, i st = n * step
            /\ map location (placed st) ++ batch_locations st = schedule chunk_size step len n
            /\ (0 < n -> (n - 1) * step < len)
            /\ (len <= i st -> batch_locations st = [])
            /\ pending_ok st.

Ltac div_facts a b :=
  pose proof (Nat.div_mod_eq a b); pose proof (Nat.mod_upper_bound a b).

(** The loop state of line 410, over given accumulators. *)
Definition fresh (r c : array3) : loop_state :=
  {| i := 0; batch_data := []; batch_locations := [];
     result := r; counter := c; placed := [] |}.

(** The row [reflect_pad] returns when it returns. *)
Definition reflected (left right : nat) (r : row) : row :=
  reverse (take left (drop 1 r)) ++ r ++ take right (drop 1 (reverse r)).

(** A small generic-mode configuration: chunks of 10 samples, half
    overlapping, two chunks per batch. *)
Definition cfg_10_2 : config :=
  {| audio_chunk_size := 10; training_samplerate := 1; training_segment := 10;
     training_instruments := ["vocals"]; training_target_instrument := None;
     inference_num_overlap := 2; inference_batch_size := 2 |}.

(** The instrument list [demix] labels its rows with (lines 549-552). *)
Definition instruments_of (cfg : config) (md : mode) : list string :=
  match md with
  | demucs => training_instruments cfg
  | generic => prefer_target_instrument cfg
  end.

(** [a] is a full array of the given shape. *)
Fixpoint has_shape (s : list nat) (a : ndarray) : Prop :=
  match s, a with
  | [], Scalar _ => True
  | n :: s', Axis xs => length xs = n /\ Forall (has_shape s') xs
  | _, _ => False
  end.

(** The index [idx] addresses an element of an array of shape [s]. *)
Definition in_bounds (idx s : list nat) : Prop := Forall2 lt idx s.

#[global] Instance in_bounds_dec (idx s : list nat) : Decision (in_bounds idx s) :=
  Forall2_dec lt idx s.

Definition tensor_2x3 (a b c d e f : Q) : tensor :=
  {| shape := [2; 3];
     data := Axis [Axis [Scalar a; Scalar b; Scalar c];
                   Axis [Scalar d; Scalar e; Scalar f]] |}.

Definition tensor_4x3 (r0 r1 r2 r3 : Q * Q * Q) : tensor :=
  let line (r : Q * Q * Q) := Axis [Scalar r.1.1; Scalar r.1.2; Scalar r.2] in
  {| shape := [4; 3]; data := Axis [line r0; line r1; line r2; line r3] |}.

(** The value [load_not_compatible_weights] assigns to [new_model[el]],
    or the current one where the loop raises. *)
Definition reconciled (old_model : pyobj) (kv : string * tensor) : tensor :=
  match reconcile_entry old_model kv.1 kv.2 with
  | Done t => t
  | _ => kv.2
  end.

(** A model with a (4,3) weight and a bias, and a checkpoint nested under
    ['state'] that holds a (2,3) weight and no bias. *)
Definition state_wb : list (string * tensor) :=
  [("w", {| shape := [4; 3]; data := zeros [4; 3] |});
   ("b", {| shape := [3]; data := Axis [Scalar 7; Scalar 8; Scalar 9] |})].

Definition checkpoint_w : gmap string pyobj :=
  {[ "w" := PTensor (tensor_2x3 1 2 3 4 5 6) ]}.

(** [a[k, ch, s]] *)
Definition sample (a : array3) (k ch s : nat) : option Q :=
  m ← a !! k; r ← m !! ch; r !! s.

(** A weight and the sum it normalises: the weight is not negative, and
    where it is zero nothing was summed. *)
Definition weight_ok (cv rv : Q) : Prop := (0 <= cv)%Q /\ (cv == 0 -> rv == 0)%Q.

(** [vs] is added where [ws] is added, and vanishes where [ws] does. *)
Fixpoint dominated (ws vs : row) {struct vs} : Prop :=
  match vs, ws with
  | [], _ => True
  | v :: vs', w :: ws' => (w == 0 -> v == 0)%Q /\ dominated ws' vs'
  | _ :: _, [] => False
  end.

(** Samples the final slice [border:-border] drops at the head. *)
Definition strip_offset (md : mode) (pl : plan) : nat :=
  match md with
  | generic => if padded (p_border pl) (p_length_init pl) then p_border pl else 0
  | demucs => 0
  end.

(** The samples 1, 2, ..., n. *)
Definition ramp (n : nat) : row := map (fun k => inject_Z (Z.of_nat (S k))) (seq 0 n).

(** Chunks of 12 samples, step 3, two chunks per batch: with 13 input
    samples the border (9) is too long for the buffer to be padded. *)
Definition cfg_12_4 : config :=
  {| audio_chunk_size := 12; training_samplerate := 1; training_segment := 12;
     training_instruments := ["vocals"]; training_target_instrument := None;
     inference_num_overlap := 4; inference_batch_size := 2 |}.

(** Element-wise [a + b], [a - b] and [a / n] on (channels, samples)
    arrays of one shape. *)
Definition arr_add (a b : array2) : array2 := zip_with (zip_with Qplus) a b.
Definition arr_sub (a b : array2) : array2 := zip_with (zip_with Qminus) a b.
Definition arr_div (a : array2) (n : Q) : array2 := map (map (fun x => x / n)%Q) a.

(** What one pass of lines 278-282 makes of an entry [b] of
    [waveforms_orig], given the augmented result [v] of the same shape:
    for the first augmentation the channels of [v] are added in the
    opposite order, for the second [v] is subtracted. *)
Definition merged (i : nat) (b v : array2) : array2 :=
  if i =? 0 then arr_add b (reverse v) else arr_sub b v.

(** What an accumulation statement adds to one row of the counter. *)
Definition weigh (p : placement) (cn : row) : row :=
  match window_used p with
  | Some w => add_at (start p) (take (seg_len p) w) cn
  | None => add_at (start p) (replicate (seg_len p) 1%Q) cn
  end.

(** The counter row after the accumulation statements [ps]. *)
Definition replay (ps : list placement) (cn : row) : row :=
  fold_left (fun cn p => weigh p cn) ps cn.

(** Identity back end: a result row is the mixture row times the counter
    row, and the counter row is the replay of the placements so far. *)
Definition row_rel (ps : list placement) (m r cn : row) : Prop :=
  length r = length m
  /\ cn = replay ps (replicate (length m) 0%Q)
  /\ forall s, (nth s r 0 == nth s m 0 * nth s cn 0)%Q.

(** A chunk waiting in the batch starts with the samples of the mixture
    at its placement. *)
Definition chunk_matches (chunk_size : nat) (mix : array2) (loc : nat * nat)
    (chunk : array2) : Prop :=
  loc.2 = chunk_size `min` (cols mix - loc.1)
  /\ Forall2 (fun xr m => take loc.2 xr = take chunk_size (drop loc.1 m)) chunk mix.

(** Loop invariant of the generic mode over the identity back end. *)
Definition identity_inv (chunk_size step fade_size batch_size : nat) (w0 : row)
    (mix : array2) (st : loop_state) : Prop :=
  Forall2 (chunk_matches chunk_size mix) (batch_locations st) (batch_data st)
  /\ (exists R Cn, result st = [R] /\ counter st = [Cn]
                   /\ Forall3 (row_rel (placed st)) mix R Cn)
  /\ Forall (fun p => exists k, window_used p = Some (batch_window step fade_size w0 mix k))
            (placed st)
  /\ (batch_size <= 1 ->
      batch_locations st = []
      /\ Forall (fun p => window_used p
                          = Some (batch_window step fade_size w0 mix (start p + step)))
                (placed st)).

(** A placement whose window has no negative weight. *)
Definition nonneg_placement (p : placement) : Prop :=
  match window_used p with
  | Some w => Forall (fun x => 0 <= x)%Q w
  | None => True
  end.

(** More overlap than samples in a chunk: [step = 10 // 11 = 0]. *)
Definition cfg_10_11 : config :=
  {| audio_chunk_size := 10; training_samplerate := 1; training_segment := 10;
     training_instruments := ["vocals"]; training_target_instrument := None;
     inference_num_overlap := 11; inference_batch_size := 1 |}.

(** A chunk too short for a fade: [fade_size = 5 // 10 = 0]. *)
Definition cfg_5_2 : config :=
  {| audio_chunk_size := 5; training_samplerate := 1; training_segment := 5;
     training_instruments := ["vocals"]; training_target_instrument := None;
     inference_num_overlap := 2; inference_batch_size := 1 |}.

(** [cfg_10_2] with one chunk per batch. *)
Definition cfg_10_2_single : config :=
  {| audio_chunk_size := 10; training_samplerate := 1; training_segment := 10;
     training_instruments := ["vocals"]; training_target_instrument := None;
     inference_num_overlap := 2; inference_batch_size := 1 |}.


(** ** Vocabulary of the further properties *)

(** An array of [n] instruments, [ch] channels and [len] samples. *)
Definition shape3 (n ch len : nat) (a : array3) : Prop :=
  length a = n /\ Forall (fun m => length m = ch /\ Forall (fun r => length r = len) m) a.

(** What the accumulation statement [p] adds to the counter at sample [s]
    of a row of [len] samples. *)
Definition weight_at (p : placement) (s len : nat) : Q :=
  if (start p <=? s) && (s <? len)
  then nth (s - start p)
           (match window_used p with
            | Some w => take (seg_len p) w
            | None => replicate (seg_len p) 1%Q
            end) 0%Q
  else 0%Q.

Definition total_weight (ps : list placement) (s len : nat) : Q :=
  fold_right (fun p acc => weight_at p s len + acc)%Q 0%Q ps.

(** Loop invariant for every back end: the counter is the replay of the
    placements over its initial rows, a placement carries the window of
    the batch it was accumulated with, and that batch was closed at an
    index past the placement's chunk. *)
Definition placed_inv (md : mode) (step fade_size : nat) (w0 : row) (mix : array2)
    (c0 : array3) (st : loop_state) : Prop :=
  counter st = map (map (replay (placed st))) c0
  /\ Forall (fun p => match md with
                      | generic =>
                          exists j, start p + step <= j
                                    /\ window_used p
                                       = Some (batch_window step fade_size w0 mix j)
                      | demucs => window_used p = None
                      end) (placed st)
  /\ Forall (fun loc : nat * nat => loc.1 + step <= i st) (batch_locations st).

(** A stem of the shape of the input: one row per channel, one sample per
    input sample. *)
Definition stem_like (mix a : array2) : Prop :=
  length a = length mix /\ Forall (fun r => length r = cols mix) a.

(** Chunks of 10 samples that do not overlap, two chunks per batch. *)
Definition cfg_10_1 : config :=
  {| audio_chunk_size := 10; training_samplerate := 1; training_segment := 10;
     training_instruments := ["vocals"]; training_target_instrument := None;
     inference_num_overlap := 1; inference_batch_size := 2 |}.

(** A two-stem configuration with a target instrument. *)
Definition cfg_target : config :=
  {| audio_chunk_size := 10; training_samplerate := 1; training_segment := 10;
     training_instruments := ["vocals"; "other"];
     training_target_instrument := Some "vocals";
     inference_num_overlap := 2; inference_batch_size := 2 |}.

(** A demucs-mode configuration: chunks of 2 * 3 samples, step 3. *)
Definition cfg_demucs : config :=
  {| audio_chunk_size := 0; training_samplerate := 2; training_segment := 3;
     training_instruments := ["drums"; "bass"]; training_target_instrument := None;
     inference_num_overlap := 2; inference_batch_size := 2 |}.

(** A back end with two stems, each a copy of its input. *)
Definition two_stem_model (batch : list array2) : list array3 :=
  map (fun chunk => [chunk; chunk]) batch.

(** The entry [q] is what the loader's loop assigns for the parameter
    [kv]: same name, the reconciled tensor, the parameter's shape. *)
Definition entry_loaded (old_model : pyobj) (kv q : string * tensor) : Prop :=
  q.1 = kv.1
  /\ reconcile_entry old_model kv.1 kv.2 = Done q.2
  /\ shape q.2 = shape kv.2.

(** The tensors of a compatible checkpoint, under the parameter names. *)
Definition checkpoint_values (d : gmap string pyobj) (state : list (string * tensor))
  : list (string * tensor) :=
  map (fun p => (p.1, match d !! p.1 with Some (PTensor t) => t | _ => p.2 end)) state.

(** The second half of [load_start_checkpoint] (lines 697-699). *)
Definition then_lora (args : start_args) (loaded : outcome (list (string * tensor)))
  : outcome (list (string * tensor)) :=
  state ← loaded;
  match lora_checkpoint args with
  | Some lora => load_lora_weights state lora
  | None => Done state
  end.

(** A model with a (2,3) weight, and checkpoints for it: a flat one, the
    same nested under ['state'], and a LoRA file with an unknown key. *)
Definition state_w : list (string * tensor) :=
  [("w", {| shape := [2; 3]; data := zeros [2; 3] |})].

Definition args_of (checkpoint : pyobj) (model_type : string) : start_args :=
  {| start_check_point := checkpoint; model_type_arg := model_type;
     lora_checkpoint := None |}.

Definition lora_file : gmap string pyobj :=
  {[ "w" := PTensor (tensor_2x3 1 2 3 4 5 6);
     "lora_A" := PTensor (tensor_2x3 0 0 0 0 0 0) ]}.

(** What [sf.read] returned, frame by frame, and its channel count; a
    two-dimensional result has [channels] samples in every frame. *)
Definition frames_of (data : sf_data) : list row :=
  match data with
  | Mono samples => map (fun x => [x]) samples
  | Frames _ frames => frames
  end.

Definition channels_of (data : sf_data) : nat :=
  match data with
  | Mono _ => 1
  | Frames channels _ => channels
  end.

Definition well_formed (data : sf_data) : Prop :=
  Forall (fun fr => length fr = channels_of data) (frames_of data).

(** [a[i, j]] of a two-dimensional array. *)
Definition at2 (a : list row) (i j : nat) : option Q := r ← a !! i; r !! j.

(** A finite float holding the rational [x]. *)
Definition holds (v : fval) (x : Q) : Prop :=
  match v with
  | Finite y => (y == x)%Q
  | _ => False
  end.

(** A square root on the rationals, exact on squares:
    [floor (sqrt (n * d)) / d] for [n / d]. *)
Definition Qsqrt_floor (q : Q) : Q :=
  (inject_Z (Z.sqrt (Qnum q * Zpos (Qden q))) / inject_Z (Zpos (Qden q)))%Q.

(** What [torch.save(model.state_dict(), path)] leaves for [torch.load]. *)
Definition state_dict_of (state : list (string * tensor)) : gmap string pyobj :=
  list_to_map (map (fun p => (p.1, PTensor p.2)) state).

(** No 0-D parameter is offered an empty 1-D tensor, whose first element
    [load_state_dict] would index. *)
Definition indexable (d : gmap string pyobj) (state : list (string * tensor)) : Prop :=
  Forall (fun p => forall t, d !! p.1 = Some (PTensor t) -> shape p.2 = [] ->
                             length (shape t) = 1 ->
                             exists x xs, data t = Axis (x :: xs)) state.

(** A model with one 0-D parameter, and a file that holds it as a tensor
    of shape (1,). *)
Definition state_gain : list (string * tensor) :=
  [("gain", {| shape := []; data := Scalar 1 |})].

Definition gain_file : gmap string pyobj :=
  {[ "gain" := PTensor {| shape := [1]; data := Axis [Scalar 5] |} ]}.

(** Finite accumulators, as float accumulators. *)
Definition lift3 (a : array3) : list (list (list fval)) := map (map (map Finite)) a.

(** [a[k, ch, s]] of a float array. *)
Definition sample_float (a : list (list (list fval))) (k ch s : nat) : option fval :=
  m ← a !! k; r ← m !! ch; r !! s.

(** The output contract of a back end for [n] instruments: one output per
    chunk, made of [n] stems with the channels and the samples of the
    chunk. *)
Definition keeps_contract (n : nat) (model : list array2 -> list array3) : Prop :=
  forall batch,
    Forall2 (fun chunk out =>
               length out = n
               /\ Forall (fun stem : array2 =>
                            Forall2 (fun r xr : row => length xr = length r) chunk stem) out)
            batch (model batch).

(** The channels of an array, in the opposite order when [flip] is set. *)
Definition arrange {A : Type} (flip : bool) (a : list A) : list A :=
  if flip then reverse a else a.

(** [b] is the array [a] after an augmentation: its channels in the
    opposite order when [flip] is set, its samples times [sigma]. *)
Definition augmented (flip : bool) (sigma : Q) (a b : array2) : Prop :=
  Forall2 (Forall2 (fun x y => (y == sigma * x)%Q)) (arrange flip a) b.

(** The back end commutes with an augmentation: from augmented chunks it
    computes, stem by stem, the augmented outputs. *)
Definition commutes_with (flip : bool) (sigma : Q) (model : list array2 -> list array3)
  : Prop :=
  forall batch batch',
    Forall2 (augmented flip sigma) batch batch' ->
    Forall2 (Forall2 (augmented flip sigma)) (model batch) (model batch').

(** A back end for [n] instruments that commutes with the reversal of the
    channels and with the change of sign. *)
Definition tta_invariant (n : nat) (model : list array2 -> list array3) : Prop :=
  keeps_contract n model
  /\ commutes_with true 1 model
  /\ commutes_with false (-1) model.

(** A stem of [ch] channels and the same stem of the augmented run. *)
Definition in_step (flip : bool) (sigma : Q) (ch : nat) (m m' : array2) : Prop :=
  augmented flip sigma m m' /\ length m = ch.

(** Two states of the chunk loop, of a run and of the run on the
    augmented input: same index, same pending locations, same counter,
    same history; the pending chunks and the sums are those of the first
    run, augmented. *)
Definition lockstep (flip : bool) (sigma : Q) (ch : nat) (st st' : loop_state) : Prop :=
  i st' = i st
  /\ Forall2 (in_step flip sigma ch) (batch_data st) (batch_data st')
  /\ batch_locations st' = batch_locations st
  /\ Forall2 (in_step flip sigma ch) (result st) (result st')
  /\ counter st' = counter st
  /\ placed st' = placed st.

(** The stems of [d'] are the stems of [d] after an augmentation, under
    the same names. *)
Definition dict_augmented (flip : bool) (sigma : Q) (d d' : list (string * array2))
  : Prop :=
  Forall2 (fun kv kv' => kv.1 = kv'.1 /\ augmented flip sigma kv.2 kv'.2) d d'.

(** A two-channel input with different channels. *)
Definition stereo_12 : array2 := [ramp 12; map (Qmult 2) (ramp 12)].

(** * Properties *)

(** ** Windowing function *)

Lemma length_linspace a b n : length (linspace a b n) = n.
Proof.
  destruct n as [|[|n]]; [reflexivity .. |].
  unfold linspace. rewrite length_map, length_seq. reflexivity.
Qed.

Lemma nth_linspace a b n k :
  2 <= n -> k < n ->
  nth k (linspace a b n) 0%Q
  = (a + inject_Z (Z.of_nat k) * ((b - a) / inject_Z (Z.of_nat (n - 1))))%Q.
Proof.
  intros Hn Hk. destruct n as [|[|n]]; [lia .. |].
  unfold linspace. apply nth_lookup_Some.
  change (map ?f ?l) with (f <$> l).
  rewrite list_lookup_fmap, lookup_seq_lt by lia. reflexivity.
Qed.

(** The window as one expression: fade-in, plateau, fade-out. *)
Lemma getWindowingArray_parts size fade :
  0 < fade -> 2 * fade <= size ->
  _getWindowingArray size fade
  = Done (linspace 0 1 fade ++ replicate (size - 2 * fade) 1%Q ++ linspace 1 0 fade).
Proof.
  intros Hf Hs. unfold _getWindowingArray, setitem_slice, tail_start.
  destruct (Nat.eqb_spec fade 0) as [|_]; [lia|].
  rewrite !length_linspace.
  replace (size - (size - fade)) with fade by lia. rewrite Nat.eqb_refl. cbn [mbind outcome_bind].
  replace (fade `min` size) with fade by lia.
  replace (fade - 0) with fade by lia. rewrite Nat.eqb_refl. cbn [mbind outcome_bind].
  f_equal.
  rewrite drop_app_le by (rewrite length_take, length_replicate; lia).
  rewrite take_replicate, !drop_replicate.
  replace (size - size) with 0 by lia.
  replace ((size - fade) `min` size - fade) with (size - 2 * fade) by lia.
  cbn [take replicate app]. rewrite app_nil_r. reflexivity.
Qed.

(** C5: the window is a linear ramp up over the first [fade] samples, 1 on
    the plateau and a linear ramp down over the last [fade] samples; a ramp
    of a single sample is its starting value.  The documented example
    (10, 3) is [0, 0.5, 1, 1, 1, 1, 1, 1, 0.5, 0]. *)
Theorem window_shape (size fade : nat) :
  0 < size -> 0 < fade -> 2 * fade <= size ->
  exists w,
    _getWindowingArray size fade = Done w
    /\ length w = size
    /\ (2 <= fade -> forall k, k < fade ->
          (nth k w 0 == inject_Z (Z.of_nat k) / inject_Z (Z.of_nat (fade - 1)))%Q)
    /\ (forall k, fade <= k < size - fade -> nth k w 0%Q = 1%Q)
    /\ (2 <= fade -> forall k, k < fade ->
          (nth (size - fade + k) w 0
           == 1 - inject_Z (Z.of_nat k) / inject_Z (Z.of_nat (fade - 1)))%Q)
    /\ (fade = 1 -> nth 0 w 0%Q = 0%Q /\ nth (size - 1) w 0%Q = 1%Q)
    /\ exists w10, _getWindowingArray 10 3 = Done w10 /\ Forall2 Qeq w10 window_10_3.
Proof.
  intros _ Hf Hs. eexists. split; [apply getWindowingArray_parts; assumption|].
  repeat split.
  - rewrite !length_app, !length_linspace, length_replicate. lia.
  - intros H2 k Hk. rewrite app_nth1 by (rewrite length_linspace; lia).
    rewrite nth_linspace by lia. unfold Qdiv. ring.
  - intros k Hk. rewrite app_nth2; rewrite length_linspace; [|lia].
    rewrite app_nth1 by (rewrite length_replicate; lia).
    apply nth_lookup_Some, lookup_replicate_2. lia.
  - intros H2 k Hk. rewrite app_nth2; rewrite length_linspace; [|lia].
    rewrite app_nth2; rewrite length_replicate; [|lia].
    replace (size - fade + k - fade - (size - 2 * fade)) with k by lia.
    rewrite nth_linspace by lia. unfold Qdiv. ring.
  - subst fade. reflexivity.
  - subst fade. rewrite app_nth2; cbn [length linspace]; [|lia].
    rewrite app_nth2; rewrite length_replicate; [|lia].
    replace (size - 1 - 1 - (size - 2 * 1)) with 0 by lia. reflexivity.
  - eexists. split; [vm_compute; reflexivity|].
    repeat constructor.
Qed.

Lemma window_shape_witness :
  exists w, _getWindowingArray 20 2 = Done w /\ nth 1 w 0%Q == 1.
Proof.
  destruct (window_shape 20 2) as (w & Hw & _ & Hup & _); [lia .. |].
  exists w. split; [exact Hw|].
  rewrite (Hup ltac:(lia) 1%nat) by lia. reflexivity.
Defined.

(** ** The chunk loop: progress and schedule *)

Lemma forM_Done {A B : Type} (f : A -> outcome B) (g : A -> B) (xs : list A) :
  Forall (fun x => f x = Done (g x)) xs -> forM f xs = Done (map g xs).
Proof.
  induction 1 as [|x xs Hx _ IH]; [reflexivity|].
  cbn [forM]. rewrite Hx. cbn [mbind outcome_bind]. rewrite IH. reflexivity.
Qed.

Lemma ceil_div_bound a b : 1 <= b -> a <= ceil_div a b * b /\ (0 < a -> (ceil_div a b - 1) * b < a).
Proof.
  intros Hb. unfold ceil_div. div_facts (a + b - 1) b. nia.
Qed.

Lemma ceil_div_unique a b n : 1 <= b -> a <= n * b -> (0 < n -> (n - 1) * b < a) -> n = ceil_div a b.
Proof.
  intros Hb H1 H2. destruct (ceil_div_bound a b Hb) as [H3 H4].
  destruct (Nat.eq_dec a 0) as [->|Ha].
  - assert (n = 0) by (destruct n; [reflexivity|]; specialize (H2 ltac:(lia)); lia).
    subst n. unfold ceil_div. symmetry. apply Nat.div_small. lia.
  - specialize (H4 ltac:(lia)). nia.
Qed.

Section LoopFacts.

Variable md : mode.
Variable chunk_size step fade_size batch_size : nat.
Variable windowing_array : row.
Variable model : list array2 -> list array3.
Variable mix : array2.

Local Abbreviation body :=
  (loop_body md chunk_size step fade_size batch_size windowing_array model mix).
Local Abbreviation loop :=
  (demix_loop md chunk_size step fade_size batch_size windowing_array model mix).
Local Abbreviation P := (cols mix).
Local Abbreviation schedule := (schedule chunk_size step (cols mix)).
Local Abbreviation on_schedule := (on_schedule chunk_size step (cols mix)).

Lemma cols_part k :
  k < P -> cols (map (fun r => take chunk_size (drop k r)) mix) = chunk_size `min` (P - k).
Proof.
  destruct mix as [|r0 rest]; cbn [cols map]; [lia|].
  intros _. rewrite length_take, length_drop. reflexivity.
Qed.

Lemma pad_part_Done k :
  rectangular mix -> k < P ->
  exists part, pad_part md chunk_size (map (fun r => take chunk_size (drop k r)) mix)
               = Done part.
Proof.
  intros Hrect Hk. unfold pad_part. rewrite cols_part by assumption.
  set (cl := chunk_size `min` (P - k)).
  assert (Hpad : chunk_size / 2 < cl ->
                 exists part, forM (reflect_pad 0 (chunk_size - cl))
                                (map (fun r => take chunk_size (drop k r)) mix) = Done part).
  { intros Hhalf. eexists. apply forM_Done with
      (g := fun r => reverse (take 0 (drop 1 r)) ++ r
                     ++ take (chunk_size - cl) (drop 1 (reverse r))).
    apply List.Forall_forall. intros r Hr. apply in_map_iff in Hr as (r0 & <- & Hr0).
    unfold rectangular in Hrect. rewrite List.Forall_forall in Hrect.
    specialize (Hrect r0 Hr0).
    unfold reflect_pad. rewrite length_take, length_drop, Hrect. fold cl.
    div_facts chunk_size 2.
    destruct (Nat.ltb_spec 0 cl); [|lia].
    destruct (Nat.ltb_spec (chunk_size - cl) cl); [|lia]. reflexivity. }
  destruct md; [|eauto].
  destruct (Nat.ltb_spec (chunk_size / 2) cl); eauto.
Qed.

Lemma accumulate_batch_Done w locs x rc :
  length locs <= length x ->
  exists rc', accumulate_batch md w locs x rc = Done rc'.
Proof.
  revert x rc. induction locs as [|loc locs IH]; intros x rc Hlen; cbn [accumulate_batch].
  - eauto.
  - destruct x as [|xj x]; cbn [length] in Hlen; [lia|]. apply IH. lia.
Qed.

(** One iteration, seen from the schedule. *)
Lemma loop_body_step st :
  rectangular mix -> batch_preserving model -> i st < P -> pending_ok st ->
  exists st',
    body st = Done st'
    /\ i st' = i st + step
    /\ pending_ok st'
    /\ map location (placed st') ++ batch_locations st'
       = (map location (placed st) ++ batch_locations st)
           ++ [(i st, chunk_size `min` (P - i st))]
    /\ (P <= i st' -> batch_locations st' = []).
Proof.
  intros Hrect Hmodel Hi Hpend. unfold loop_body.
  destruct (pad_part_Done (i st) Hrect Hi) as [part ->]. cbn [mbind outcome_bind].
  rewrite cols_part by assumption.
  destruct (_ || _) eqn:Hflush.
  - edestruct (accumulate_batch_Done (batch_window step fade_size windowing_array mix (i st + step))
                 (batch_locations st ++ [(i st, chunk_size `min` (P - i st))])
                 (model (batch_data st ++ [part])) (result st, counter st)) as [rc ->].
    { rewrite Hmodel, !length_app. unfold pending_ok in Hpend. cbn [length]. lia. }
    cbn [mbind outcome_bind]. eexists. split; [reflexivity|]. cbn.
    repeat split.
    rewrite map_app, app_nil_r, <- app_assoc. f_equal.
    rewrite map_map. rewrite <- (map_id (_ ++ [_])) at 2.
    apply map_ext. intros [a b]. reflexivity.
  - eexists. split; [reflexivity|]. cbn. repeat split.
    + unfold pending_ok in *. cbn. rewrite !length_app, Hpend. reflexivity.
    + rewrite app_assoc. reflexivity.
    + apply orb_false_iff in Hflush as [_ Hend].
      apply Nat.leb_gt in Hend. lia.
Qed.

(** The index advances by [step] whenever an iteration completes. *)
Lemma loop_body_index st st' : body st = Done st' -> i st' = i st + step.
Proof.
  unfold loop_body. destruct (pad_part _ _ _) as [part| |]; cbn [mbind outcome_bind]; [|discriminate ..].
  destruct (_ || _).
  - destruct (accumulate_batch _ _ _ _ _) as [rc| |]; cbn [mbind outcome_bind]; [|discriminate ..].
    intros [= <-]. reflexivity.
  - intros [= <-]. reflexivity.
Qed.

Lemma demix_loop_more_fuel fuel fuel' st st' :
  loop fuel st = Done st' -> fuel <= fuel' -> loop fuel' st = Done st'.
Proof.
  revert fuel' st. induction fuel as [|fuel IH]; intros fuel' st; cbn [demix_loop].
  - destruct (i st <? P) eqn:Hc; [discriminate|]. intros H _.
    destruct fuel'; cbn [demix_loop]; rewrite Hc; exact H.
  - destruct (i st <? P) eqn:Hc.
    + intros H Hle. destruct fuel' as [|fuel']; [lia|]. cbn [demix_loop]. rewrite Hc.
      destruct (body st) as [st1| |]; cbn [mbind outcome_bind] in *; try discriminate.
      apply IH; [exact H|lia].
    + intros H _. destruct fuel'; cbn [demix_loop]; rewrite Hc; exact H.
Qed.

(** With [step = 0] the index never moves: the loop cannot finish. *)
Lemma demix_loop_stuck fuel st st' :
  step = 0 -> i st < P -> loop fuel st <> Done st'.
Proof.
  intros Hstep. revert st. induction fuel as [|fuel IH]; intros st Hi; cbn [demix_loop].
  - destruct (Nat.ltb_spec (i st) P); [discriminate|lia].
  - destruct (Nat.ltb_spec (i st) P); [|lia].
    destruct (body st) as [st1| |] eqn:Hb; cbn [mbind outcome_bind]; [|discriminate ..].
    apply IH. rewrite (loop_body_index _ _ Hb). lia.
Qed.

Lemma demix_loop_schedule fuel st :
  1 <= step -> rectangular mix -> batch_preserving model ->
  on_schedule st -> P <= i st + fuel * step ->
  exists st', loop fuel st = Done st' /\ on_schedule st' /\ P <= i st'
              /\ batch_locations st' = [].
Proof.
  intros Hstep Hrect Hmodel. revert st.
  induction fuel as [|fuel IH]; intros st Hinv Hfuel; cbn [demix_loop].
  - destruct (Nat.ltb_spec (i st) P); [lia|].
    exists st. repeat split; try assumption.
    destruct Hinv as (n & _ & _ & _ & Hend & _). auto.
  - destruct (Nat.ltb_spec (i st) P) as [Hi|Hi].
    + destruct Hinv as (n & Hn & Hsched & Hprev & Hend & Hpend).
      destruct (loop_body_step st Hrect Hmodel Hi Hpend)
        as (st1 & -> & Hi1 & Hpend1 & Hsched1 & Hend1).
      cbn [mbind outcome_bind]. apply IH; [|lia].
      exists (S n). repeat split; try assumption.
      * lia.
      * rewrite Hsched1, Hsched, Hn. unfold schedule.
        rewrite seq_S, map_app. reflexivity.
      * intros _. replace (S n - 1) with n by lia. lia.
    + exists st. repeat split; try assumption.
      destruct Hinv as (n & _ & _ & _ & Hend & _). auto.
Qed.

(** What a completed iteration did. *)
Lemma loop_body_inv st st' :
  body st = Done st' ->
  exists part,
    let bd := batch_data st ++ [part] in
    let bl := batch_locations st
              ++ [(i st, cols (map (fun r => take chunk_size (drop (i st) r)) mix))] in
    let k := i st + step in
    pad_part md chunk_size (map (fun r => take chunk_size (drop (i st) r)) mix) = Done part
    /\ ((exists rc,
           accumulate_batch md (batch_window step fade_size windowing_array mix k)
                            bl (model bd) (result st, counter st) = Done rc
           /\ st' = {| i := k; batch_data := []; batch_locations := [];
                       result := rc.1; counter := rc.2;
                       placed := placed st
                                 ++ map (placement_of md
                                           (batch_window step fade_size windowing_array mix k))
                                        bl |})
        \/ ((batch_size <=? length bd) || (P <=? k) = false
            /\ st' = {| i := k; batch_data := bd; batch_locations := bl;
                        result := result st; counter := counter st;
                        placed := placed st |})).
Proof.
  unfold loop_body.
  destruct (pad_part _ _ _) as [part| |]; cbn [mbind outcome_bind]; [|discriminate ..].
  intros H. exists part. cbn zeta. split; [reflexivity|].
  destruct (_ || _).
  - destruct (accumulate_batch _ _ _ _ _) as [rc| |]; cbn [mbind outcome_bind] in H;
      [|discriminate ..].
    injection H as <-. left. exists rc. split; reflexivity.
  - injection H as <-. right. split; reflexivity.
Qed.

Lemma demix_loop_invariant (I : loop_state -> Prop) fuel st st' :
  (forall st1 st2, I st1 -> i st1 < P -> body st1 = Done st2 -> I st2) ->
  I st -> loop fuel st = Done st' -> I st' /\ P <= i st'.
Proof.
  intros Hstep. revert st. induction fuel as [|fuel IH]; intros st HI; cbn [demix_loop].
  - destruct (Nat.ltb_spec (i st) P); [discriminate|]. intros [= <-]. auto.
  - destruct (Nat.ltb_spec (i st) P) as [Hi|Hi]; [|intros [= <-]; auto].
    destruct (body st) as [st1| |] eqn:Hb; cbn [mbind outcome_bind]; [|discriminate ..].
    apply IH. eapply Hstep; eassumption.
Qed.

Lemma accumulate_batch_invariant (J : array3 * array3 -> Prop) w locs x rc rc' :
  (forall loc xj rc0, J rc0 -> J (accumulate md w loc xj rc0)) ->
  J rc -> accumulate_batch md w locs x rc = Done rc' -> J rc'.
Proof.
  intros Hacc. revert x rc. induction locs as [|loc locs IH]; intros x rc HJ;
    cbn [accumulate_batch].
  - intros [= <-]. exact HJ.
  - destruct x as [|xj x]; [discriminate|]. apply IH. apply Hacc. exact HJ.
Qed.

(** An invariant of the two accumulators that every accumulation
    statement keeps is kept by the loop. *)
Lemma demix_loop_accumulators (J : array3 * array3 -> Prop) fuel st st' :
  (forall k loc xj rc0,
      J rc0 ->
      J (accumulate md (batch_window step fade_size windowing_array mix k) loc xj rc0)) ->
  J (result st, counter st) -> loop fuel st = Done st' ->
  J (result st', counter st').
Proof.
  intros Hacc HJ Hrun.
  apply (demix_loop_invariant (fun s => J (result s, counter s)) fuel st st'); [|exact HJ|exact Hrun].
  clear HJ Hrun. intros st1 st2 HJ1 _ Hb.
  apply loop_body_inv in Hb as (part & _ & [(rc & Hrc & ->)|[_ ->]]); cbn.
  - destruct rc as [r c]. eapply accumulate_batch_invariant; [|exact HJ1|exact Hrc].
    intros loc xj rc0. apply Hacc.
  - exact HJ1.
Qed.

End LoopFacts.

(** ** What the plan fixes *)

Lemma forM_inv {A B : Type} (f : A -> outcome B) (xs : list A) (ys : list B) :
  forM f xs = Done ys -> Forall2 (fun x y => f x = Done y) xs ys.
Proof.
  revert ys. induction xs as [|x xs IH]; intros ys; cbn [forM].
  - intros [= <-]. constructor.
  - destruct (f x) as [y| |] eqn:Hx; cbn [mbind outcome_bind]; [|discriminate ..].
    destruct (forM f xs) as [ys'| |]; cbn [mbind outcome_bind]; [|discriminate ..].
    intros [= <-]. constructor; auto.
Qed.

Lemma reflect_pad_inv left right r r' :
  reflect_pad left right r = Done r' ->
  left < length r /\ right < length r /\ r' = reflected left right r.
Proof.
  unfold reflect_pad.
  destruct (Nat.ltb_spec left (length r)); cbn [andb]; [|discriminate].
  destruct (Nat.ltb_spec right (length r)); [|discriminate].
  intros [= <-]. auto.
Qed.

Lemma length_reflected left right r :
  left < length r -> right < length r ->
  length (reflected left right r) = left + length r + right.
Proof.
  intros Hl Hr. unfold reflected.
  rewrite !length_app, length_reverse, !length_take, !length_drop, length_reverse. lia.
Qed.

Lemma forM_reflect_pad_inv b mix mix' :
  forM (reflect_pad b b) mix = Done mix' ->
  mix' = map (reflected b b) mix /\ Forall (fun r => b < length r) mix.
Proof.
  intros H. apply forM_inv in H.
  induction H as [|r r' mix mix' Hr _ [IH1 IH2]]; [split; [reflexivity|constructor]|].
  apply reflect_pad_inv in Hr as (Hb & _ & ->). subst mix'.
  split; [reflexivity|constructor; assumption].
Qed.

Lemma rectangular_reflected b mix :
  rectangular mix -> b < cols mix ->
  rectangular (map (reflected b b) mix)
  /\ cols (map (reflected b b) mix) = (if mix is [] then 0 else b + cols mix + b).
Proof.
  intros Hrect Hb. destruct mix as [|r0 rest]; [split; [constructor|reflexivity]|].
  cbn [cols map] in *. split.
  - unfold rectangular in *. cbn [cols map]. rewrite List.Forall_forall in *.
    intros r Hr. change (In r (map (reflected b b) (r0 :: rest))) in Hr.
    apply in_map_iff in Hr as (r1 & <- & Hr1).
    pose proof (Hrect r1 Hr1) as H1. cbn [cols] in H1.
    rewrite !length_reflected; lia.
  - rewrite length_reflected; lia.
Qed.

(** Everything [demix_plan] decides, in either mode. *)
Lemma demix_plan_inv cfg md mix pl :
  demix_plan cfg md mix = Done pl ->
  inference_num_overlap cfg <> 0
  /\ p_step pl = p_chunk_size pl / inference_num_overlap cfg
  /\ p_length_init pl = cols mix
  /\ match md with
     | demucs =>
         p_chunk_size pl = training_samplerate cfg * training_segment cfg
         /\ p_num_instruments pl = length (training_instruments cfg)
         /\ p_mix pl = mix
     | generic =>
         p_chunk_size pl = audio_chunk_size cfg
         /\ p_num_instruments pl = length (prefer_target_instrument cfg)
         /\ p_fade_size pl = p_chunk_size pl / 10
         /\ p_border pl = p_chunk_size pl - p_step pl
         /\ _getWindowingArray (p_chunk_size pl) (p_fade_size pl) = Done (p_window pl)
         /\ (if padded (p_border pl) (cols mix)
             then p_mix pl = map (reflected (p_border pl) (p_border pl)) mix
                  /\ Forall (fun r => p_border pl < length r) mix
             else p_mix pl = mix)
     end.
Proof.
  unfold demix_plan, floordiv. destruct md.
  - destruct (Nat.eqb_spec (inference_num_overlap cfg) 0) as [|HO];
      cbn [mbind outcome_bind]; [discriminate|].
    destruct (_getWindowingArray _ _) as [w| |] eqn:Hw; cbn [mbind outcome_bind];
      [|discriminate ..].
    destruct (padded _ _) eqn:Hpad.
    + destruct (forM _ mix) as [mix'| |] eqn:Hmix; cbn [mbind outcome_bind];
        [|discriminate ..].
      intros [= <-]. cbn. rewrite Hpad.
      apply forM_reflect_pad_inv in Hmix as [-> Hall]. repeat split; auto.
    + cbn [mbind outcome_bind]. intros [= <-]. cbn. rewrite Hpad. repeat split; auto.
  - destruct (Nat.eqb_spec (inference_num_overlap cfg) 0) as [|HO];
      cbn [mbind outcome_bind]; [discriminate|].
    intros [= <-]. cbn. repeat split; auto.
Qed.

Lemma demix_plan_rectangular cfg md mix pl :
  demix_plan cfg md mix = Done pl -> rectangular mix -> rectangular (p_mix pl).
Proof.
  intros Hpl Hrect. apply demix_plan_inv in Hpl as (_ & _ & _ & Hmd).
  destruct md.
  - destruct Hmd as (_ & _ & _ & _ & _ & Hmix).
    destruct (padded _ _) eqn:Hpad.
    + destruct Hmix as [-> _]. apply rectangular_reflected; [assumption|].
      unfold padded in Hpad. apply andb_true_iff in Hpad as [H1 _].
      apply Nat.ltb_lt in H1. lia.
    + rewrite Hmix. assumption.
  - destruct Hmd as (_ & _ & ->). assumption.
Qed.

(** ** C3 and C10: schedule of the chunk loop *)

Section Schedule.

Variable md : mode.
Variable chunk_size step fade_size batch_size : nat.
Variable windowing_array : row.
Variable model : list array2 -> list array3.
Variable mix : array2.

Local Abbreviation loop :=
  (demix_loop md chunk_size step fade_size batch_size windowing_array model mix).
Local Abbreviation P := (cols mix).

(** From a fresh state the loop makes exactly [ceil (P / step)]
    iterations and accumulates the chunks of the schedule, in order. *)
Lemma demix_loop_runs r c :
  1 <= step -> rectangular mix -> batch_preserving model ->
  exists st,
    (forall fuel, ceil_div P step <= fuel -> loop fuel (fresh r c) = Done st)
    /\ i st = ceil_div P step * step
    /\ map location (placed st) = schedule chunk_size step P (ceil_div P step)
    /\ batch_locations st = [].
Proof.
  intros Hstep Hrect Hmodel.
  destruct (ceil_div_bound P step Hstep) as [Hup Hlow].
  destruct (demix_loop_schedule md chunk_size step fade_size batch_size windowing_array
              model mix (ceil_div P step) (fresh r c) Hstep Hrect Hmodel)
    as (st & Hrun & (n & Hn & Hsched & Hprev & _ & _) & Hdone & Hempty).
  { exists 0. cbn. repeat split; auto; lia. }
  { cbn. lia. }
  assert (n = ceil_div P step) as ->.
  { apply ceil_div_unique; [assumption|lia|assumption]. }
  exists st. repeat split; try assumption.
  - intros fuel Hfuel. eapply demix_loop_more_fuel; eassumption.
  - rewrite Hempty, app_nil_r in Hsched. exact Hsched.
Qed.

End Schedule.

Lemma schedule_lookup chunk_size step len n k :
  k < n ->
  schedule chunk_size step len n !! k = Some (k * step, chunk_size `min` (len - k * step)).
Proof.
  intros Hk. unfold schedule. change (map ?f ?l) with (f <$> l).
  rewrite list_lookup_fmap, lookup_seq_lt by assumption. reflexivity.
Qed.

Lemma length_schedule chunk_size step len n :
  length (schedule chunk_size step len n) = n.
Proof. unfold schedule. rewrite length_map, length_seq. reflexivity. Qed.

(** Reading a placement list through its locations. *)
Lemma placed_lookup ps chunk_size step len n :
  map location ps = schedule chunk_size step len n ->
  length ps = n
  /\ forall k, k < n ->
       exists p, ps !! k = Some p /\ start p = k * step
                 /\ seg_len p = chunk_size `min` (len - k * step).
Proof.
  intros Hps.
  assert (Hlen : length ps = n).
  { rewrite <- (length_map location), Hps. apply length_schedule. }
  split; [exact Hlen|]. intros k Hk.
  destruct (lookup_lt_is_Some_2 ps k ltac:(lia)) as [p Hp].
  exists p. split; [exact Hp|].
  assert (Hloc : map location ps !! k = Some (location p)).
  { change (map ?f ?l) with (f <$> l). rewrite list_lookup_fmap, Hp. reflexivity. }
  rewrite Hps, schedule_lookup in Hloc by assumption.
  injection Hloc as H1 H2. auto.
Qed.

(** C3: the placements of the chunk loop cover the buffer [0, L) exactly,
    each valid length is at most the chunk size, the last one is clipped to
    the samples that remain, and the starts are the multiples of [step] in
    increasing order. *)
Theorem chunk_coverage (md : mode) (C O fade batch_size : nat) (w : row)
    (model : list array2 -> list array3) (mix : array2) (r c : array3) :
  0 < cols mix -> 0 < C -> 1 <= C / O ->
  rectangular mix -> batch_preserving model ->
  exists st,
    demix_loop md C (C / O) fade batch_size w model mix
               (ceil_div (cols mix) (C / O)) (fresh r c) = Done st
    /\ (forall s, s < cols mix <->
                  exists p, p ∈ placed st /\ start p <= s < start p + seg_len p)
    /\ Forall (fun p => seg_len p <= C) (placed st)
    /\ (exists p, last (placed st) = Some p
                  /\ start p < cols mix /\ seg_len p = cols mix - start p)
    /\ map start (placed st)
       = map (fun k => k * (C / O)) (seq 0 (ceil_div (cols mix) (C / O))).
Proof.
  intros HL HC Hstep Hrect Hmodel.
  set (step := C / O) in *. set (L := cols mix) in *. set (n := ceil_div L step).
  destruct (demix_loop_runs md C step fade batch_size w model mix r c Hstep Hrect Hmodel)
    as (st & Hrun & _ & Hsched & _).
  fold L n in Hrun, Hsched.
  destruct (placed_lookup _ _ _ _ _ Hsched) as [Hlen Hnth].
  destruct (ceil_div_bound L step Hstep) as [Hup Hlow]. fold n in Hup, Hlow.
  specialize (Hlow HL).
  assert (Hstep_le : step <= C).
  { subst step. div_facts C O. destruct O; [cbn in Hstep; lia|]. nia. }
  exists st. split; [apply Hrun; lia|]. repeat split.
  - intros Hs. div_facts s step.
    destruct (Hnth (s / step)) as (p & Hp & Hstart & Hseg); [nia|].
    exists p. split; [eapply list_elem_of_lookup_2; eassumption|]. nia.
  - intros (p & Hp & Hlo & Hhi).
    apply list_elem_of_lookup_1 in Hp as [k Hk].
    assert (Hkn : k < n) by (apply lookup_lt_Some in Hk; lia).
    destruct (Hnth k Hkn) as (p' & Hp' & Hstart & Hseg).
    rewrite Hk in Hp'. injection Hp' as <-. nia.
  - apply Forall_forall. intros p Hp.
    apply list_elem_of_lookup_1 in Hp as [k Hk].
    assert (Hkn : k < n) by (apply lookup_lt_Some in Hk; lia).
    destruct (Hnth k Hkn) as (p' & Hp' & Hstart & Hseg).
    rewrite Hk in Hp'. injection Hp' as <-. lia.
  - assert (Hn : 0 < n) by nia.
    destruct (Hnth (n - 1)) as (p & Hp & Hstart & Hseg); [lia|].
    exists p. rewrite last_lookup, Hlen.
    replace (Nat.pred n) with (n - 1) by lia. split; [exact Hp|]. nia.
  - apply (f_equal (map fst)) in Hsched. rewrite map_map in Hsched.
    unfold schedule in Hsched. rewrite map_map in Hsched. exact Hsched.
Qed.

Lemma chunk_coverage_witness :
  exists st,
    demix_loop generic 10 (10 / 2) 1 1 (replicate 10 1%Q) identity_model
               [replicate 12 1%Q] (ceil_div 12 (10 / 2)) (fresh [] []) = Done st
    /\ map start (placed st) = [0; 5; 10].
Proof.
  destruct (chunk_coverage generic 10 2 1 1 (replicate 10 1%Q) identity_model
              [replicate 12 1%Q] [] []) as (st & Hrun & _ & _ & _ & Hstarts).
  - cbn. lia.
  - lia.
  - cbn. lia.
  - repeat constructor.
  - intros batch. unfold identity_model. apply length_map.
  - exists st. split; [exact Hrun|exact Hstarts].
Defined.

(** C10: when [step = chunk_size // num_overlap] is at least 1 the loop of
    [demix] ends within [ceil (padded length / step)] iterations, and an
    iteration moves the index by exactly [step]; with [step = 0] it never
    ends on a non-empty buffer.  [1 <= step] says [num_overlap <= chunk_size]. *)
Theorem chunk_loop_terminates (cfg : config) (md : mode) (mix : array2)
    (model : list array2 -> list array3) (pl : plan) :
  demix_plan cfg md mix = Done pl ->
  rectangular mix -> batch_preserving model ->
  let n := ceil_div (cols (p_mix pl)) (p_step pl) in
  (1 <= p_step pl ->
     exists st,
       (forall fuel, n <= fuel ->
          demix_run fuel md (inference_batch_size cfg) model pl = Done st)
       /\ i st = n * p_step pl)
  /\ (forall st st',
        loop_body md (p_chunk_size pl) (p_step pl) (p_fade_size pl)
                  (inference_batch_size cfg) (p_window pl) model (p_mix pl) st = Done st' ->
        i st' = i st + p_step pl)
  /\ (p_step pl = 0 -> 0 < cols (p_mix pl) ->
      forall fuel st, demix_run fuel md (inference_batch_size cfg) model pl <> Done st)
  /\ (1 <= p_step pl <-> inference_num_overlap cfg <= p_chunk_size pl).
Proof.
  intros Hpl Hrect Hmodel n.
  pose proof (demix_plan_rectangular _ _ _ _ Hpl Hrect) as Hrect'.
  apply demix_plan_inv in Hpl as (HO & Hstep & _).
  repeat split.
  - intros H1.
    destruct (demix_loop_runs md (p_chunk_size pl) (p_step pl) (p_fade_size pl)
                (inference_batch_size cfg) (p_window pl) model (p_mix pl)
                (result (initial_state pl)) (counter (initial_state pl)) H1 Hrect' Hmodel)
      as (st & Hrun & Hi & _).
    exists st. split; [|exact Hi]. intros fuel Hfuel. apply Hrun. exact Hfuel.
  - intros st st'. apply loop_body_index.
  - intros H0 Hlen fuel st. unfold demix_run.
    apply demix_loop_stuck; [exact H0|exact Hlen].
  - intros H1. rewrite Hstep in H1. div_facts (p_chunk_size pl) (inference_num_overlap cfg).
    specialize (H0 HO). nia.
  - intros HO'. rewrite Hstep. apply Nat.div_le_lower_bound; lia.
Qed.

Lemma chunk_loop_terminates_witness :
  exists pl, demix_plan cfg_10_2 generic [replicate 12 1%Q] = Done pl
             /\ (1 <= p_step pl <-> 2 <= p_chunk_size pl).
Proof.
  eexists. split; [vm_compute; reflexivity|].
  eapply (chunk_loop_terminates cfg_10_2 generic [replicate 12 1%Q] identity_model).
  - vm_compute. reflexivity.
  - repeat constructor.
  - intros batch. unfold identity_model. apply length_map.
Defined.

(** ** C9: shape of the return value *)

Lemma length_inplace {A B : Type} (f : A -> B -> A) dst src :
  length (inplace f dst src) = length dst.
Proof.
  revert src. induction dst as [|d dst IH]; intros [|s src]; cbn; auto.
Qed.




Lemma dict_set_fresh {V : Type} (k : string) (v : V) d :
  ~ In k (map fst d) -> dict_set k v d = d ++ [(k, v)].
Proof.
  induction d as [|[k' v'] d IH]; cbn [dict_set map fst In app]; [reflexivity|].
  intros Hk. destruct (String.eqb_spec k' k) as [->|_]; [tauto|].
  rewrite IH by tauto. reflexivity.
Qed.





(** ** C2: which window a chunk is weighted with *)

(** C2, evaluated where it fails: chunks of 10 samples, step 5, two chunks
    per batch, 12 input samples (22 after border padding).  The window is
    chosen once per batch, after the batch has been cut, so [i - step] is 5
    when the batch holding the chunk at offset 0 is accumulated: that
    chunk is weighted with the unmodified window, whose first weight is 0. *)
Theorem edge_correction_per_batch :
  exists pl st p,
    demix_plan cfg_10_2 generic [replicate 12 1%Q] = Done pl
    /\ demix_run 5 generic (inference_batch_size cfg_10_2) identity_model pl = Done st
    /\ placed st !! 0 = Some p
    /\ start p = 0
    /\ window_used p = Some (p_window pl)
    /\ take (p_fade_size pl) (p_window pl) = [0%Q]
    /\ take (p_fade_size pl) (p_window pl) <> replicate (p_fade_size pl) 1%Q.
Proof.
  do 3 eexists. split; [vm_compute; reflexivity|].
  split; [vm_compute; reflexivity|].
  split; [vm_compute; reflexivity|].
  repeat split. vm_compute. discriminate.
Qed.

(** With one chunk per batch the same input gives the chunk at offset 0 a
    window whose leading fade is 1, as the comment on line 516 announces. *)
Lemma edge_correction_batch_of_one :
  exists pl st p,
    demix_plan cfg_10_2_single generic [replicate 12 1%Q] = Done pl
    /\ demix_run 5 generic (inference_batch_size cfg_10_2_single) identity_model pl = Done st
    /\ placed st !! 0 = Some p
    /\ start p = 0
    /\ (take (p_fade_size pl) <$> window_used p) = Some (replicate (p_fade_size pl) 1%Q).
Proof.
  do 3 eexists. split; [vm_compute; reflexivity|].
  split; [vm_compute; reflexivity|].
  split; [vm_compute; reflexivity|].
  split; reflexivity.
Qed.

(** ** Weight reconciliation *)

Lemma axes_of_shape (s : list nat) :
  map (fun k => nth k s 0) (seq 0 (length s)) = s.
Proof.
  apply list_eq. intros k. change (map ?f ?l) with (f <$> l).
  rewrite list_lookup_fmap.
  destruct (Nat.lt_ge_cases k (length s)) as [Hk|Hk].
  - rewrite lookup_seq_lt by assumption. cbn.
    destruct (lookup_lt_is_Some_2 s k Hk) as [x Hx].
    rewrite Hx. f_equal. apply nth_lookup_Some. exact Hx.
  - rewrite lookup_seq_ge by assumption. symmetry. apply lookup_ge_None. exact Hk.
Qed.

Lemma axes_max_shape (sn so : list nat) :
  length sn = length so ->
  map (fun k => nth k sn 0 `max` nth k so 0) (seq 0 (length sn)) = zip_with Nat.max sn so.
Proof.
  intros Hlen. apply list_eq. intros k. change (map ?f ?l) with (f <$> l).
  rewrite list_lookup_fmap, lookup_zip_with.
  destruct (Nat.lt_ge_cases k (length sn)) as [Hk|Hk].
  - rewrite lookup_seq_lt by assumption. cbn.
    destruct (lookup_lt_is_Some_2 sn k Hk) as [x Hx].
    destruct (lookup_lt_is_Some_2 so k ltac:(lia)) as [y Hy].
    rewrite Hx, Hy. cbn. rewrite (nth_lookup_Some _ _ _ _ Hx), (nth_lookup_Some _ _ _ _ Hy).
    reflexivity.
  - rewrite lookup_seq_ge by assumption.
    rewrite (proj2 (lookup_ge_None sn k) Hk). reflexivity.
Qed.

(** [reconcile] without the index bookkeeping. *)
Lemma reconcile_unfold new_t old_t :
  length (shape new_t) = length (shape old_t) ->
  reconcile new_t old_t
  = {| shape := zip_with Nat.min (shape new_t) (zip_with Nat.max (shape new_t) (shape old_t));
       data := getitem_region (shape new_t)
                 (Nat.iter (length (shape new_t))
                    (fun m => setitem_region (shape old_t) m (data old_t))
                    (zeros (zip_with Nat.max (shape new_t) (shape old_t)))) |}.
Proof.
  intros Hlen. unfold reconcile.
  assert (E : map (fun k => nth k (shape old_t) 0) (seq 0 (length (shape new_t)))
              = shape old_t) by (rewrite Hlen; apply axes_of_shape).
  rewrite E, axes_max_shape, axes_of_shape by assumption. reflexivity.
Qed.

Lemma shape_reconcile new_t old_t :
  length (shape new_t) = length (shape old_t) ->
  shape (reconcile new_t old_t) = shape new_t.
Proof.
  intros Hlen. rewrite reconcile_unfold by assumption. cbn [shape].
  generalize dependent (shape old_t). induction (shape new_t) as [|n sn IH];
    intros [|o so] Hlen; cbn in *; try lia; [reflexivity|].
  f_equal; [lia|]. apply IH. lia.
Qed.

Lemma has_shape_zeros s : has_shape s (zeros s).
Proof.
  induction s as [|n s IH]; cbn; [exact I|].
  split; [apply length_replicate|]. apply Forall_replicate. exact IH.
Qed.

Lemma item_zeros s idx : in_bounds idx s -> item idx (zeros s) = Some 0%Q.
Proof.
  unfold in_bounds. intros H. induction H as [|k n idx s Hk _ IH]; cbn; [reflexivity|].
  rewrite lookup_replicate_2 by assumption. cbn. exact IH.
Qed.

(** Row-wise update of a prefix, as [setitem_region] does on each axis. *)
Lemma lookup_inplace {A B : Type} (f : A -> B -> A) dst src k :
  inplace f dst src !! k
  = match dst !! k, src !! k with
    | Some d, Some s => Some (f d s)
    | Some d, None => Some d
    | None, _ => None
    end.
Proof.
  revert src k. induction dst as [|d dst IH]; intros [|s src] [|k]; cbn; try reflexivity.
  - destruct (dst !! k); reflexivity.
  - apply IH.
Qed.

Lemma has_shape_setitem_region so : forall mx dst src,
  Forall2 le so mx -> has_shape mx dst -> has_shape so src ->
  has_shape mx (setitem_region so dst src).
Proof.
  induction so as [|b so IH]; intros mx dst src Hle Hdst Hsrc.
  - inversion Hle; subst. cbn. destruct src; [exact I|contradiction].
  - inversion Hle as [|? n ? mx' Hb Hle']; subst.
    destruct dst as [|ds]; [contradiction|]. destruct src as [|ss]; [contradiction|].
    cbn in Hdst, Hsrc |- *. destruct Hdst as [Hlen Hds], Hsrc as [Hlen' Hss].
    split.
    + rewrite length_app, length_inplace, length_take, length_drop. lia.
    + apply Forall_app. split; [|apply Forall_drop; exact Hds].
      apply Forall_lookup. intros k x Hx. rewrite lookup_inplace in Hx.
      destruct (take b ds !! k) as [d|] eqn:Hd; [|discriminate].
      assert (Hd' : has_shape mx' d).
      { rewrite Forall_lookup in Hds. apply (Hds k). apply lookup_take_Some in Hd. tauto. }
      destruct (ss !! k) as [s|] eqn:Hs.
      * injection Hx as <-. apply IH; [exact Hle'|exact Hd'|].
        rewrite Forall_lookup in Hss. exact (Hss k s Hs).
      * injection Hx as <-. exact Hd'.
Qed.

Lemma item_setitem_region so : forall mx dst src idx,
  Forall2 le so mx -> has_shape mx dst -> has_shape so src -> in_bounds idx mx ->
  item idx (setitem_region so dst src)
  = if bool_decide (in_bounds idx so) then item idx src else item idx dst.
Proof.
  unfold in_bounds.
  induction so as [|b so IH]; intros mx dst src idx Hle Hdst Hsrc Hidx.
  - inversion Hle; subst. inversion Hidx; subst. cbn [setitem_region].
    rewrite bool_decide_eq_true_2 by constructor. reflexivity.
  - inversion Hle as [|? n ? mx' Hb Hle']; subst.
    inversion Hidx as [|k ? idx' ? Hk Hidx']; subst.
    destruct dst as [|ds]; [contradiction|]. destruct src as [|ss]; [contradiction|].
    cbn in Hdst, Hsrc. cbn [setitem_region item].
    destruct Hdst as [Hlen Hds], Hsrc as [Hlen' Hss].
    destruct (Nat.lt_ge_cases k b) as [Hkb|Hkb].
    + rewrite lookup_app_l by (rewrite length_inplace, length_take; lia).
      rewrite lookup_inplace, lookup_take_lt by assumption.
      destruct (lookup_lt_is_Some_2 ds k ltac:(lia)) as [d Hd].
      destruct (lookup_lt_is_Some_2 ss k ltac:(lia)) as [s Hs].
      rewrite Hd, Hs. cbn.
      rewrite Forall_lookup in Hds, Hss.
      rewrite (IH mx' d s idx' Hle' (Hds k d Hd) (Hss k s Hs) Hidx').
      destruct (decide (Forall2 lt idx' so)) as [Hin|Hout].
      * rewrite !bool_decide_eq_true_2; [reflexivity|constructor; assumption|assumption].
      * rewrite !bool_decide_eq_false_2; [reflexivity| |assumption].
        intros H; inversion H; subst; contradiction.
    + rewrite lookup_app_r by (rewrite length_inplace, length_take; lia).
      rewrite length_inplace, length_take, lookup_drop.
      replace (b + (k - b `min` length ds)) with k by lia.
      rewrite bool_decide_eq_false_2; [reflexivity|].
      intros H; inversion H; subst; lia.
Qed.

Lemma item_getitem_region sn : forall mx a idx,
  Forall2 le sn mx -> has_shape mx a -> in_bounds idx sn ->
  item idx (getitem_region sn a) = item idx a.
Proof.
  unfold in_bounds.
  induction sn as [|b sn IH]; intros mx a idx Hle Ha Hidx.
  - reflexivity.
  - inversion Hle as [|? n ? mx' Hb Hle']; subst.
    inversion Hidx as [|k ? idx' ? Hk Hidx']; subst.
    destruct a as [|xs]; [contradiction|]. cbn in Ha |- *. destruct Ha as [Hlen Hxs].
    change (map ?f ?l) with (f <$> l).
    rewrite list_lookup_fmap, lookup_take_lt by assumption.
    destruct (lookup_lt_is_Some_2 xs k ltac:(lia)) as [x Hx]. rewrite Hx. cbn.
    rewrite Forall_lookup in Hxs. apply (IH mx'); [exact Hle'|exact (Hxs k x Hx)|exact Hidx'].
Qed.

Lemma le_zip_max_l (sn so : list nat) :
  length sn = length so -> Forall2 le sn (zip_with Nat.max sn so).
Proof.
  revert so. induction sn as [|n sn IH]; intros [|o so] Hlen; cbn in *; try lia;
    constructor; [lia|apply IH; lia].
Qed.

Lemma le_zip_max_r (sn so : list nat) :
  length sn = length so -> Forall2 le so (zip_with Nat.max sn so).
Proof.
  revert so. induction sn as [|n sn IH]; intros [|o so] Hlen; cbn in *; try lia;
    constructor; [lia|apply IH; lia].
Qed.

(** Elements of a reconciled tensor. *)
Lemma item_reconcile new_t old_t idx :
  length (shape new_t) = length (shape old_t) -> shape new_t <> shape old_t ->
  has_shape (shape old_t) (data old_t) -> in_bounds idx (shape new_t) ->
  item idx (data (reconcile new_t old_t))
  = if bool_decide (in_bounds idx (shape old_t)) then item idx (data old_t) else Some 0%Q.
Proof.
  intros Hlen Hne Hold Hidx. rewrite reconcile_unfold by assumption. cbn [data].
  set (mx := zip_with Nat.max (shape new_t) (shape old_t)).
  pose proof (le_zip_max_l _ _ Hlen) as Hn. pose proof (le_zip_max_r _ _ Hlen) as Ho.
  fold mx in Hn, Ho.
  assert (Hmx : in_bounds idx mx).
  { unfold in_bounds in *. clear -Hidx Hn. revert Hn. generalize mx.
    induction Hidx; intros mx' Hn; inversion Hn; subst; constructor; [lia|auto]. }
  destruct (length (shape new_t)) as [|ln] eqn:Hln.
  { exfalso. apply Hne. destruct (shape new_t); [|discriminate].
    destruct (shape old_t); [reflexivity|discriminate]. }
  assert (Hiter : forall m, has_shape mx
            (Nat.iter m (fun a => setitem_region (shape old_t) a (data old_t)) (zeros mx))).
  { induction m as [|m IHm]; cbn [Nat.iter nat_rect]; [apply has_shape_zeros|].
    apply has_shape_setitem_region; assumption. }
  rewrite (item_getitem_region _ mx); [|exact Hn|apply Hiter|exact Hidx].
  destruct (decide (in_bounds idx (shape old_t))) as [Hin|Hout].
  - rewrite bool_decide_eq_true_2 by assumption. cbn [Nat.iter nat_rect].
    rewrite (item_setitem_region _ mx); [|exact Ho|apply Hiter|exact Hold|exact Hmx].
    rewrite bool_decide_eq_true_2 by assumption. reflexivity.
  - rewrite bool_decide_eq_false_2 by assumption.
    generalize (S ln). intros m. induction m as [|m IHm]; cbn [Nat.iter nat_rect].
    + apply item_zeros. exact Hmx.
    + rewrite (item_setitem_region _ mx); [|exact Ho|apply Hiter|exact Hold|exact Hmx].
      rewrite bool_decide_eq_false_2 by assumption. exact IHm.
Qed.

Lemma reconcile_entry_present (old_model : gmap string pyobj) el cur old_t :
  old_model !! el = Some (PTensor old_t) ->
  reconcile_entry (PDict old_model) el cur
  = Done (if bool_decide (shape cur = shape old_t) then old_t
          else if bool_decide (length (shape cur) ≠ length (shape old_t)) then cur
               else reconcile cur old_t).
Proof.
  intros Hel. unfold reconcile_entry, py_contains, py_getitem. rewrite Hel.
  cbn [mbind outcome_bind py_tensor].
  repeat destruct (bool_decide _); reflexivity.
Qed.

Lemma reconcile_entry_absent (old_model : gmap string pyobj) el cur :
  old_model !! el = None -> reconcile_entry (PDict old_model) el cur = Done cur.
Proof.
  intros Hel. unfold reconcile_entry, py_contains. rewrite Hel. reflexivity.
Qed.

(** C6: a parameter found in the checkpoint with the same rank and another
    shape becomes the source on the common low-index region and 0 around
    it; with the same shape the source tensor is taken as it is.  The two
    documented cases: (2,3) into (4,3) and (4,3) into (2,3). *)
Theorem reconcile_copy_semantics (old_model : gmap string pyobj) (el : string)
    (cur old_t : tensor) :
  old_model !! el = Some (PTensor old_t) ->
  has_shape (shape old_t) (data old_t) ->
  (shape cur = shape old_t -> reconcile_entry (PDict old_model) el cur = Done old_t)
  /\ (length (shape cur) = length (shape old_t) -> shape cur <> shape old_t ->
      exists t,
        reconcile_entry (PDict old_model) el cur = Done t
        /\ shape t = shape cur
        /\ forall idx, in_bounds idx (shape cur) ->
             item idx (data t)
             = if bool_decide (in_bounds idx (shape old_t))
               then item idx (data old_t) else Some 0%Q)
  /\ (forall a b c d e f, shape cur = [4; 3] -> old_t = tensor_2x3 a b c d e f ->
        reconcile_entry (PDict old_model) el cur
        = Done (tensor_4x3 (a, b, c) (d, e, f) (0, 0, 0)%Q (0, 0, 0)%Q))
  /\ (forall a b c d e f r2 r3, shape cur = [2; 3] ->
        old_t = tensor_4x3 (a, b, c) (d, e, f) r2 r3 ->
        reconcile_entry (PDict old_model) el cur = Done (tensor_2x3 a b c d e f)).
Proof.
  intros Hel Hold. rewrite (reconcile_entry_present _ _ _ _ Hel). repeat split.
  - intros Heq. rewrite bool_decide_eq_true_2 by assumption. reflexivity.
  - intros Hrank Hne. exists (reconcile cur old_t).
    rewrite bool_decide_eq_false_2 by assumption.
    rewrite bool_decide_eq_false_2 by (intros H; apply H; assumption).
    split; [reflexivity|]. split; [apply shape_reconcile; assumption|].
    intros idx Hidx. apply item_reconcile; assumption.
  - intros a b c d e f Hcur ->. unfold reconcile. rewrite Hcur. reflexivity.
  - intros a b c d e f [[g h] k] [[l m] n] Hcur ->. unfold reconcile. rewrite Hcur. reflexivity.
Qed.

Lemma reconcile_copy_semantics_witness :
  reconcile_entry (PDict {[ "w" := PTensor (tensor_2x3 1 2 3 4 5 6) ]}) "w"
                  {| shape := [4; 3]; data := zeros [4; 3] |}
  = Done (tensor_4x3 (1, 2, 3)%Q (4, 5, 6)%Q (0, 0, 0)%Q (0, 0, 0)%Q).
Proof.
  eapply (reconcile_copy_semantics {[ "w" := PTensor (tensor_2x3 1 2 3 4 5 6) ]} "w"
            {| shape := [4; 3]; data := zeros [4; 3] |} (tensor_2x3 1 2 3 4 5 6)).
  - vm_compute. reflexivity.
  - cbn. repeat constructor.
  - reflexivity.
  - reflexivity.
Defined.

Lemma dict_get_map_values {V W : Type} (h : string * V -> W) (l : list (string * V)) k v :
  List.NoDup (map fst l) -> In (k, v) l ->
  dict_get k (map (fun kv => (kv.1, h kv)) l) = Some (h (k, v)).
Proof.
  induction l as [|[k' v'] l IH]; cbn [map fst In dict_get]; [tauto|].
  intros Hnd [Heq|Hin].
  - injection Heq as -> ->. rewrite String.eqb_refl. reflexivity.
  - apply List.NoDup_cons_iff in Hnd as [Hk' Hnd].
    destruct (String.eqb_spec k' k) as [->|_]; [|apply IH; assumption].
    exfalso. apply Hk'. apply in_map_iff. exists (k, v). auto.
Qed.

Lemma dict_get_In {V : Type} (l : list (string * V)) k v :
  In (k, v) l -> dict_get k l <> None.
Proof.
  induction l as [|[k' v'] l IH]; cbn [In dict_get]; [tauto|].
  intros [Heq|Hin].
  - injection Heq as -> ->. rewrite String.eqb_refl. discriminate.
  - destruct (String.eqb k' k); [discriminate|auto].
Qed.

Lemma unwrap_nested key (d inner : gmap string pyobj) :
  d !! key = Some (PDict inner) -> unwrap key (PDict d) = Done (PDict inner).
Proof. intros H. unfold unwrap, py_contains, py_getitem. rewrite H. reflexivity. Qed.

Lemma unwrap_flat key (d : gmap string pyobj) :
  d !! key = None -> unwrap key (PDict d) = Done (PDict d).
Proof. intros H. unfold unwrap, py_contains. rewrite H. reflexivity. Qed.

(** C7: on a checkpoint that unwraps to a dict whose entries named like
    parameters are tensors, the load completes; a parameter that is absent
    from the checkpoint, or present with another rank, keeps its value.
    The containers [state] and [state_dict] are entered before matching. *)
Theorem weight_reconciliation_never_fails (state : list (string * tensor))
    (weights : pyobj) (old_model : gmap string pyobj) :
  List.NoDup (map fst state) ->
  unwrap_containers weights = Done (PDict old_model) ->
  (forall el cur o, In (el, cur) state -> old_model !! el = Some o -> exists t, o = PTensor t) ->
  (exists params,
     load_not_compatible_weights state weights = Done params
     /\ map fst params = map fst state
     /\ (forall el cur, In (el, cur) state ->
           reconcile_entry (PDict old_model) el cur = Done (reconciled (PDict old_model) (el, cur))
           /\ dict_get el params = Some (reconciled (PDict old_model) (el, cur)))
     /\ (forall el cur, In (el, cur) state ->
           old_model !! el = None
           \/ (exists t, old_model !! el = Some (PTensor t)
                         /\ length (shape t) <> length (shape cur)) ->
           dict_get el params = Some cur))
  /\ (forall d inner : gmap string pyobj,
        d !! "state" = Some (PDict inner) -> inner !! "state_dict" = None ->
        unwrap_containers (PDict d) = Done (PDict inner))
  /\ (forall d inner : gmap string pyobj,
        d !! "state" = None -> d !! "state_dict" = Some (PDict inner) ->
        unwrap_containers (PDict d) = Done (PDict inner))
  /\ (forall d : gmap string pyobj,
        d !! "state" = None -> d !! "state_dict" = None ->
        unwrap_containers (PDict d) = Done (PDict d)).
Proof.
  intros Hnd Hunwrap Htensors. split; [|repeat split].
  - set (old := PDict old_model).
    assert (Hentry : forall el cur, In (el, cur) state ->
              reconcile_entry old el cur = Done (reconciled old (el, cur))
              /\ shape (reconciled old (el, cur)) = shape cur).
    { intros el cur Hin. unfold reconciled. cbn [fst snd].
      destruct (old_model !! el) as [o|] eqn:Hel.
      - destruct (Htensors el cur o Hin Hel) as [t ->].
        subst old. rewrite (reconcile_entry_present _ _ _ _ Hel). split; [reflexivity|].
        destruct (decide (shape cur = shape t)) as [Heq|Hne].
        + rewrite bool_decide_eq_true_2 by assumption. symmetry. exact Heq.
        + rewrite bool_decide_eq_false_2 by assumption.
          destruct (decide (length (shape cur) ≠ length (shape t))) as [Hrank|Hrank].
          * rewrite bool_decide_eq_true_2 by assumption. reflexivity.
          * rewrite bool_decide_eq_false_2 by assumption.
            apply shape_reconcile. destruct (decide (length (shape cur) = length (shape t))); tauto.
      - subst old. rewrite (reconcile_entry_absent _ _ _ Hel). auto. }
    set (sd := map (fun kv => (kv.1, reconciled old kv)) state).
    assert (Hloop : forM (fun kv => t ← reconcile_entry old kv.1 kv.2; Done (kv.1, t)) state
                    = Done sd).
    { apply forM_Done. apply List.Forall_forall. intros [el cur] Hin. cbn [fst snd].
      destruct (Hentry el cur Hin) as [-> _]. reflexivity. }
    assert (Hget : forall el cur, In (el, cur) state ->
              dict_get el sd = Some (reconciled old (el, cur))).
    { intros el cur Hin. apply (dict_get_map_values (reconciled old)); assumption. }
    assert (Hsame : map (fun p => (p.1, default p.2 (dict_get p.1 sd))) state = sd).
    { apply map_ext_in. intros [el cur] Hin. cbn [fst snd].
      rewrite (Hget el cur Hin). reflexivity. }
    exists sd. split; [|split; [|split]].
    + unfold load_not_compatible_weights. rewrite Hunwrap. cbn [mbind outcome_bind].
      fold old. rewrite Hloop. cbn [mbind outcome_bind]. unfold load_state_dict.
      rewrite Hsame.
      assert (H1 : forallb (fun p => match dict_get p.1 sd with
                                     | Some t => bool_decide (shape p.2 = shape t)
                                     | None => false
                                     end) state = true).
      { apply forallb_forall. intros [el cur] Hin. cbn [fst snd].
        rewrite (Hget el cur Hin). apply bool_decide_eq_true_2.
        symmetry. apply Hentry. exact Hin. }
      assert (H2 : forallb (fun s => match dict_get s.1 state with
                                     | Some _ => true
                                     | None => false
                                     end) sd = true).
      { apply forallb_forall. intros [el t] Hin. cbn [fst snd].
        apply in_map_iff in Hin as ([el' cur] & Heq & Hin). injection Heq as -> _.
        pose proof (dict_get_In _ _ _ Hin) as Hsome.
        destruct (dict_get el state); [reflexivity|contradiction]. }
      rewrite H1, H2. reflexivity.
    + subst sd. rewrite map_map. reflexivity.
    + intros el cur Hin. split; [apply Hentry; exact Hin|apply Hget; exact Hin].
    + intros el cur Hin Hcase. rewrite (Hget el cur Hin). f_equal.
      unfold reconciled. cbn [fst snd]. subst old.
      destruct Hcase as [Habs|(t & Hel & Hrank)].
      * rewrite (reconcile_entry_absent _ _ _ Habs). reflexivity.
      * rewrite (reconcile_entry_present _ _ _ _ Hel).
        rewrite bool_decide_eq_false_2 by (intros Heq; apply Hrank; rewrite Heq; reflexivity).
        rewrite bool_decide_eq_true_2 by (intros Heq; apply Hrank; symmetry; exact Heq).
        reflexivity.
  - intros d inner Hd Hinner. unfold unwrap_containers.
    rewrite (unwrap_nested _ _ _ Hd). cbn [mbind outcome_bind]. apply unwrap_flat. exact Hinner.
  - intros d inner Hs Hsd. unfold unwrap_containers.
    rewrite (unwrap_flat _ _ Hs). cbn [mbind outcome_bind]. apply unwrap_nested. exact Hsd.
  - intros d Hs Hsd. unfold unwrap_containers.
    rewrite (unwrap_flat _ _ Hs). cbn [mbind outcome_bind]. apply unwrap_flat. exact Hsd.
Qed.

Lemma weight_reconciliation_never_fails_witness :
  exists params,
    load_not_compatible_weights state_wb (PDict {[ "state" := PDict checkpoint_w ]})
    = Done params
    /\ dict_get "b" params
       = Some {| shape := [3]; data := Axis [Scalar 7; Scalar 8; Scalar 9] |}.
Proof.
  destruct (weight_reconciliation_never_fails state_wb
              (PDict {[ "state" := PDict checkpoint_w ]}) checkpoint_w)
    as [(params & Hload & _ & _ & Hkeep) _].
  - repeat constructor; cbn; intuition discriminate.
  - vm_compute. reflexivity.
  - intros el cur o [[= <- <-]|[[= <- <-]|[]]] Hel; vm_compute in Hel.
    + injection Hel as <-. eauto.
    + discriminate.
  - exists params. split; [exact Hload|].
    apply Hkeep; [right; left; reflexivity|]. left. vm_compute. reflexivity.
Defined.

(** ** C8: samples of weight zero *)

Lemma weight_ok_add cv rv w v :
  weight_ok cv rv -> (0 <= w)%Q -> (w == 0 -> v == 0)%Q -> weight_ok (cv + w) (rv + v).
Proof.
  intros [Hc Hr] Hw Hv. split.
  - apply (Qplus_le_compat 0 cv 0 w); assumption.
  - intros Hsum.
    assert (Hc0 : (cv == 0)%Q).
    { apply Qle_antisym; [|exact Hc]. rewrite <- Hsum.
      rewrite <- (Qplus_0_r cv) at 1. apply Qplus_le_compat; [apply Qle_refl|exact Hw]. }
    assert (Hw0 : (w == 0)%Q).
    { rewrite Hc0, Qplus_0_l in Hsum. exact Hsum. }
    rewrite (Hr Hc0), (Hv Hw0). reflexivity.
Qed.

Lemma weight_ok_add_left cv rv w :
  weight_ok cv rv -> (0 <= w)%Q -> weight_ok (cv + w) rv.
Proof.
  intros Hok Hw.
  destruct (weight_ok_add cv rv w 0 Hok Hw ltac:(reflexivity)) as [H1 H2].
  split; [exact H1|]. intros H. rewrite <- (Qplus_0_r rv). apply H2. exact H.
Qed.

Lemma weight_ok_inplace cs rs ws vs :
  Forall2 weight_ok cs rs -> Forall (fun w => 0 <= w)%Q ws -> dominated ws vs ->
  Forall2 weight_ok (inplace Qplus cs ws) (inplace Qplus rs vs).
Proof.
  intros H. revert ws vs. induction H as [|cv rv cs rs Hok Htail IH]; intros ws vs Hws Hdom.
  - destruct ws, vs; constructor.
  - destruct ws as [|w ws], vs as [|v vs]; cbn [inplace dominated] in *.
    + constructor; assumption.
    + contradiction.
    + inversion Hws; subst. constructor.
      * apply weight_ok_add_left; assumption.
      * specialize (IH ws [] ltac:(assumption) I).
        destruct rs; exact IH.
    + inversion Hws; subst. destruct Hdom as [Hv Hdom]. constructor.
      * apply weight_ok_add; assumption.
      * apply IH; assumption.
Qed.

Lemma inplace_nil {A B : Type} (f : A -> B -> A) dst : inplace f dst [] = dst.
Proof. destruct dst; reflexivity. Qed.

Lemma add_at_nil start r : add_at start [] r = r.
Proof. unfold add_at. rewrite inplace_nil. apply take_drop. Qed.

Lemma weight_ok_add_at start cs rs ws vs :
  Forall2 weight_ok cs rs -> Forall (fun w => 0 <= w)%Q ws -> dominated ws vs ->
  Forall2 weight_ok (add_at start ws cs) (add_at start vs rs).
Proof.
  intros H Hws Hdom. unfold add_at. apply Forall2_app.
  - apply Forall2_take. exact H.
  - apply weight_ok_inplace; [apply Forall2_drop; exact H|assumption ..].
Qed.

Lemma weight_ok_channels start ws (vs_of : row -> row) (C R X : array2) :
  Forall (fun w => 0 <= w)%Q ws -> (forall xr, dominated ws (vs_of xr)) ->
  Forall2 (Forall2 weight_ok) C R ->
  Forall2 (Forall2 weight_ok)
          (map (add_at start ws) C)
          (inplace (fun r xr => add_at start (vs_of xr) r) R X).
Proof.
  intros Hws Hdom H. revert X. induction H as [|c r C R Hrow _ IH]; intros X.
  - destruct X; constructor.
  - destruct X as [|xr X]; cbn [map inplace].
    + constructor.
      * replace r with (add_at start [] r) at 1.
        -- apply weight_ok_add_at; [exact Hrow|exact Hws|exact I].
        -- apply add_at_nil.
      * specialize (IH []). destruct R; exact IH.
    + constructor; [|apply IH]. apply weight_ok_add_at; auto.
Qed.

Lemma weight_ok_instruments start ws (vs_of : row -> row) (C R X : array3) :
  Forall (fun w => 0 <= w)%Q ws -> (forall xr, dominated ws (vs_of xr)) ->
  Forall2 (Forall2 (Forall2 weight_ok)) C R ->
  Forall2 (Forall2 (Forall2 weight_ok))
          (map (map (add_at start ws)) C)
          (inplace (inplace (fun r xr => add_at start (vs_of xr) r)) R X).
Proof.
  intros Hws Hdom H. revert X. induction H as [|c r C R Hch _ IH]; intros X.
  - destruct X; constructor.
  - destruct X as [|xc X]; cbn [map inplace].
    + constructor.
      * replace r with (inplace (fun r0 xr => add_at start (vs_of xr) r0) r []) at 1
          by apply inplace_nil.
        apply weight_ok_channels; assumption.
      * specialize (IH []). destruct R; exact IH.
    + constructor; [|apply IH]. apply weight_ok_channels; assumption.
Qed.

Lemma dominated_products ws xs : dominated ws (zip_with Qmult xs ws).
Proof.
  revert xs. induction ws as [|w ws IH]; intros [|x xs]; cbn; auto.
  split; [|apply IH]. intros ->. ring.
Qed.

Lemma dominated_ones n xs : dominated (replicate n 1%Q) (take n xs).
Proof.
  revert xs. induction n as [|n IH]; intros [|x xs]; cbn; auto.
  split; [|apply IH]. intros H. discriminate H.
Qed.

(** Every accumulation statement keeps [weight_ok] between the counter
    and the result. *)
Lemma weight_ok_accumulate md w loc xj r c :
  Forall (fun w => 0 <= w)%Q w ->
  Forall2 (Forall2 (Forall2 weight_ok)) c r ->
  Forall2 (Forall2 (Forall2 weight_ok))
          (accumulate md w loc xj (r, c)).2 (accumulate md w loc xj (r, c)).1.
Proof.
  intros Hw H. destruct loc as [start seg]. unfold accumulate.
  destruct md; cbn [fst snd].
  - apply (weight_ok_instruments start (take seg w)
             (fun xr => zip_with Qmult (take seg xr) (take seg w))).
    + apply Forall_take. exact Hw.
    + intros xr. apply dominated_products.
    + exact H.
  - apply (weight_ok_instruments start (replicate seg 1%Q) (fun xr => take seg xr)).
    + apply Forall_replicate. discriminate.
    + intros xr. apply dominated_ones.
    + exact H.
Qed.

Lemma nonneg_linspace_up n : Forall (fun w => 0 <= w)%Q (linspace 0 1 n).
Proof.
  destruct n as [|[|n]]; [constructor|repeat constructor; discriminate|].
  unfold linspace. apply List.Forall_forall. intros x Hx.
  apply in_map_iff in Hx as (k & <- & _).
  apply (Qplus_le_compat 0 0 0); [discriminate|].
  apply Qmult_le_0_compat.
  - change 0%Q with (inject_Z 0). rewrite <- Zle_Qle. lia.
  - discriminate.
Qed.

Lemma nonneg_linspace_down n : Forall (fun w => 0 <= w)%Q (linspace 1 0 n).
Proof.
  destruct n as [|[|n]]; [constructor|repeat constructor; discriminate|].
  unfold linspace. apply List.Forall_forall. intros x Hx.
  apply in_map_iff in Hx as (k & <- & Hk). apply in_seq in Hk.
  set (d := inject_Z (Z.of_nat (S (S n) - 1))).
  assert (Hd : (0 < d)%Q).
  { subst d. change 0%Q with (inject_Z 0). rewrite <- Zlt_Qlt. lia. }
  assert (Hkd : (inject_Z (Z.of_nat k) <= d)%Q).
  { subst d. rewrite <- Zle_Qle. lia. }
  assert (E : (1 + inject_Z (Z.of_nat k) * ((0 - 1) / d)
               == (d - inject_Z (Z.of_nat k)) / d)%Q)
    by (field; intros H0; rewrite H0 in Hd; discriminate Hd).
  cbv beta. fold d. rewrite E.
  apply Qle_shift_div_l; [exact Hd|]. rewrite Qmult_0_l.
  rewrite <- (Qplus_opp_r (inject_Z (Z.of_nat k))).
  apply Qplus_le_compat; [exact Hkd|apply Qle_refl].
Qed.

Lemma Forall_setitem_slice (Pr : Q -> Prop) lo hi src l l' :
  Forall Pr src -> Forall Pr l -> setitem_slice lo hi src l = Done l' -> Forall Pr l'.
Proof.
  intros Hsrc Hl. unfold setitem_slice, fill_slice.
  assert (Hparts : forall mid, Forall Pr mid -> Forall Pr (take lo l ++ mid ++ drop hi l)).
  { intros mid Hmid. repeat apply Forall_app_2; [apply Forall_take|exact Hmid|apply Forall_drop];
      exact Hl. }
  destruct (_ =? _).
  - intros [= <-]. apply Hparts. exact Hsrc.
  - destruct src as [|v [|? ?]]; [discriminate| |discriminate].
    intros [= <-]. apply Hparts. apply Forall_replicate. inversion Hsrc; assumption.
Qed.

Lemma nonneg_getWindowingArray size fade w :
  _getWindowingArray size fade = Done w -> Forall (fun w => 0 <= w)%Q w.
Proof.
  unfold _getWindowingArray.
  destruct (setitem_slice _ _ (linspace 1 0 fade) _) as [w1| |] eqn:H1;
    cbn [mbind outcome_bind]; [|discriminate ..].
  destruct (setitem_slice _ _ (linspace 0 1 fade) _) as [w2| |] eqn:H2;
    cbn [mbind outcome_bind]; [|discriminate ..].
  intros [= <-].
  eapply Forall_setitem_slice; [apply nonneg_linspace_up| |exact H2].
  eapply Forall_setitem_slice; [apply nonneg_linspace_down| |exact H1].
  apply Forall_replicate. discriminate.
Qed.

Lemma nonneg_batch_window step fade w mix k :
  Forall (fun w => 0 <= w)%Q w ->
  Forall (fun w => 0 <= w)%Q (batch_window step fade w mix k).
Proof.
  intros Hw. unfold batch_window, fill_slice.
  assert (Hparts : forall lo hi n,
             Forall (fun w => 0 <= w)%Q (take lo w ++ replicate n 1%Q ++ drop hi w)).
  { intros lo hi n.
    repeat apply Forall_app_2; [apply Forall_take; exact Hw| |apply Forall_drop; exact Hw].
    apply Forall_replicate. discriminate. }
  destruct (_ =? 0); [apply Hparts|]. destruct (_ <=? _); [apply Hparts|exact Hw].
Qed.

Lemma plan_window_nonneg cfg md mix pl :
  demix_plan cfg md mix = Done pl -> Forall (fun w => 0 <= w)%Q (p_window pl).
Proof.
  intros Hpl. destruct md.
  - apply demix_plan_inv in Hpl as (_ & _ & _ & _ & _ & _ & _ & Hw & _).
    eapply nonneg_getWindowingArray. exact Hw.
  - unfold demix_plan in Hpl. destruct (floordiv _ _); cbn [mbind outcome_bind] in Hpl;
      [|discriminate ..].
    injection Hpl as <-. constructor.
Qed.

(** The invariant of the two accumulators over a whole run. *)
Lemma demix_run_weight_ok fuel cfg md mix model pl st :
  demix_plan cfg md mix = Done pl ->
  demix_run fuel md (inference_batch_size cfg) model pl = Done st ->
  Forall2 (Forall2 (Forall2 weight_ok)) (counter st) (result st).
Proof.
  intros Hpl Hrun. pose proof (plan_window_nonneg _ _ _ _ Hpl) as Hw.
  unfold demix_run in Hrun.
  apply (demix_loop_accumulators md _ _ _ _ _ _ _
           (fun rc => Forall2 (Forall2 (Forall2 weight_ok)) rc.2 rc.1)) in Hrun;
    [exact Hrun| |].
  - intros k loc xj [r c] H. cbn [fst snd] in H.
    apply weight_ok_accumulate; [|exact H]. apply nonneg_batch_window. exact Hw.
  - cbn. repeat apply Forall2_replicate. split; [discriminate|reflexivity].
Qed.

Lemma sample_normalize r c k ch s rv cv :
  sample r k ch s = Some rv -> sample c k ch s = Some cv ->
  sample (normalize r c) k ch s = Some (nan_to_num (true_divide rv cv)).
Proof.
  unfold sample, normalize. intros Hr Hc. rewrite lookup_zip_with.
  destruct (r !! k) as [rm|]; [|discriminate]. destruct (c !! k) as [cm|]; [|discriminate].
  cbn in *. rewrite lookup_zip_with.
  destruct (rm !! ch) as [rr|]; [|discriminate]. destruct (cm !! ch) as [cr|]; [|discriminate].
  cbn in *. rewrite lookup_zip_with, Hr, Hc. reflexivity.
Qed.

Lemma sample_weight_ok c r k ch s cv :
  Forall2 (Forall2 (Forall2 weight_ok)) c r -> sample c k ch s = Some cv ->
  exists rv, sample r k ch s = Some rv /\ weight_ok cv rv.
Proof.
  unfold sample. intros H Hc.
  destruct (c !! k) as [cm|] eqn:Hcm; [|discriminate]. cbn in Hc.
  destruct (Forall2_lookup_l _ _ _ _ _ H Hcm) as (rm & -> & Hm).
  destruct (cm !! ch) as [cr|] eqn:Hcr; [|discriminate]. cbn in Hc |- *.
  destruct (Forall2_lookup_l _ _ _ _ _ Hm Hcr) as (rr & -> & Hrow). cbn.
  destruct (Forall2_lookup_l _ _ _ _ _ Hrow Hc) as (rv & -> & Hok). eauto.
Qed.

Lemma true_divide_zero_weight rv cv :
  weight_ok cv rv -> (cv == 0)%Q -> nan_to_num (true_divide rv cv) = 0%Q.
Proof.
  intros [_ Hr] Hc. unfold true_divide.
  rewrite (Qeq_eq_bool _ _ Hc), (Qeq_eq_bool _ _ (Hr Hc)). reflexivity.
Qed.

Lemma sample_strip_border md pl a k ch t v :
  sample (strip_border md pl a) k ch t = Some v ->
  sample a k ch (strip_offset md pl + t) = Some v.
Proof.
  unfold strip_border, strip_offset. destruct md; [|intros H; exact H].
  destruct (padded _ _); [|intros H; exact H].
  unfold sample. change (map ?f ?l) with (f <$> l). rewrite list_lookup_fmap.
  destruct (a !! k) as [m|]; [|discriminate]. cbn.
  change (map ?f ?l) with (f <$> l). rewrite list_lookup_fmap.
  destruct (m !! ch) as [r|]; [|discriminate]. cbn.
  rewrite lookup_drop. intros H. apply lookup_take_Some in H. tauto.
Qed.

Lemma normalize_float_finite (r c : array3) :
  normalize_float (lift3 r) (lift3 c) = normalize r c.
Proof.
  unfold normalize_float, normalize, lift3. change (map ?f ?l) with (f <$> l).
  rewrite zip_with_fmap_l, zip_with_fmap_r. apply zip_with_ext; [|reflexivity ..].
  intros m m'. rewrite zip_with_fmap_l, zip_with_fmap_r.
  apply zip_with_ext; [|reflexivity ..].
  intros x x'. rewrite zip_with_fmap_l, zip_with_fmap_r. reflexivity.
Qed.

Lemma sample_normalize_float R C k ch s r c :
  sample_float R k ch s = Some r -> sample_float C k ch s = Some c ->
  sample (normalize_float R C) k ch s = Some (nan_to_num (fdiv r c)).
Proof.
  unfold sample_float, sample, normalize_float. intros Hr Hc.
  destruct (R !! k) as [mr|] eqn:HR; [|discriminate].
  destruct (C !! k) as [mc|] eqn:HC; [|discriminate].
  cbn [mbind option_bind] in Hr, Hc.
  destruct (mr !! ch) as [xr|] eqn:Hmr; [|discriminate].
  destruct (mc !! ch) as [xc|] eqn:Hmc; [|discriminate].
  cbn [mbind option_bind] in Hr, Hc.
  rewrite lookup_zip_with, HR, HC. cbn [mbind option_bind].
  rewrite lookup_zip_with, Hmr, Hmc. cbn [mbind option_bind].
  rewrite lookup_zip_with, Hr, Hc. reflexivity.
Qed.

Lemma true_divide_NaN rv cv :
  weight_ok cv rv -> (cv == 0)%Q -> true_divide rv cv = NaN.
Proof.
  intros [_ Hzero] Hc. unfold true_divide.
  rewrite (proj2 (Qeq_bool_iff cv 0) Hc), (proj2 (Qeq_bool_iff rv 0) (Hzero Hc)).
  reflexivity.
Qed.

(** C8, as amended: once the loop is done [demix] returns.  In a run, a
    sample whose weight counter is 0 has the sum 0 too, so its quotient is
    NaN, which [nan_to_num] turns into 0; the same reads through the final
    slice.  Not every non-finite quotient becomes 0: the division stage,
    on float accumulators, replaces only NaN with 0, and an infinite
    quotient becomes the largest finite float32 of its sign. *)
Theorem zero_weight_recovery (fuel : nat) (cfg : config)
    (model : list array2 -> list array3) (mix : array2) (model_type : string)
    (fl : flags) (pl : plan) (st : loop_state) :
  let md := select_mode fl model_type in
  demix_plan cfg md mix = Done pl ->
  demix_run fuel md (inference_batch_size cfg) model pl = Done st ->
  let estimated_sources := normalize (result st) (counter st) in
  demix fuel cfg model mix model_type fl = Done (demix_finalize cfg md pl st)
  /\ (forall k ch s cv,
        sample (counter st) k ch s = Some cv -> (cv == 0)%Q ->
        sample estimated_sources k ch s = Some 0%Q)
  /\ (forall k ch s rv cv,
        sample (result st) k ch s = Some rv -> sample (counter st) k ch s = Some cv ->
        (cv == 0)%Q -> (rv == 0)%Q /\ true_divide rv cv = NaN)
  /\ (forall k ch t v cv,
        sample (strip_border md pl estimated_sources) k ch t = Some v ->
        sample (counter st) k ch (strip_offset md pl + t) = Some cv -> (cv == 0)%Q ->
        v = 0%Q)
  /\ normalize_float (lift3 (result st)) (lift3 (counter st)) = estimated_sources
  /\ (forall R C k ch s r c,
        sample_float R k ch s = Some r -> sample_float C k ch s = Some c ->
        sample (normalize_float R C) k ch s
        = Some (match fdiv r c with
                | Finite q => q
                | NaN => 0
                | PosInf => FLT_MAX
                | NegInf => - FLT_MAX
                end)%Q).
Proof.
  intros md Hpl Hrun est.
  pose proof (demix_run_weight_ok _ _ _ _ _ _ _ Hpl Hrun) as Hinv.
  assert (Hzero : forall k ch s cv,
             sample (counter st) k ch s = Some cv -> (cv == 0)%Q ->
             sample est k ch s = Some 0%Q).
  { intros k ch s cv Hc Hc0.
    destruct (sample_weight_ok _ _ _ _ _ _ Hinv Hc) as (rv & Hr & Hok).
    subst est. rewrite (sample_normalize _ _ _ _ _ _ _ Hr Hc).
    f_equal. apply true_divide_zero_weight; assumption. }
  split; [|split; [exact Hzero|split; [|split; [|split]]]].
  - unfold demix. fold md. rewrite Hpl. cbn [mbind outcome_bind]. rewrite Hrun. reflexivity.
  - intros k ch s rv cv Hr Hc.
    destruct (sample_weight_ok _ _ _ _ _ _ Hinv Hc) as (rv' & Hr' & Hok).
    rewrite Hr in Hr'. injection Hr' as <-. intros Hc0.
    split; [exact (proj2 Hok Hc0)|apply true_divide_NaN; assumption].
  - intros k ch t v cv Hv Hc Hc0. apply sample_strip_border in Hv.
    rewrite (Hzero _ _ _ _ Hc Hc0) in Hv. injection Hv as <-. reflexivity.
  - apply normalize_float_finite.
  - intros R C k ch s r c Hr Hc. rewrite (sample_normalize_float _ _ _ _ _ _ _ Hr Hc).
    destruct (fdiv r c); reflexivity.
Qed.

Lemma zero_weight_recovery_witness :
  exists pl st,
    demix_plan cfg_12_4 generic [ramp 13] = Done pl
    /\ demix_run 5 generic 2 identity_model pl = Done st
    /\ sample (counter st) 0 0 0 = Some 0%Q
    /\ sample (normalize (result st) (counter st)) 0 0 0 = Some 0%Q.
Proof.
  evar (pl : plan). evar (st : loop_state).
  assert (Hpl : demix_plan cfg_12_4 (select_mode native "mdx23c") [ramp 13] = Done pl)
    by (subst pl; vm_compute; reflexivity).
  assert (Hrun : demix_run 5 (select_mode native "mdx23c") (inference_batch_size cfg_12_4)
                           identity_model pl = Done st)
    by (subst pl st; vm_compute; reflexivity).
  assert (Hc : sample (counter st) 0 0 0 = Some 0%Q) by (subst st; vm_compute; reflexivity).
  exists pl, st. split; [exact Hpl|]. split; [exact Hrun|]. split; [exact Hc|].
  destruct (zero_weight_recovery 5 cfg_12_4 identity_model [ramp 13] "mdx23c" native pl st
              Hpl Hrun) as (_ & Hzero & _).
  apply (Hzero 0 0 0 0%Q Hc). reflexivity.
Defined.

(** The claim as stated fails: with [+inf] in the sum and a weight of 1
    the quotient [+inf] is a non-finite division result, and line 541
    replaces it with the largest finite float32, not with 0. *)
Lemma zero_weight_recovery_counterexample :
  sample_float [[[PosInf]]] 0 0 0 = Some PosInf
  /\ sample_float [[[Finite 1]]] 0 0 0 = Some (Finite 1)
  /\ is_finite (fdiv PosInf (Finite 1)) = false
  /\ sample (normalize_float [[[PosInf]]] [[[Finite 1]]]) 0 0 0 = Some FLT_MAX
  /\ ~ (FLT_MAX == 0)%Q.
Proof.
  repeat split. intros H. discriminate H.
Qed.

(** How such a sum arises from finite data: the identity back end on a
    mixture of the largest float32.  Where two chunks overlap the exact
    sum is twice that value, beyond the float32 range, so the float32
    accumulator holds [+inf] there, with the weight 2. *)
Lemma sum_beyond_float32_range :
  exists pl st rv,
    demix_plan cfg_10_2 generic [replicate 12 FLT_MAX] = Done pl
    /\ demix_run 6 generic 2 identity_model pl = Done st
    /\ sample (result st) 0 0 6 = Some rv /\ (FLT_MAX < rv)%Q
    /\ sample (counter st) 0 0 6 = Some 2%Q.
Proof.
  evar (pl : plan). evar (st : loop_state). evar (rv : Q).
  assert (Hpl : demix_plan cfg_10_2 generic [replicate 12 FLT_MAX] = Done pl)
    by (subst pl; vm_compute; reflexivity).
  assert (Hrun : demix_run 6 generic 2 identity_model pl = Done st)
    by (subst pl st; vm_compute; reflexivity).
  assert (Hr : sample (result st) 0 0 6 = Some rv) by (subst st rv; vm_compute; reflexivity).
  exists pl, st, rv. split; [exact Hpl|]. split; [exact Hrun|]. split; [exact Hr|].
  split; [subst rv|subst st]; vm_compute; reflexivity.
Qed.

(** ** Dictionaries of stems *)

Lemma dict_get_Some_In {V : Type} (d : list (string * V)) k :
  In k (map fst d) -> exists v, dict_get k d = Some v.
Proof.
  induction d as [|[k' v'] d IH]; cbn [map fst In dict_get]; [tauto|].
  intros Hin. destruct (String.eqb_spec k' k) as [->|Hne]; [eauto|].
  apply IH. destruct Hin; [contradiction|assumption].
Qed.

Lemma dict_get_Some_keys {V : Type} (d : list (string * V)) k v :
  dict_get k d = Some v -> In k (map fst d).
Proof.
  induction d as [|[k' v'] d IH]; cbn [map fst In dict_get]; [discriminate|].
  destruct (String.eqb_spec k' k) as [->|Hne]; [auto|]. intros H. right. auto.
Qed.

Lemma dict_get_set {V : Type} (d : list (string * V)) k k' v :
  dict_get k' (dict_set k v d) = if String.eqb k k' then Some v else dict_get k' d.
Proof.
  induction d as [|[k0 v0] d IH]; cbn [dict_set dict_get].
  - destruct (String.eqb k k'); reflexivity.
  - destruct (String.eqb_spec k0 k) as [->|Hne]; cbn [dict_get].
    + destruct (String.eqb k k'); reflexivity.
    + destruct (String.eqb_spec k0 k') as [->|Hne'].
      * destruct (String.eqb_spec k k'); [congruence|reflexivity].
      * exact IH.
Qed.

Lemma keys_dict_set {V : Type} (d : list (string * V)) k v :
  (In k (map fst d) -> map fst (dict_set k v d) = map fst d)
  /\ (~ In k (map fst d) -> map fst (dict_set k v d) = map fst d ++ [k]).
Proof.
  split.
  - induction d as [|[k0 v0] d IH]; cbn [dict_set map fst In]; [tauto|].
    intros Hin. destruct (String.eqb_spec k0 k) as [->|Hne]; cbn [map fst]; [reflexivity|].
    rewrite IH; [reflexivity|]. destruct Hin; [contradiction|assumption].
  - intros Hn. rewrite dict_set_fresh by exact Hn. rewrite map_app. reflexivity.
Qed.

Lemma NoDup_keys_dict_of {V : Type} (pairs : list (string * V)) :
  List.NoDup (map fst (dict_of pairs)).
Proof.
  unfold dict_of.
  assert (H : forall acc : list (string * V),
             List.NoDup (map fst acc) ->
             List.NoDup (map fst (fold_left (fun d kv => dict_set kv.1 kv.2 d) pairs acc))).
  { induction pairs as [|[k v] pairs IH]; intros acc Hacc; cbn [fold_left]; [exact Hacc|].
    apply IH. cbn [fst snd].
    destruct (in_dec String.string_dec k (map fst acc)) as [Hin|Hn].
    - rewrite (proj1 (keys_dict_set acc k v) Hin). exact Hacc.
    - rewrite (proj2 (keys_dict_set acc k v) Hn).
      apply List.NoDup_app; [exact Hacc|repeat constructor; cbn; tauto|].
      intros x Hx [<-|[]]. contradiction. }
  apply H. constructor.
Qed.

Lemma demix_Mapping_NoDup fuel cfg model mix model_type fl d :
  demix fuel cfg model mix model_type fl = Done (Mapping d) -> List.NoDup (map fst d).
Proof.
  unfold demix.
  destruct (demix_plan _ _ _) as [pl| |]; cbn [mbind outcome_bind]; [|discriminate ..].
  destruct (demix_run _ _ _ _ _) as [st| |]; cbn [mbind outcome_bind]; [|discriminate ..].
  unfold demix_finalize. intros H.
  assert (E : exists ps : list (string * array2), d = dict_of ps).
  { destruct (select_mode fl model_type).
    - injection H as <-. eauto.
    - destruct (_ <=? 1); [discriminate|]. injection H as <-. eauto. }
  destruct E as [ps ->]. apply NoDup_keys_dict_of.
Qed.

Lemma dict_get_map_arrays {V W : Type} (h : V -> W) (d : list (string * V)) k :
  dict_get k (map (fun kv => (kv.1, h kv.2)) d) = h <$> dict_get k d.
Proof.
  induction d as [|[k' v'] d IH]; cbn [map dict_get fst snd]; [reflexivity|].
  destruct (String.eqb k' k); [reflexivity|exact IH].
Qed.


(** ** C1: overlap-add over the identity back end *)

Lemma length_add_at start vals r : length (add_at start vals r) = length r.
Proof.
  unfold add_at. rewrite length_app, length_inplace, length_take, length_drop. lia.
Qed.

Lemma nth_inplace_Qplus dst src s :
  (nth s (inplace Qplus dst src) 0
   == nth s dst 0 + (if s <? length dst then nth s src 0 else 0))%Q.
Proof.
  revert src s. induction dst as [|d dst IH]; intros src s.
  - destruct src, s; cbn; ring.
  - destruct src as [|v src].
    + cbn [inplace]. destruct (s <? _), s; cbn; ring.
    + destruct s as [|s]; cbn [inplace nth length]; [cbn; ring|].
      rewrite IH. change (S s <? S (length dst)) with (s <? length dst). reflexivity.
Qed.

(** A sample of a row after [row[start : start + len(vals)] += vals]. *)
Lemma nth_add_at start vals r s :
  (nth s (add_at start vals r) 0
   == nth s r 0 + (if (start <=? s) && (s <? length r)
                   then nth (s - start) vals 0 else 0))%Q.
Proof.
  unfold add_at. destruct (Nat.le_gt_cases start (length r)) as [Hle|Hgt].
  - destruct (Nat.leb_spec start s) as [Hs|Hs]; cbn [andb].
    + rewrite app_nth2 by (rewrite length_take; lia).
      rewrite length_take. replace (start `min` length r) with start by lia.
      rewrite nth_inplace_Qplus, length_drop, nth_skipn.
      replace (start + (s - start)) with s by lia.
      destruct (Nat.ltb_spec (s - start) (length r - start)), (Nat.ltb_spec s (length r));
        try lia; reflexivity.
    + rewrite app_nth1 by (rewrite length_take; lia).
      rewrite nth_firstn. destruct (Nat.ltb_spec s start); [|lia]. ring.
  - rewrite take_ge, drop_ge by lia. cbn [inplace]. rewrite app_nil_r.
    destruct (Nat.leb_spec start s), (Nat.ltb_spec s (length r)); cbn [andb]; try lia; ring.
Qed.

Lemma nth_zip_with_Qmult (xs ws : row) t :
  t < length xs \/ length ws <= length xs ->
  (nth t (zip_with Qmult xs ws) 0 == nth t xs 0 * nth t ws 0)%Q.
Proof.
  revert ws t. induction xs as [|x xs IH]; intros [|w ws] t Hlen; cbn [zip_with length] in *.
  - destruct t; cbn; ring.
  - destruct Hlen; lia.
  - destruct t; cbn; ring.
  - destruct t as [|t]; cbn [nth]; [reflexivity|]. apply IH. lia.
Qed.

Lemma nth_fill_slice lo hi v (l : row) t :
  lo <= hi -> hi <= length l ->
  nth t (fill_slice lo hi v l) 0%Q = if (lo <=? t) && (t <? hi) then v else nth t l 0%Q.
Proof.
  intros Hlo Hhi. unfold fill_slice.
  destruct (Nat.leb_spec lo t) as [H1|H1]; cbn [andb].
  - rewrite app_nth2 by (rewrite length_take; lia). rewrite length_take.
    replace (lo `min` length l) with lo by lia.
    destruct (Nat.ltb_spec t hi) as [H2|H2].
    + rewrite app_nth1 by (rewrite length_replicate; lia).
      apply nth_lookup_Some, lookup_replicate_2. lia.
    + rewrite app_nth2 by (rewrite length_replicate; lia).
      rewrite length_replicate, nth_skipn. f_equal. lia.
  - rewrite app_nth1 by (rewrite length_take; lia).
    rewrite nth_firstn. destruct (Nat.ltb_spec t lo); [reflexivity|lia].
Qed.

Lemma length_replay ps cn : length (replay ps cn) = length cn.
Proof.
  unfold replay. revert cn. induction ps as [|p ps IH]; intros cn; cbn [fold_left];
    [reflexivity|].
  rewrite IH. unfold weigh. destruct (window_used p); apply length_add_at.
Qed.

Lemma replay_snoc ps p cn : replay (ps ++ [p]) cn = weigh p (replay ps cn).
Proof. unfold replay. rewrite fold_left_app. reflexivity. Qed.

(** One accumulation statement, on one channel. *)
Lemma row_rel_step ps m r cn w chunk_size start seg xr :
  row_rel ps m r cn ->
  take seg xr = take chunk_size (drop start m) ->
  seg = chunk_size `min` (length m - start) ->
  row_rel (ps ++ [{| start := start; seg_len := seg; window_used := Some w |}]) m
          (add_at start (zip_with Qmult (take seg xr) (take seg w)) r)
          (add_at start (take seg w) cn).
Proof.
  intros (Hlen & Hcn & Hrel) Hx Hseg. split; [|split].
  - rewrite length_add_at. exact Hlen.
  - rewrite replay_snoc, <- Hcn. reflexivity.
  - intros s. rewrite !nth_add_at.
    assert (Hlcn : length cn = length m).
    { rewrite Hcn, length_replay. apply length_replicate. }
    rewrite Hlen, Hlcn.
    destruct ((start <=? s) && (s <? length m)) eqn:Hcond.
    + apply andb_true_iff in Hcond as [H1 H2].
      apply Nat.leb_le in H1. apply Nat.ltb_lt in H2.
      rewrite nth_zip_with_Qmult.
      2:{ right. rewrite Hx, !length_take, length_drop. lia. }
      rewrite Hx. rewrite (Hrel s).
      destruct (Nat.lt_ge_cases (s - start) seg) as [Hin|Hout].
      * rewrite nth_firstn. destruct (Nat.ltb_spec (s - start) chunk_size); [|lia].
        rewrite nth_skipn. replace (start + (s - start)) with s by lia. ring.
      * rewrite (nth_overflow (take seg w)) by (rewrite length_take; lia). ring.
    + rewrite (Hrel s). ring.
Qed.

Lemma channels_step ps (mix R Cn chunk : array2) w chunk_size start seg :
  Forall3 (row_rel ps) mix R Cn ->
  Forall2 (fun xr m => take seg xr = take chunk_size (drop start m)) chunk mix ->
  Forall (fun m => seg = chunk_size `min` (length m - start)) mix ->
  Forall3 (row_rel (ps ++ [{| start := start; seg_len := seg; window_used := Some w |}]))
          mix
          (inplace (fun r xr => add_at start (zip_with Qmult (take seg xr) (take seg w)) r)
                   R chunk)
          (map (add_at start (take seg w)) Cn).
Proof.
  intros H. revert chunk. induction H as [|m r cn mix R Cn Hrow _ IH]; intros chunk Hx Hseg.
  - inversion Hx; subst. constructor.
  - apply Forall2_cons_inv_r in Hx as (xr & chunk' & Hxr & Hx' & ->).
    apply Forall_cons in Hseg as [Hs Hseg'].
    cbn [inplace map]. constructor; [|apply IH; assumption].
    apply (row_rel_step _ _ _ _ _ chunk_size); assumption.
Qed.

(** The accumulation statements of one batch. *)
Lemma accumulate_batch_identity chunk_size (mix : array2) w bl bd :
  rectangular mix ->
  Forall2 (chunk_matches chunk_size mix) bl bd ->
  forall ps R Cn,
    Forall3 (row_rel ps) mix R Cn ->
    exists R' Cn',
      accumulate_batch generic w bl (identity_model bd) ([R], [Cn]) = Done ([R'], [Cn'])
      /\ Forall3 (row_rel (ps ++ map (placement_of generic w) bl)) mix R' Cn'.
Proof.
  intros Hrect H. induction H as [|[start seg] chunk bl bd [Hseg Hx] _ IH]; intros ps R Cn Hrel.
  - exists R, Cn. split; [reflexivity|]. cbn [map]. rewrite app_nil_r. exact Hrel.
  - cbn [fst snd] in Hseg, Hx. cbn [identity_model map accumulate_batch].
    change (map (fun c : array2 => [c]) bd) with (identity_model bd).
    cbn [accumulate inplace map].
    assert (Hstep : Forall3
              (row_rel (ps ++ [{| start := start; seg_len := seg; window_used := Some w |}]))
              mix
              (inplace (fun r xr =>
                          add_at start (zip_with Qmult (take seg xr) (take seg w)) r) R chunk)
              (map (add_at start (take seg w)) Cn)).
    { apply (channels_step ps mix R Cn chunk w chunk_size start seg); [exact Hrel|exact Hx|].
      eapply Forall_impl; [exact Hrect|]. cbn beta. intros m ->. exact Hseg. }
    destruct (IH _ _ _ Hstep) as (R' & Cn' & Hrun & Hrel').
    exists R', Cn'. split; [exact Hrun|].
    rewrite <- app_assoc in Hrel'. exact Hrel'.
Qed.

(** A padded chunk begins with the samples it was cut from. *)
Lemma pad_part_prefix md chunk_size (part part' : array2) :
  pad_part md chunk_size part = Done part' ->
  Forall2 (fun xr r0 => exists tail, xr = r0 ++ tail) part' part.
Proof.
  unfold pad_part.
  assert (Hconst : forall n,
             Forall2 (fun xr r0 : row => exists tail, xr = r0 ++ tail)
                     (map (constant_pad n) part) part).
  { intros n. induction part as [|r part IH]; cbn [map]; [constructor|].
    constructor; [|exact IH]. unfold constant_pad. eauto. }
  assert (Hrefl : forall n part',
             forM (reflect_pad 0 n) part = Done part' ->
             Forall2 (fun xr r0 : row => exists tail, xr = r0 ++ tail) part' part).
  { clear Hconst. intros n p' Hp. apply forM_inv in Hp.
    induction Hp as [|r xr part0 p0 Hr _ IH]; [constructor|].
    constructor; [|exact IH].
    apply reflect_pad_inv in Hr as (_ & _ & ->). unfold reflected. cbn [take reverse app].
    eauto. }
  destruct md.
  - destruct (_ <? _); [apply Hrefl|]. intros [= <-]. apply Hconst.
  - intros [= <-]. apply Hconst.
Qed.

Lemma chunk_matches_cut md chunk_size (mix part : array2) k :
  rectangular mix -> k < cols mix ->
  pad_part md chunk_size (map (fun r => take chunk_size (drop k r)) mix) = Done part ->
  chunk_matches chunk_size mix
                (k, cols (map (fun r => take chunk_size (drop k r)) mix)) part.
Proof.
  intros Hrect Hk Hpad. rewrite cols_part by assumption.
  split; [reflexivity|]. cbn [fst snd].
  apply pad_part_prefix in Hpad. unfold rectangular in Hrect.
  set (P := cols mix) in *. clearbody P. revert part Hpad.
  induction Hrect as [|m mix Hm _ IH]; intros part Hpad; cbn [map] in Hpad.
  - inversion Hpad; subst. constructor.
  - inversion Hpad as [|xr ? part' ? (tail & ->) Hpad']; subst.
    constructor; [|apply IH; exact Hpad'].
    apply take_app_length'. rewrite length_take, length_drop. lia.
Qed.

Lemma Forall3_zero_rows (mix : array2) :
  rectangular mix ->
  Forall3 (row_rel []) mix
          (replicate (length mix) (replicate (cols mix) 0%Q))
          (replicate (length mix) (replicate (cols mix) 0%Q)).
Proof.
  unfold rectangular. generalize (cols mix). intros P H.
  induction H as [|m mix Hm _ IH]; cbn [length replicate]; constructor; [|exact IH].
  split; [|split].
  - rewrite length_replicate. symmetry. exact Hm.
  - rewrite Hm. reflexivity.
  - intros s. assert (E : nth s (replicate P 0%Q) 0%Q = 0%Q).
    { destruct (Nat.lt_ge_cases s P).
      - apply nth_lookup_Some, lookup_replicate_2. assumption.
      - apply nth_overflow. rewrite length_replicate. assumption. }
    rewrite E. ring.
Qed.

Section IdentityRun.

Variable chunk_size step fade_size batch_size : nat.
Variable w0 : row.
Variable mix : array2.
Hypothesis Hrect : rectangular mix.

Local Abbreviation body :=
  (loop_body generic chunk_size step fade_size batch_size w0 identity_model mix).
Local Abbreviation inv := (identity_inv chunk_size step fade_size batch_size w0 mix).

Lemma identity_inv_initial :
  inv (fresh [replicate (length mix) (replicate (cols mix) 0%Q)]
             [replicate (length mix) (replicate (cols mix) 0%Q)]).
Proof.
  split; [constructor|]. split; [|split; [constructor|intros _; split; constructor]].
  eexists _, _. split; [reflexivity|]. split; [reflexivity|].
  apply Forall3_zero_rows. exact Hrect.
Qed.

Lemma identity_inv_body st st' :
  inv st -> i st < cols mix -> body st = Done st' -> inv st'.
Proof.
  intros (Hpend & (R & Cn & HR & HCn & Hrel) & Hwin & Hone) Hi Hb.
  apply loop_body_inv in Hb as (part & Hpad & Hcase). cbn zeta in Hcase.
  pose proof (chunk_matches_cut _ _ _ _ _ Hrect Hi Hpad) as Hcut.
  set (loc := (i st, cols (map (fun r => take chunk_size (drop (i st) r)) mix))) in *.
  assert (Hpend' : Forall2 (chunk_matches chunk_size mix)
                           (batch_locations st ++ [loc]) (batch_data st ++ [part])).
  { apply Forall2_app; [exact Hpend|]. constructor; [exact Hcut|constructor]. }
  destruct Hcase as [(rc & Hacc & ->)|[Hnoflush ->]].
  - set (w := batch_window step fade_size w0 mix (i st + step)) in *.
    destruct (accumulate_batch_identity chunk_size mix w _ _ Hrect Hpend' _ _ _ Hrel)
      as (R' & Cn' & Hrun & Hrel').
    rewrite HR, HCn, Hrun in Hacc. injection Hacc as <-.
    split; [constructor|]. split; [|split].
    + exists R', Cn'. cbn. auto.
    + cbn [placed]. apply Forall_app. split; [exact Hwin|].
      apply List.Forall_forall. intros p Hp. apply in_map_iff in Hp as (l & <- & _).
      exists (i st + step). reflexivity.
    + intros HB. destruct (Hone HB) as [Hempty Hfirst]. split; [reflexivity|].
      cbn [placed]. apply Forall_app. split; [exact Hfirst|].
      rewrite Hempty. cbn [app map]. repeat constructor.
  - split; [exact Hpend'|]. split; [|split].
    + exists R, Cn. cbn. auto.
    + exact Hwin.
    + intros HB. exfalso. apply orb_false_iff in Hnoflush as [Hfull _].
      apply Nat.leb_gt in Hfull. rewrite length_app in Hfull. cbn [length] in Hfull. lia.
Qed.

Lemma identity_inv_run fuel st :
  demix_loop generic chunk_size step fade_size batch_size w0 identity_model mix fuel
             (fresh [replicate (length mix) (replicate (cols mix) 0%Q)]
                    [replicate (length mix) (replicate (cols mix) 0%Q)]) = Done st ->
  inv st.
Proof.
  intros Hrun.
  apply (demix_loop_invariant generic chunk_size step fade_size batch_size w0
           identity_model mix inv) in Hrun; [tauto| |apply identity_inv_initial].
  intros st1 st2. apply identity_inv_body.
Qed.

End IdentityRun.

(** *** The counter is positive where a chunk weighs in *)

Lemma nth_nonneg (l : row) t : Forall (fun x => 0 <= x)%Q l -> (0 <= nth t l 0)%Q.
Proof.
  intros H. destruct (nth_lookup_or_length l t 0%Q) as [Hl|Hl].
  - rewrite List.Forall_forall in H. apply H. apply list_elem_of_In.
    eapply list_elem_of_lookup_2. exact Hl.
  - rewrite nth_overflow by assumption. apply Qle_refl.
Qed.

Lemma nth_weigh p cn s :
  nonneg_placement p ->
  exists v, (0 <= v)%Q
            /\ (nth s (weigh p cn) 0 == nth s cn 0 + v)%Q
            /\ (forall w, window_used p = Some w -> start p <= s -> s < length cn ->
                          s - start p < seg_len p -> v = nth (s - start p) w 0%Q).
Proof.
  unfold weigh, nonneg_placement. destruct (window_used p) as [w|]; intros Hw.
  - exists (if (start p <=? s) && (s <? length cn)
            then nth (s - start p) (take (seg_len p) w) 0%Q else 0%Q).
    split; [|split].
    + destruct (_ && _); [|apply Qle_refl]. apply nth_nonneg. apply Forall_take. exact Hw.
    + apply nth_add_at.
    + intros w' [= <-] H1 H2 H3.
      destruct (Nat.leb_spec (start p) s); [|lia].
      destruct (Nat.ltb_spec s (length cn)); [|lia]. cbn [andb].
      rewrite nth_firstn. destruct (Nat.ltb_spec (s - start p) (seg_len p)); [reflexivity|lia].
  - exists (if (start p <=? s) && (s <? length cn)
            then nth (s - start p) (replicate (seg_len p) 1%Q) 0%Q else 0%Q).
    split; [|split].
    + destruct (_ && _); [|apply Qle_refl]. apply nth_nonneg.
      apply Forall_replicate. discriminate.
    + apply nth_add_at.
    + intros w' [=].
Qed.

Lemma weigh_ge p cn s :
  nonneg_placement p -> (nth s cn 0 <= nth s (weigh p cn) 0)%Q.
Proof.
  intros Hp. destruct (nth_weigh p cn s Hp) as (v & Hv & Heq & _).
  rewrite Heq. rewrite <- (Qplus_0_r (nth s cn 0%Q)) at 1.
  apply Qplus_le_compat; [apply Qle_refl|exact Hv].
Qed.

Lemma length_weigh p cn : length (weigh p cn) = length cn.
Proof. unfold weigh. destruct (window_used p); apply length_add_at. Qed.

Lemma replay_ge ps : forall cn s,
  Forall nonneg_placement ps -> (nth s cn 0 <= nth s (replay ps cn) 0)%Q.
Proof.
  induction ps as [|p ps IH]; intros cn s Hps; cbn [replay fold_left]; [apply Qle_refl|].
  apply Forall_cons in Hps as [Hp Hps].
  eapply Qle_trans; [apply (weigh_ge p cn s Hp)|]. apply IH. exact Hps.
Qed.

(** A placement that covers [s] leaves at least its weight there. *)
Lemma replay_lower ps p w s : forall cn,
  In p ps -> window_used p = Some w -> Forall nonneg_placement ps ->
  (forall t, 0 <= nth t cn 0)%Q ->
  start p <= s -> s - start p < seg_len p -> s < length cn ->
  (nth (s - start p) w 0 <= nth s (replay ps cn) 0)%Q.
Proof.
  induction ps as [|q ps IH]; intros cn Hin Hw Hps Hcn H1 H2 H3; [destruct Hin|].
  apply Forall_cons in Hps as [Hq Hps]. cbn [replay fold_left].
  destruct Hin as [->|Hin].
  - eapply Qle_trans; [|apply replay_ge; exact Hps].
    destruct (nth_weigh p cn s Hq) as (v & Hv & Heq & Hval).
    rewrite Heq, (Hval w Hw H1 H3 H2).
    rewrite <- (Qplus_0_l (nth (s - start p) w 0%Q)) at 1.
    apply Qplus_le_compat; [apply Hcn|apply Qle_refl].
  - apply IH; try assumption.
    + intros t. eapply Qle_trans; [apply Hcn|]. apply weigh_ge. exact Hq.
    + rewrite length_weigh. exact H3.
Qed.

Lemma length_getWindowingArray size fade w :
  0 < fade -> 2 * fade <= size -> _getWindowingArray size fade = Done w -> length w = size.
Proof.
  intros Hf Hs. rewrite getWindowingArray_parts by assumption. intros [= <-].
  rewrite !length_app, !length_linspace, length_replicate. lia.
Qed.

(** Only the two end samples of the window can be zero. *)
Lemma window_positive size fade w t :
  0 < fade -> 2 * fade <= size -> _getWindowingArray size fade = Done w ->
  1 <= t -> t + 2 <= size -> (0 < nth t w 0)%Q.
Proof.
  intros Hf Hs. rewrite getWindowingArray_parts by assumption. intros [= <-] H1 H2.
  destruct (Nat.lt_ge_cases t fade) as [Hin|Hge].
  - rewrite app_nth1 by (rewrite length_linspace; lia).
    rewrite nth_linspace by lia.
    set (d := inject_Z (Z.of_nat (fade - 1))).
    assert (Hd : (0 < d)%Q).
    { subst d. change 0%Q with (inject_Z 0). rewrite <- Zlt_Qlt. lia. }
    rewrite Qplus_0_l. apply Qmult_lt_0_compat.
    + change 0%Q with (inject_Z 0). rewrite <- Zlt_Qlt. lia.
    + apply Qlt_shift_div_l; [exact Hd|]. reflexivity.
  - rewrite app_nth2 by (rewrite length_linspace; lia). rewrite length_linspace.
    destruct (Nat.lt_ge_cases (t - fade) (size - 2 * fade)) as [Hmid|Hout].
    + rewrite app_nth1 by (rewrite length_replicate; lia).
      rewrite (nth_lookup_Some _ _ _ 1%Q) by (apply lookup_replicate_2; lia). reflexivity.
    + rewrite app_nth2 by (rewrite length_replicate; lia). rewrite length_replicate.
      set (k := t - fade - (size - 2 * fade)).
      assert (Hk : k + 2 <= fade) by lia.
      rewrite nth_linspace by lia.
      set (d := inject_Z (Z.of_nat (fade - 1))).
      assert (Hd : (0 < d)%Q).
      { subst d. change 0%Q with (inject_Z 0). rewrite <- Zlt_Qlt. lia. }
      assert (E : (1 + inject_Z (Z.of_nat k) * ((0 - 1) / d)
                   == (d - inject_Z (Z.of_nat k)) / d)%Q)
        by (field; intros H0; rewrite H0 in Hd; discriminate Hd).
      change (t - fade - (size - (fade + (fade + 0)))) with k. rewrite E. apply Qlt_shift_div_l; [exact Hd|]. rewrite Qmult_0_l.
      rewrite <- (Qplus_opp_r (inject_Z (Z.of_nat k))).
      apply Qplus_lt_le_compat; [|apply Qle_refl].
      subst d. rewrite <- Zlt_Qlt. lia.
Qed.

Lemma batch_window_positive step fade w mix k t :
  (0 < nth t w 0)%Q -> (0 < nth t (batch_window step fade w mix k) 0)%Q.
Proof.
  intros Hw. unfold batch_window.
  assert (Hfill : forall lo hi, lo <= hi -> hi <= length w ->
                   (0 < nth t (fill_slice lo hi 1 w) 0)%Q).
  { intros lo hi Hlo Hhi. rewrite nth_fill_slice by assumption.
    destruct (_ && _); [reflexivity|exact Hw]. }
  destruct (_ =? 0); [apply Hfill; lia|].
  destruct (_ <=? _); [|exact Hw].
  apply Hfill; [|lia]. unfold tail_start. destruct (_ =? 0); lia.
Qed.

Lemma batch_window_first step fade w mix :
  0 < fade -> 0 < length w -> nth 0 (batch_window step fade w mix (0 + step)) 0%Q = 1%Q.
Proof.
  intros Hf Hw. unfold batch_window. replace (0 + step - step) with 0 by lia.
  cbn [Nat.eqb]. rewrite nth_fill_slice by lia.
  destruct (Nat.ltb_spec 0 (fade `min` length w)); [reflexivity|lia].
Qed.

(** Where the counter of a finished run is positive. *)
Lemma counter_positive chunk_size step fade batch_size w0 (mix : array2) st s :
  0 < fade -> 2 * fade <= chunk_size ->
  _getWindowingArray chunk_size fade = Done w0 ->
  1 <= step -> 2 * step <= chunk_size -> 4 <= chunk_size ->
  identity_inv chunk_size step fade batch_size w0 mix st ->
  map location (placed st)
  = schedule chunk_size step (cols mix) (ceil_div (cols mix) step) ->
  s < cols mix -> 1 <= s \/ batch_size <= 1 ->
  (0 < nth s (replay (placed st) (replicate (cols mix) 0%Q)) 0)%Q.
Proof.
  intros Hf Hfs Hw0 Hstep Hhalf HC (_ & _ & Hwin & Hone) Hsched Hs Hcase.
  set (P := cols mix) in *. set (n := ceil_div P step) in *.
  destruct (placed_lookup _ _ _ _ _ Hsched) as [Hlen Hnth].
  destruct (ceil_div_bound P step Hstep) as [Hup _]. fold n in Hup.
  pose proof (nonneg_getWindowingArray _ _ _ Hw0) as Hnn0.
  pose proof (length_getWindowingArray _ _ _ Hf Hfs Hw0) as Hlw0.
  assert (Hnn : Forall nonneg_placement (placed st)).
  { eapply Forall_impl; [exact Hwin|]. cbn beta. intros p [k Hk].
    unfold nonneg_placement. rewrite Hk. apply nonneg_batch_window. exact Hnn0. }
  assert (Hzero : forall t, (0 <= nth t (replicate P 0%Q) 0)%Q).
  { intros t. apply nth_nonneg. apply Forall_replicate. apply Qle_refl. }
  assert (Hcover : forall k t, k * step + t = s -> 1 <= t -> t <= step ->
                     (0 < nth s (replay (placed st) (replicate P 0%Q)) 0)%Q).
  { intros k t Hkt Ht1 Ht2.
    destruct (Hnth k ltac:(nia)) as (p & Hp & Hstart & Hseg).
    assert (Hin : In p (placed st)).
    { apply list_elem_of_In. eapply list_elem_of_lookup_2. exact Hp. }
    destruct (proj1 (List.Forall_forall _ _) Hwin p Hin) as [j Hj].
    eapply Qlt_le_trans; [|apply (replay_lower (placed st) p _ s _ Hin Hj Hnn Hzero)].
    - rewrite Hstart. replace (s - k * step) with t by lia.
      apply batch_window_positive.
      apply (window_positive chunk_size fade); [assumption ..|lia].
    - lia.
    - rewrite Hstart, Hseg. lia.
    - rewrite length_replicate. exact Hs. }
  destruct (Nat.eq_dec s 0) as [->|Hs0].
  - destruct Hcase as [|HB]; [lia|].
    destruct (Hnth 0 ltac:(nia)) as (p & Hp & Hstart & Hseg).
    assert (Hin : In p (placed st)).
    { apply list_elem_of_In. eapply list_elem_of_lookup_2. exact Hp. }
    destruct (Hone HB) as [_ Hfirst].
    pose proof (proj1 (List.Forall_forall _ _) Hfirst p Hin) as Hj.
    eapply Qlt_le_trans; [|apply (replay_lower (placed st) p _ 0 _ Hin Hj Hnn Hzero)].
    + rewrite Hstart. cbn [Nat.mul Nat.sub]. rewrite batch_window_first by lia. reflexivity.
    + lia.
    + rewrite Hstart, Hseg. lia.
    + rewrite length_replicate. exact Hs.
  - div_facts s step.
    destruct (Nat.eq_dec (s mod step) 0) as [Hr|Hr].
    + destruct (s / step) as [|q] eqn:Hq; [nia|].
      apply (Hcover q step); nia.
    + apply (Hcover (s / step) (s mod step)); nia.
Qed.

(** *** Normalisation gives the mixture back *)

Lemma Forall2_Qeq_nth (a b : row) :
  length a = length b ->
  (forall s, s < length a -> (nth s a 0 == nth s b 0)%Q) ->
  Forall2 Qeq a b.
Proof.
  revert b. induction a as [|x a IH]; intros [|y b] Hlen Hnth; cbn [length] in Hlen;
    try discriminate; constructor.
  - apply (Hnth 0). cbn. lia.
  - apply IH; [lia|]. intros s Hs. apply (Hnth (S s)). cbn. lia.
Qed.

Lemma nth_normalized_row (r cn : row) s :
  s < length r -> s < length cn ->
  nth s (zip_with (fun x c => nan_to_num (true_divide x c)) r cn) 0%Q
  = nan_to_num (true_divide (nth s r 0%Q) (nth s cn 0%Q)).
Proof.
  intros Hr Hc.
  destruct (lookup_lt_is_Some_2 r s Hr) as [x Hx].
  destruct (lookup_lt_is_Some_2 cn s Hc) as [c Hcv].
  rewrite (nth_lookup_Some _ _ _ _ Hx), (nth_lookup_Some _ _ _ _ Hcv).
  apply nth_lookup_Some. rewrite lookup_zip_with, Hx, Hcv. reflexivity.
Qed.

Lemma true_divide_positive x m c :
  (x == m * c)%Q -> (0 < c)%Q -> (nan_to_num (true_divide x c) == m)%Q.
Proof.
  intros Hx Hc. unfold true_divide.
  destruct (Qeq_bool c 0) eqn:E.
  - apply Qeq_bool_eq in E. rewrite E in Hc. discriminate Hc.
  - cbn [nan_to_num]. rewrite Hx. field. intros H0. rewrite H0 in Hc. discriminate Hc.
Qed.

(** A normalised row equals the mixture row wherever the counter is
    positive. *)
Lemma normalized_row ps (m r cn : row) lo hi :
  row_rel ps m r cn -> hi <= length m ->
  (forall s, lo <= s < hi -> (0 < nth s cn 0)%Q) ->
  Forall2 Qeq
          (drop lo (take hi (zip_with (fun x c => nan_to_num (true_divide x c)) r cn)))
          (drop lo (take hi m)).
Proof.
  intros (Hlen & Hcn & Hrel) Hhi Hpos.
  assert (Hlcn : length cn = length m).
  { rewrite Hcn, length_replay. apply length_replicate. }
  apply Forall2_Qeq_nth.
  - rewrite !length_drop, !length_take, length_zip_with. lia.
  - intros s Hs. rewrite length_drop, length_take, length_zip_with in Hs.
    rewrite !nth_skipn, !nth_firstn.
    destruct (Nat.ltb_spec (lo + s) hi); [|lia].
    rewrite nth_normalized_row by lia.
    apply true_divide_positive; [apply Hrel|]. apply Hpos. lia.
Qed.

Lemma strip_reflected b (m : row) :
  b < length m ->
  drop b (take (length (reflected b b m) - b) (reflected b b m)) = m.
Proof.
  intros Hb. rewrite length_reflected by lia. unfold reflected.
  assert (Hl : length (reverse (take b (drop 1 m))) = b).
  { rewrite length_reverse, length_take, length_drop. lia. }
  rewrite app_assoc, take_app_length' by (rewrite length_app, Hl; lia).
  rewrite drop_app_length' by (symmetry; exact Hl). reflexivity.
Qed.

Lemma rows_roundtrip ps (g h : row -> row) (mix R Cn : array2) :
  Forall3 (row_rel ps) (map h mix) R Cn ->
  (forall m r cn, In m mix -> row_rel ps (h m) r cn ->
                  Forall2 Qeq (g (zip_with (fun x c => nan_to_num (true_divide x c)) r cn)) m) ->
  Forall2 (Forall2 Qeq)
          (map g (zip_with (zip_with (fun x c => nan_to_num (true_divide x c))) R Cn))
          mix.
Proof.
  revert R Cn. induction mix as [|m mix IH]; intros R Cn H Hrow; cbn [map] in H.
  - inversion H; subst. constructor.
  - apply Forall3_cons_inv_l in H as (r & R' & cn & Cn' & -> & -> & Hr & H).
    cbn [zip_with map]. constructor.
    + apply Hrow; [left; reflexivity|exact Hr].
    + apply IH; [exact H|]. intros m' r' cn' Hin. apply Hrow. right. exact Hin.
Qed.

Lemma batch_preserving_identity : batch_preserving identity_model.
Proof. intros batch. unfold identity_model. apply length_map. Qed.

Lemma cols_reflected b (mix : array2) :
  mix <> [] -> b < cols mix -> cols (map (reflected b b) mix) = b + cols mix + b.
Proof.
  destruct mix as [|m mix]; [congruence|]. intros _ Hb. cbn [map cols] in *.
  apply length_reflected; exact Hb.
Qed.

(** The plan of a generic run whose chunk size admits a window. *)
Lemma demix_plan_generic cfg (mix : array2) :
  rectangular mix ->
  10 <= audio_chunk_size cfg -> 1 <= inference_num_overlap cfg ->
  let C := audio_chunk_size cfg in
  let step := C / inference_num_overlap cfg in
  let border := C - step in
  exists w0,
    _getWindowingArray C (C / 10) = Done w0
    /\ demix_plan cfg generic mix
       = Done {| p_chunk_size := C;
                 p_num_instruments := length (prefer_target_instrument cfg);
                 p_step := step; p_fade_size := C / 10; p_border := border;
                 p_length_init := cols mix; p_window := w0;
                 p_mix := if padded border (cols mix)
                          then map (reflected border border) mix else mix |}.
Proof.
  intros Hrect HC HO C step border. div_facts C 10.
  eexists. split; [apply getWindowingArray_parts; lia|].
  unfold demix_plan, floordiv. fold C.
  destruct (Nat.eqb_spec (inference_num_overlap cfg) 0) as [|_]; [lia|].
  cbn [mbind outcome_bind]. rewrite getWindowingArray_parts by lia.
  cbn [mbind outcome_bind]. fold step border.
  destruct (padded border (cols mix)) eqn:Hpad; [|reflexivity].
  rewrite (forM_Done _ (reflected border border)); [reflexivity|].
  unfold padded in Hpad. apply andb_true_iff in Hpad as [H1 _]. apply Nat.ltb_lt in H1.
  eapply Forall_impl; [exact Hrect|]. cbn beta. intros m Hm.
  unfold reflect_pad. rewrite Hm.
  destruct (Nat.ltb_spec border (cols mix)); [reflexivity|lia].
Qed.

(** C1, as the code has it: generic mode, one instrument, identity back
    end, a chunk size that admits a window (at least 10), an overlap
    factor between 2 and the chunk size, and either a buffer long enough
    to be border-padded or batches of one chunk.  Then [demix] returns,
    under the instrument's name, an array of the input's shape that equals
    the input sample for sample. *)
Theorem overlap_add_roundtrip (cfg : config) (mix : array2) (name model_type : string)
    (fl : flags) :
  select_mode fl model_type = generic ->
  prefer_target_instrument cfg = [name] ->
  rectangular mix -> mix <> [] ->
  10 <= audio_chunk_size cfg ->
  2 <= inference_num_overlap cfg <= audio_chunk_size cfg ->
  audio_chunk_size cfg < cols mix ->
  2 * (audio_chunk_size cfg - audio_chunk_size cfg / inference_num_overlap cfg) < cols mix
  \/ inference_batch_size cfg <= 1 ->
  exists n out,
    (forall fuel, n <= fuel ->
       demix fuel cfg identity_model mix model_type fl = Done (Mapping [(name, out)]))
    /\ Forall2 (Forall2 Qeq) out mix.
Proof.
  intros Hmode Hname Hrect Hne HC [HO2 HOC] _ Hcase.
  set (C := audio_chunk_size cfg) in *. set (O := inference_num_overlap cfg) in *.
  set (step := C / O) in *. set (border := C - step) in *.
  set (B := inference_batch_size cfg) in *.
  div_facts C O. div_facts C 10.
  assert (Hstep : 1 <= step) by (subst step; nia).
  assert (Hhalf : 2 * step <= C) by (subst step; nia).
  assert (Hborder : 0 < border) by (subst border; lia).
  destruct (demix_plan_generic cfg mix Hrect HC ltac:(fold O; lia)) as (w0 & Hw0 & Hplan).
  fold C O step border in Hw0, Hplan. rewrite Hname in Hplan. cbn [length] in Hplan.
  set (pmix := if padded border (cols mix) then map (reflected border border) mix else mix)
    in *.
  set (pl := {| p_chunk_size := C; p_num_instruments := 1; p_step := step;
                p_fade_size := C / 10; p_border := border; p_length_init := cols mix;
                p_window := w0; p_mix := pmix |}) in *.
  assert (Hprect : rectangular pmix).
  { apply (demix_plan_rectangular _ _ _ _ Hplan Hrect). }
  destruct (demix_loop_runs generic C step (C / 10) B w0 identity_model pmix
              [replicate (length pmix) (replicate (cols pmix) 0%Q)]
              [replicate (length pmix) (replicate (cols pmix) 0%Q)]
              Hstep Hprect batch_preserving_identity)
    as (st & Hrun & _ & Hsched & _).
  pose proof (identity_inv_run C step (C / 10) B w0 pmix Hprect _ st
                (Hrun _ (Nat.le_refl _))) as Hinv.
  pose proof Hinv as (_ & (R & Cn & HR & HCn & Hrel) & _).
  set (div := fun x c => nan_to_num (true_divide x c)).
  set (strip := fun r : row => drop border (take (length r - border) r)).
  exists (ceil_div (cols pmix) step),
         (if padded border (cols mix)
          then map strip (zip_with (zip_with div) R Cn)
          else zip_with (zip_with div) R Cn).
  assert (Hpos : forall s, s < cols pmix -> 1 <= s \/ B <= 1 ->
                   (0 < nth s (replay (placed st) (replicate (cols pmix) 0%Q)) 0)%Q).
  { intros s Hs Hs1.
    apply (counter_positive C step (C / 10) B w0 pmix st s); try assumption; lia. }
  split.
  - intros fuel Hfuel. unfold demix. rewrite Hmode, Hplan. cbn [mbind outcome_bind].
    unfold demix_run. cbn [p_chunk_size p_step p_fade_size p_window p_mix].
    change (initial_state pl)
      with (fresh [replicate (length pmix) (replicate (cols pmix) 0%Q)]
                  [replicate (length pmix) (replicate (cols pmix) 0%Q)]).
    change (p_chunk_size pl) with C. change (p_step pl) with step.
    change (p_fade_size pl) with (C / 10). change (p_window pl) with w0.
    change (p_mix pl) with pmix. fold B.
    rewrite (Hrun fuel Hfuel). cbn [mbind outcome_bind].
    unfold demix_finalize, strip_border, normalize. rewrite HR, HCn, Hname.
    cbn [p_border p_length_init pl zip_with].
    destruct (padded border (cols mix)); reflexivity.
  - assert (Hcn_len : forall m r cn, In m pmix -> row_rel (placed st) m r cn ->
                        length m = cols pmix
                        /\ cn = replay (placed st) (replicate (cols pmix) 0%Q)).
    { intros m r cn Hin (_ & Hcn & _).
      pose proof (proj1 (List.Forall_forall _ _) Hprect m Hin) as Hm.
      rewrite Hm in Hcn. auto. }
    destruct (padded border (cols mix)) eqn:Hpad.
    + unfold padded in Hpad. apply andb_true_iff in Hpad as [Hlong _]. apply Nat.ltb_lt in Hlong.
      assert (Hpm : pmix = map (reflected border border) mix)
        by first [reflexivity|subst pmix; rewrite Hpad; reflexivity].
      assert (Hcols' : cols pmix = border + cols mix + border).
      { rewrite Hpm. apply cols_reflected; [exact Hne|lia]. }
      rewrite Hpm in Hrel.
      apply (rows_roundtrip (placed st) strip (reflected border border)); [exact Hrel|].
      intros m r cn Hin Hrow.
      pose proof (proj1 (List.Forall_forall _ _) Hrect m Hin) as Hm.
      destruct (Hcn_len (reflected border border m) r cn) as [Hlm Hcn];
        [rewrite Hpm; apply in_map; exact Hin|exact Hrow|].
      pose proof (normalized_row (placed st) _ r cn border (border + cols mix) Hrow
                    ltac:(lia)) as Hnorm.
      subst strip. cbn beta.
      assert (Hlen_row : length (zip_with div r cn) = border + cols mix + border).
      { destruct Hrow as (Hlr & _ & _). rewrite length_zip_with, Hlr, Hcn, length_replay,
          length_replicate. lia. }
      unfold div in Hlen_row. cbn beta in Hm.
      rewrite Hlen_row. replace (border + cols mix + border - border)
        with (border + cols mix) by lia.
      pose proof (strip_reflected border m ltac:(lia)) as Hsr.
      rewrite length_reflected, Hm in Hsr by lia.
      replace (border + cols mix + border - border) with (border + cols mix) in Hsr by lia.
      rewrite Hsr in Hnorm. apply Hnorm.
      intros s Hs. rewrite Hcn. apply Hpos; lia.
    + assert (Hpm : pmix = mix)
        by first [reflexivity|subst pmix; rewrite Hpad; reflexivity].
      rewrite Hpm in *.
      assert (HB : B <= 1).
      { destruct Hcase as [Hlong|HB]; [|exact HB]. exfalso.
        unfold padded in Hpad. apply andb_false_iff in Hpad as [Hshort|Hzero].
        - apply Nat.ltb_ge in Hshort. subst border step C O. lia.
        - apply Nat.ltb_ge in Hzero. lia. }
      rewrite <- (map_id (zip_with (zip_with div) R Cn)).
      apply (rows_roundtrip (placed st) (fun r => r) (fun m => m)).
      { rewrite map_id. exact Hrel. }
      intros m r cn Hin Hrow.
      destruct (Hcn_len m r cn Hin Hrow) as [Hlm Hcn].
      pose proof (normalized_row (placed st) m r cn 0 (length m) Hrow (Nat.le_refl _))
        as Hnorm.
      rewrite !drop_0, !take_ge in Hnorm.
      * apply Hnorm. intros s Hs. rewrite Hcn. apply Hpos; [lia|right; exact HB].
      * lia.
      * destruct Hrow as (Hlr & _ & _).
        rewrite length_zip_with, Hlr, Hcn, length_replay, length_replicate. lia.
Qed.

Lemma overlap_add_roundtrip_witness :
  exists n out,
    demix n cfg_10_2 identity_model [ramp 12] "mdx23c" native
    = Done (Mapping [("vocals", out)])
    /\ Forall2 (Forall2 Qeq) out [ramp 12].
Proof.
  destruct (overlap_add_roundtrip cfg_10_2 [ramp 12] "vocals" "mdx23c" native)
    as (n & out & Hrun & Heq).
  - reflexivity.
  - reflexivity.
  - repeat constructor.
  - discriminate.
  - cbn. lia.
  - cbn. lia.
  - cbn. lia.
  - left. cbn. lia.
  - exists n, out. split; [apply Hrun; lia|exact Heq].
Defined.

(** C1 as stated fails: a chunk size below the buffer length and an
    overlap factor of at least 2 do not make [demix] return.  With 10
    samples per chunk and an overlap factor of 11 the step is 0 and the
    loop never leaves the first chunk. *)
Lemma overlap_add_roundtrip_counterexample :
  select_mode native "mdx23c" = generic
  /\ prefer_target_instrument cfg_10_11 = ["vocals"]
  /\ audio_chunk_size cfg_10_11 < cols [ramp 11]
  /\ 2 <= inference_num_overlap cfg_10_11
  /\ ~ exists fuel out,
         demix fuel cfg_10_11 identity_model [ramp 11] "mdx23c" native
         = Done (Mapping [("vocals", out)])
         /\ Forall2 (Forall2 Qeq) out [ramp 11].
Proof.
  split; [reflexivity|]. split; [reflexivity|]. split; [cbn; lia|]. split; [cbn; lia|].
  intros (fuel & out & Hd & _). unfold demix in Hd.
  evar (pl : plan).
  assert (Hpl : demix_plan cfg_10_11 (select_mode native "mdx23c") [ramp 11] = Done pl)
    by (subst pl; vm_compute; reflexivity).
  rewrite Hpl in Hd. cbn [mbind outcome_bind] in Hd.
  destruct (demix_run fuel _ _ _ pl) as [st| |] eqn:Hrun; cbn [mbind outcome_bind] in Hd;
    [|discriminate ..].
  revert Hrun. unfold demix_run. apply demix_loop_stuck.
  - subst pl. reflexivity.
  - subst pl. cbn. lia.
Qed.

(** The same claim fails for chunks of fewer than 10 samples: no window
    can be built ([fade_size] is 0) and [demix] raises before the loop. *)
Lemma overlap_add_short_chunk_raises fuel :
  demix fuel cfg_5_2 identity_model [ramp 6] "mdx23c" native = Raised RuntimeError.
Proof. reflexivity. Qed.

(** Where the amended statement stops: a buffer too short to be padded
    and two chunks per batch.  The first chunk keeps its fade-in, the
    counter of sample 0 stays 0 and the sample comes out as 0, not 1. *)
Lemma overlap_add_two_per_batch_first_sample :
  exists out,
    demix 5 cfg_12_4 identity_model [ramp 13] "mdx23c" native
    = Done (Mapping [("vocals", [out])])
    /\ nth 0 out 1%Q = 0%Q /\ nth 0 (ramp 13) 0%Q = 1%Q.
Proof.
  eexists. split; [vm_compute; reflexivity|]. split; reflexivity.
Qed.


(** * Further properties *)

Lemma In_lookup {A : Type} (l : list A) x : In x l -> exists k, l !! k = Some x.
Proof. intros H. apply list_elem_of_lookup_1, list_elem_of_In. exact H. Qed.

Lemma lookup_In {A : Type} (l : list A) k x : l !! k = Some x -> In x l.
Proof. intros H. apply list_elem_of_In. eapply list_elem_of_lookup_2. exact H. Qed.

(** ** The counter as a sum over placements *)

Lemma nth_weigh_eq p cn s :
  (nth s (weigh p cn) 0 == nth s cn 0 + weight_at p s (length cn))%Q.
Proof.
  unfold weigh, weight_at. destruct (window_used p); apply nth_add_at.
Qed.

Lemma total_weight_cons p ps s len :
  total_weight (p :: ps) s len = (weight_at p s len + total_weight ps s len)%Q.
Proof. reflexivity. Qed.

Lemma replay_cons p ps cn : replay (p :: ps) cn = replay ps (weigh p cn).
Proof. reflexivity. Qed.

Lemma nth_replay ps : forall cn s,
  (nth s (replay ps cn) 0 == nth s cn 0 + total_weight ps s (length cn))%Q.
Proof.
  induction ps as [|p ps IH]; intros cn s.
  - unfold replay, total_weight. cbn [fold_left fold_right]. ring.
  - rewrite replay_cons, total_weight_cons, IH, nth_weigh_eq, length_weigh. ring.
Qed.

Lemma total_weight_app ps qs s len :
  (total_weight (ps ++ qs) s len == total_weight ps s len + total_weight qs s len)%Q.
Proof.
  induction ps as [|p ps IH].
  - unfold total_weight at 2. cbn [app fold_right]. ring.
  - rewrite <- app_comm_cons, !total_weight_cons, IH. ring.
Qed.

Lemma total_weight_zero ps s len :
  Forall (fun p => weight_at p s len == 0)%Q ps -> (total_weight ps s len == 0)%Q.
Proof.
  induction 1 as [|p ps Hp _ IH]; [reflexivity|].
  rewrite total_weight_cons, Hp, IH. reflexivity.
Qed.

(** The weight at [s] when only the [k]-th placement can reach [s]. *)
Lemma total_weight_single ps k p s len :
  ps !! k = Some p ->
  (forall j q, ps !! j = Some q -> j <> k -> weight_at q s len == 0)%Q ->
  (total_weight ps s len == weight_at p s len)%Q.
Proof.
  intros Hk Hothers.
  rewrite <- (take_drop_middle ps k p Hk).
  rewrite total_weight_app, total_weight_cons.
  rewrite (total_weight_zero (take k ps)), (total_weight_zero (drop (S k) ps)).
  - ring.
  - apply Forall_lookup. intros j q Hq. rewrite lookup_drop in Hq.
    apply (Hothers _ _ Hq). lia.
  - apply Forall_lookup. intros j q Hq. apply lookup_take_Some in Hq as [Hq Hj].
    apply (Hothers _ _ Hq). lia.
Qed.

Lemma weight_at_outside p s len :
  s < start p \/ start p + seg_len p <= s -> weight_at p s len = 0%Q.
Proof.
  intros Hout. unfold weight_at.
  destruct (Nat.leb_spec (start p) s) as [Hs|Hs]; cbn [andb]; [|reflexivity].
  destruct (s <? len); [|reflexivity].
  apply nth_overflow. destruct (window_used p).
  - rewrite length_take. lia.
  - rewrite length_replicate. lia.
Qed.

(** ** What every run keeps *)

Lemma accumulate_counter md w loc xj r c :
  (accumulate md w loc xj (r, c)).2 = map (map (weigh (placement_of md w loc))) c.
Proof.
  destruct loc as [start seg]. unfold accumulate, weigh, placement_of.
  destruct md; reflexivity.
Qed.

Lemma accumulate_batch_counter md w locs : forall x r c r' c',
  accumulate_batch md w locs x (r, c) = Done (r', c') ->
  c' = map (map (replay (map (placement_of md w) locs))) c.
Proof.
  induction locs as [|loc locs IH]; intros x r c r' c'; cbn [accumulate_batch].
  - intros [= <- <-]. cbn [map replay fold_left].
    rewrite <- (map_id c) at 1. apply map_ext. intros m.
    rewrite <- (map_id m) at 1. reflexivity.
  - destruct x as [|xj x]; [discriminate|].
    destruct (accumulate md w loc xj (r, c)) as [r1 c1] eqn:Hacc.
    intros Hrun. apply IH in Hrun. subst c'.
    pose proof (accumulate_counter md w loc xj r c) as Hc. rewrite Hacc in Hc.
    cbn [snd] in Hc. subst c1.
    rewrite map_map. apply map_ext. intros m. rewrite map_map. reflexivity.
Qed.

Section EveryRun.

Variable md : mode.
Variable chunk_size step fade_size batch_size : nat.
Variable w0 : row.
Variable model : list array2 -> list array3.
Variable mix : array2.

Local Abbreviation body :=
  (loop_body md chunk_size step fade_size batch_size w0 model mix).
Local Abbreviation loop :=
  (demix_loop md chunk_size step fade_size batch_size w0 model mix).

Lemma placed_inv_body c0 st st' :
  placed_inv md step fade_size w0 mix c0 st -> body st = Done st' ->
  placed_inv md step fade_size w0 mix c0 st'.
Proof.
  intros (Hc & Hwin & Hpend) Hb.
  apply loop_body_inv in Hb as (part & _ & Hcase). cbn zeta in Hcase.
  set (loc := (i st, cols (map (fun r => take chunk_size (drop (i st) r)) mix))) in *.
  destruct Hcase as [(rc & Hacc & ->)|[_ ->]]; cbn [counter placed batch_locations i].
  - destruct rc as [r' c']. apply accumulate_batch_counter in Hacc.
    cbn [counter placed batch_locations i fst snd].
    split; [|split; [|constructor]].
    + rewrite Hacc, Hc, map_map. apply map_ext. intros m. rewrite map_map.
      apply map_ext. intros cn. unfold replay. cbn [placed].
      rewrite fold_left_app. reflexivity.
    + apply Forall_app. split; [exact Hwin|].
      apply List.Forall_forall. intros p Hp.
      apply in_map_iff in Hp as (l & <- & Hl).
      unfold placement_of. cbn [start window_used]. destruct md; [|reflexivity].
      exists (i st + step). split; [|reflexivity].
      apply in_app_or in Hl as [Hl|[<-|[]]].
      * pose proof (proj1 (List.Forall_forall _ _) Hpend l Hl) as Hle. cbn beta in Hle. lia.
      * subst loc. cbn [fst]. lia.
  - split; [exact Hc|]. split; [exact Hwin|].
    apply Forall_app. split.
    + eapply Forall_impl; [exact Hpend|]. cbn beta. intros l Hl. simpl. lia.
    + constructor; [|constructor]. subst loc. simpl. lia.
Qed.

Lemma placed_inv_run fuel r c st :
  loop fuel (fresh r c) = Done st -> placed_inv md step fade_size w0 mix c st.
Proof.
  intros Hrun.
  apply (demix_loop_invariant md chunk_size step fade_size batch_size w0 model mix
           (placed_inv md step fade_size w0 mix c)) in Hrun; [tauto| |].
  - intros st1 st2 H1 _. apply placed_inv_body. exact H1.
  - split; [|split; constructor]. cbn [counter fresh placed].
    rewrite <- (map_id c) at 1. apply map_ext. intros m.
    rewrite <- (map_id m) at 1. reflexivity.
Qed.

(** A finished run is the run of [demix_loop_runs]. *)
Lemma demix_loop_final fuel r c st :
  1 <= step -> rectangular mix -> batch_preserving model ->
  loop fuel (fresh r c) = Done st ->
  map location (placed st)
  = schedule chunk_size step (cols mix) (ceil_div (cols mix) step).
Proof.
  intros Hstep Hrect Hmodel Hrun.
  destruct (demix_loop_runs md chunk_size step fade_size batch_size w0 model mix r c
              Hstep Hrect Hmodel) as (st' & Hrun' & _ & Hsched & _).
  set (n := fuel `max` ceil_div (cols mix) step).
  assert (H1 : loop n (fresh r c) = Done st).
  { apply (demix_loop_more_fuel md chunk_size step fade_size batch_size w0 model mix
             fuel n _ _ Hrun). subst n. lia. }
  rewrite Hrun' in H1 by (subst n; lia). injection H1 as <-. exact Hsched.
Qed.

End EveryRun.


(** ** [demix]: what it refuses, what it returns *)

Lemma demix_inv fuel cfg model mix model_type fl out :
  demix fuel cfg model mix model_type fl = Done out ->
  exists pl st,
    demix_plan cfg (select_mode fl model_type) mix = Done pl
    /\ demix_run fuel (select_mode fl model_type) (inference_batch_size cfg) model pl
       = Done st
    /\ out = demix_finalize cfg (select_mode fl model_type) pl st.
Proof.
  unfold demix. cbn zeta.
  destruct (demix_plan _ _ _) as [pl| |] eqn:Hpl; cbn [mbind outcome_bind];
    [|discriminate ..].
  destruct (demix_run _ _ _ _ _) as [st| |] eqn:Hrun; cbn [mbind outcome_bind];
    [|discriminate ..].
  intros [= <-]. exists pl, st. auto.
Qed.

Lemma getWindowingArray_no_fade size :
  1 <= size -> _getWindowingArray size 0 = Raised RuntimeError.
Proof.
  intros Hs. unfold _getWindowingArray, setitem_slice, tail_start.
  cbn [linspace length Nat.eqb]. rewrite Nat.sub_0_r.
  destruct size; [lia|]. reflexivity.
Qed.

(** X1: [demix] refuses a zero overlap with ZeroDivisionError in both
    modes and, in generic mode, a chunk size from 1 to 9 with RuntimeError
    (the fade of [chunk_size // 10 = 0] samples cannot be written into the
    window), whatever the loop budget and the back end; every other
    configuration passes the set-up on a rectangular mixture. *)
Theorem demix_setup_errors (cfg : config) (model : list array2 -> list array3)
    (mix : array2) (model_type : string) (fl : flags) :
  (inference_num_overlap cfg = 0 ->
     forall fuel, demix fuel cfg model mix model_type fl = Raised ZeroDivisionError)
  /\ (inference_num_overlap cfg <> 0 -> select_mode fl model_type = generic ->
      1 <= audio_chunk_size cfg <= 9 ->
      forall fuel, demix fuel cfg model mix model_type fl = Raised RuntimeError)
  /\ (inference_num_overlap cfg <> 0 -> rectangular mix ->
      select_mode fl model_type = demucs
      \/ audio_chunk_size cfg = 0 \/ 10 <= audio_chunk_size cfg ->
      exists pl, demix_plan cfg (select_mode fl model_type) mix = Done pl).
Proof.
  split; [|split].
  - intros HO fuel. unfold demix, demix_plan, floordiv. cbn zeta.
    rewrite HO. destruct (select_mode fl model_type); reflexivity.
  - intros HO Hmd HC fuel. unfold demix, demix_plan, floordiv. cbn zeta. rewrite Hmd.
    destruct (Nat.eqb_spec (inference_num_overlap cfg) 0) as [|_]; [contradiction|].
    cbn [mbind outcome_bind].
    replace (audio_chunk_size cfg / 10) with 0 by (symmetry; apply Nat.div_small; lia).
    rewrite getWindowingArray_no_fade by lia. reflexivity.
  - intros HO Hrect [Hmd|[HC|HC]].
    + rewrite Hmd. unfold demix_plan, floordiv.
      destruct (Nat.eqb_spec (inference_num_overlap cfg) 0) as [|_]; [contradiction|].
      cbn [mbind outcome_bind]. eauto.
    + destruct (select_mode fl model_type); unfold demix_plan, floordiv;
        (destruct (Nat.eqb_spec (inference_num_overlap cfg) 0) as [|_]; [contradiction|]);
        cbn [mbind outcome_bind]; [|eauto].
      rewrite HC. change (0 / 10) with 0. change (_getWindowingArray 0 0) with (Done (@nil Q)).
      cbn [mbind outcome_bind]. unfold padded. rewrite Nat.sub_0_l, andb_false_r. eauto.
    + destruct (select_mode fl model_type).
      * destruct (demix_plan_generic cfg mix Hrect HC ltac:(lia)) as (w0 & _ & Hpl). eauto.
      * unfold demix_plan, floordiv.
        destruct (Nat.eqb_spec (inference_num_overlap cfg) 0) as [|_]; [contradiction|].
        cbn [mbind outcome_bind]. eauto.
Qed.

Lemma demix_setup_errors_witness :
  demix 1 cfg_5_2 identity_model [ramp 6] "mdx23c" native = Raised RuntimeError
  /\ exists pl, demix_plan cfg_10_2 (select_mode native "mdx23c") [ramp 12] = Done pl.
Proof.
  destruct (demix_setup_errors cfg_5_2 identity_model [ramp 6] "mdx23c" native)
    as (_ & Hsmall & _).
  destruct (demix_setup_errors cfg_10_2 identity_model [ramp 12] "mdx23c" native)
    as (_ & _ & Hplan).
  split.
  - apply Hsmall; [discriminate|reflexivity|cbn; lia].
  - apply Hplan; [discriminate|repeat constructor|right; right; cbn; lia].
Defined.

(** *** Shapes *)

Lemma Forall_inplace {A B : Type} (P : A -> Prop) (f : A -> B -> A) dst : forall src,
  Forall P dst -> (forall d s, P d -> P (f d s)) -> Forall P (inplace f dst src).
Proof.
  induction dst as [|d dst IH]; intros [|s src] Hd Hf; cbn [inplace]; try assumption.
  inversion Hd; subst. constructor; auto.
Qed.

Lemma Forall_zip_with_both {A B C : Type} (P1 : A -> Prop) (P2 : B -> Prop)
    (P3 : C -> Prop) (f : A -> B -> C) l : forall k,
  Forall P1 l -> Forall P2 k -> (forall a b, P1 a -> P2 b -> P3 (f a b)) ->
  Forall P3 (zip_with f l k).
Proof.
  induction l as [|a l IH]; intros [|b k] Hl Hk Hf; cbn [zip_with]; try constructor.
  - inversion Hl; inversion Hk; subst. auto.
  - inversion Hl; inversion Hk; subst. apply IH; auto.
Qed.

Lemma shape3_zeros n ch len :
  shape3 n ch len (replicate n (replicate ch (replicate len 0%Q))).
Proof.
  split; [apply length_replicate|]. apply Forall_replicate.
  split; [apply length_replicate|]. apply Forall_replicate, length_replicate.
Qed.

Lemma shape3_accumulate md w loc xj n ch len r c :
  shape3 n ch len r -> shape3 n ch len c ->
  shape3 n ch len (accumulate md w loc xj (r, c)).1
  /\ shape3 n ch len (accumulate md w loc xj (r, c)).2.
Proof.
  intros [Hr1 Hr2] [Hc1 Hc2]. destruct loc as [s seg]. unfold accumulate, shape3.
  destruct md; cbn [fst snd]; rewrite length_inplace, length_map.
  all: split; (split; [assumption|]).
  all: try (apply Forall_inplace; [exact Hr2|]; intros m xm [Hm1 Hm2];
            split; [rewrite length_inplace; exact Hm1|];
            apply Forall_inplace; [exact Hm2|]; intros d s0 Hd;
            rewrite length_add_at; exact Hd).
  all: apply List.Forall_map; eapply Forall_impl; [exact Hc2|];
       intros m [Hm1 Hm2]; cbn beta; rewrite length_map; (split; [exact Hm1|]);
       apply List.Forall_map; eapply Forall_impl; [exact Hm2|];
       intros d Hd; cbn beta; rewrite length_add_at; exact Hd.
Qed.

Lemma demix_run_shape fuel md batch_size model pl st :
  demix_run fuel md batch_size model pl = Done st ->
  shape3 (p_num_instruments pl) (length (p_mix pl)) (cols (p_mix pl)) (result st)
  /\ shape3 (p_num_instruments pl) (length (p_mix pl)) (cols (p_mix pl)) (counter st).
Proof.
  unfold demix_run. intros Hrun.
  apply (demix_loop_accumulators md (p_chunk_size pl) (p_step pl) (p_fade_size pl)
           batch_size (p_window pl) model (p_mix pl)
           (fun rc => shape3 (p_num_instruments pl) (length (p_mix pl)) (cols (p_mix pl)) rc.1
                      /\ shape3 (p_num_instruments pl) (length (p_mix pl))
                                (cols (p_mix pl)) rc.2)) in Hrun.
  - exact Hrun.
  - intros k loc xj [r c] [Hr Hc]. apply shape3_accumulate; assumption.
  - cbn. split; apply shape3_zeros.
Qed.

Lemma shape3_normalize n ch len r c :
  shape3 n ch len r -> shape3 n ch len c -> shape3 n ch len (normalize r c).
Proof.
  intros [Hr1 Hr2] [Hc1 Hc2]. unfold normalize. split.
  - rewrite length_zip_with. lia.
  - apply (Forall_zip_with_both
             (fun m => length m = ch /\ Forall (fun r : row => length r = len) m)
             (fun m => length m = ch /\ Forall (fun r : row => length r = len) m));
      [exact Hr2|exact Hc2|].
    intros a b [Ha1 Ha2] [Hb1 Hb2]. split; [rewrite length_zip_with; lia|].
    apply (Forall_zip_with_both (fun r : row => length r = len)
             (fun r : row => length r = len)); [exact Ha2|exact Hb2|].
    intros x y Hx Hy. rewrite length_zip_with. lia.
Qed.

Lemma shape3_strip_border md pl n ch len a :
  shape3 n ch (strip_offset md pl + len + strip_offset md pl) a ->
  shape3 n ch len (strip_border md pl a).
Proof.
  unfold strip_border, strip_offset.
  destruct md; [destruct (padded _ _)|]; intros [Ha1 Ha2].
  - split; [rewrite length_map; exact Ha1|].
    apply List.Forall_map. eapply Forall_impl; [exact Ha2|].
    intros m [Hm1 Hm2]. cbn beta. split; [rewrite length_map; exact Hm1|].
    apply List.Forall_map. eapply Forall_impl; [exact Hm2|].
    intros r Hr. cbn beta in *. rewrite length_drop, length_take. lia.
  - replace (0 + len + 0) with len in Ha2 by lia. split; assumption.
  - replace (0 + len + 0) with len in Ha2 by lia. split; assumption.
Qed.

(** The rows [demix] labels have the shape of the input. *)
Lemma demix_rows_shape fuel cfg md model mix pl st :
  demix_plan cfg md mix = Done pl -> rectangular mix ->
  demix_run fuel md (inference_batch_size cfg) model pl = Done st ->
  shape3 (p_num_instruments pl) (length mix) (cols mix)
         (strip_border md pl (normalize (result st) (counter st))).
Proof.
  intros Hpl Hrect Hrun.
  destruct (demix_run_shape _ _ _ _ _ _ Hrun) as [Hr Hc].
  pose proof (shape3_normalize _ _ _ _ _ Hr Hc) as Hn.
  apply shape3_strip_border.
  apply demix_plan_inv in Hpl as (_ & _ & Hinit & Hmd).
  unfold strip_offset. destruct md.
  - destruct Hmd as (_ & _ & _ & _ & _ & Hmix). rewrite Hinit.
    destruct (padded (p_border pl) (cols mix)) eqn:Hpad.
    + destruct Hmix as [Hmix _]. rewrite Hmix in Hn.
      unfold padded in Hpad. apply andb_prop in Hpad as [Hpad _].
      apply Nat.ltb_lt in Hpad.
      rewrite length_map, cols_reflected in Hn; [exact Hn| |lia].
      intros ->. cbn in Hpad. lia.
    + rewrite Hmix in Hn. replace (0 + cols mix + 0) with (cols mix) by lia. exact Hn.
  - destruct Hmd as (_ & _ & Hmix). rewrite Hmix in Hn.
    replace (0 + cols mix + 0) with (cols mix) by lia. exact Hn.
Qed.

Lemma Forall_dict_set {V : Type} (P : V -> Prop) k v (d : list (string * V)) :
  P v -> Forall (fun kv => P kv.2) d -> Forall (fun kv => P kv.2) (dict_set k v d).
Proof.
  intros Hv. induction 1 as [|[k' v'] d Hk Hd IH]; cbn [dict_set].
  - repeat constructor. exact Hv.
  - destruct (String.eqb k' k); constructor; auto.
Qed.

Lemma Forall_dict_of {V : Type} (P : V -> Prop) (pairs : list (string * V)) :
  Forall (fun kv => P kv.2) pairs -> Forall (fun kv => P kv.2) (dict_of pairs).
Proof.
  unfold dict_of.
  generalize (@nil (string * V)) (List.Forall_nil (fun kv : string * V => P kv.2)).
  induction pairs as [|kv pairs IH]; intros acc Hacc Hp; cbn [fold_left]; [exact Hacc|].
  inversion Hp; subst. apply IH; [|assumption]. apply Forall_dict_set; assumption.
Qed.

Lemma Forall_zip_snd {V : Type} (P : V -> Prop) (names : list string) : forall rows : list V,
  Forall P rows -> Forall (fun kv => P kv.2) (zip names rows).
Proof.
  induction names as [|k names IH]; intros [|v rows] Hr; cbn; try constructor.
  - inversion Hr; subst. assumption.
  - inversion Hr; subst. apply IH. assumption.
Qed.

(** X2: for a back end that keeps the output contract (one output per
    chunk, one stem per instrument, each with the channels and samples of
    the chunk), when [demix] returns, every stem it gives back has the
    shape of the input mixture: as many channels, and as many samples per
    channel, the border padding of the generic mode removed.  The raw
    array of the demucs mode has one such stem per instrument. *)
Theorem demix_output_shape (fuel : nat) (cfg : config)
    (model : list array2 -> list array3) (mix : array2) (model_type : string)
    (fl : flags) (out : separated) :
  rectangular mix ->
  keeps_contract (length (instruments_of cfg (select_mode fl model_type))) model ->
  demix fuel cfg model mix model_type fl = Done out ->
  match out with
  | RawArray a => length a = length (training_instruments cfg) /\ Forall (stem_like mix) a
  | Mapping d => Forall (fun kv => stem_like mix kv.2) d
  end.
Proof.
  intros Hrect _ Hrun. apply demix_inv in Hrun as (pl & st & Hpl & Hrun & ->).
  destruct (demix_rows_shape _ _ _ _ _ _ _ Hpl Hrect Hrun) as [Hlen Hrows].
  apply demix_plan_inv in Hpl as (_ & _ & _ & Hmd).
  unfold demix_finalize. cbn zeta. destruct (select_mode fl model_type).
  - apply Forall_dict_of, Forall_zip_snd. exact Hrows.
  - destruct Hmd as (_ & Hn & _). destruct (p_num_instruments pl <=? 1).
    + split; [congruence|exact Hrows].
    + apply Forall_dict_of, Forall_zip_snd. exact Hrows.
Qed.

Lemma demix_output_shape_witness :
  exists d,
    demix 5 cfg_10_2 identity_model stereo_12 "mdx23c" native = Done (Mapping d)
    /\ Forall (fun kv => stem_like stereo_12 kv.2) d.
Proof.
  evar (d : list (string * array2)).
  assert (H : demix 5 cfg_10_2 identity_model stereo_12 "mdx23c" native
              = Done (Mapping d)) by (subst d; vm_compute; reflexivity).
  exists d. split; [exact H|].
  apply (demix_output_shape 5 cfg_10_2 identity_model stereo_12 "mdx23c" native
           (Mapping d)); [repeat constructor| |exact H].
  intros batch. unfold identity_model. change (map ?g ?l) with (g <$> l).
  apply Forall2_fmap_r, Forall_Forall2_diag, Forall_true. intros chunk.
  split; [reflexivity|]. constructor; [|constructor].
  apply Forall_Forall2_diag, Forall_true. reflexivity.
Defined.

(** X3: a non-empty [target_instrument] overrides the instrument list: in
    generic mode [demix] then returns a mapping with that one name,
    bound to a stem of the input's shape, however many instruments the
    configuration lists. *)
Theorem demix_target_instrument (fuel : nat) (cfg : config)
    (model : list array2 -> list array3) (mix : array2) (model_type : string)
    (fl : flags) (out : separated) (t : string) :
  training_target_instrument cfg = Some t -> t <> "" ->
  select_mode fl model_type = generic ->
  rectangular mix ->
  demix fuel cfg model mix model_type fl = Done out ->
  exists a, out = Mapping [(t, a)] /\ stem_like mix a.
Proof.
  intros Ht Hne Hmd Hrect Hrun.
  apply demix_inv in Hrun as (pl & st & Hpl & Hrun & ->). rewrite Hmd in *.
  destruct (demix_rows_shape _ _ _ _ _ _ _ Hpl Hrect Hrun) as [Hlen Hrows].
  apply demix_plan_inv in Hpl as (_ & _ & _ & _ & Hn & _).
  assert (Hnames : prefer_target_instrument cfg = [t]).
  { unfold prefer_target_instrument. rewrite Ht.
    destruct (String.eqb_spec t ""); [contradiction|reflexivity]. }
  rewrite Hnames in Hn. cbn [length] in Hn. rewrite Hn in Hlen.
  unfold demix_finalize. cbn zeta. rewrite Hnames.
  destruct (strip_border generic pl (normalize (result st) (counter st)))
    as [|a [|b rows]]; try discriminate.
  exists a. split; [reflexivity|]. inversion Hrows; subst. assumption.
Qed.

Lemma demix_target_instrument_witness :
  exists a,
    demix 5 cfg_target identity_model [ramp 12] "mdx23c" native = Done (Mapping [("vocals", a)])
    /\ stem_like [ramp 12] a.
Proof.
  destruct (demix 5 cfg_target identity_model [ramp 12] "mdx23c" native)
    as [out| |] eqn:H; [|vm_compute in H; discriminate ..].
  destruct (demix_target_instrument 5 cfg_target identity_model [ramp 12] "mdx23c" native
              out "vocals") as (a & -> & Ha);
    [reflexivity|discriminate|reflexivity|repeat constructor|exact H|].
  exists a. split; [reflexivity|exact Ha].
Defined.


(** ** What the counter holds at the end of a run *)

Lemma sample_replayed ps n ch len inst c s cv :
  sample (map (map (replay ps)) (replicate n (replicate ch (replicate len 0%Q))))
         inst c s = Some cv ->
  s < len /\ (cv == total_weight ps s len)%Q.
Proof.
  unfold sample. change (map ?f ?l) with (f <$> l). rewrite list_lookup_fmap.
  destruct (replicate n (replicate ch (replicate len 0%Q)) !! inst) as [m|] eqn:Hm;
    [|discriminate].
  apply lookup_replicate in Hm as [-> _]. cbn [fmap option_fmap option_map mbind option_bind].
  change (map ?f ?l) with (f <$> l). rewrite list_lookup_fmap.
  destruct (replicate ch (replicate len 0%Q) !! c) as [r|] eqn:Hr; [|discriminate].
  apply lookup_replicate in Hr as [-> _]. cbn [fmap option_fmap option_map mbind option_bind].
  intros Hs. pose proof (lookup_lt_Some _ _ _ Hs) as Hlt.
  rewrite length_replay, length_replicate in Hlt. split; [exact Hlt|].
  rewrite <- (nth_lookup_Some _ _ 0%Q _ Hs), nth_replay, length_replicate.
  rewrite (nth_lookup_Some (replicate len 0%Q) s 0%Q 0%Q).
  - ring.
  - apply lookup_replicate. auto.
Qed.

(** The counter of a finished run, sample by sample. *)
Lemma demix_run_counter fuel md batch_size model pl st inst c s cv :
  demix_run fuel md batch_size model pl = Done st ->
  sample (counter st) inst c s = Some cv ->
  s < cols (p_mix pl) /\ (cv == total_weight (placed st) s (cols (p_mix pl)))%Q.
Proof.
  unfold demix_run. intros Hrun Hcv.
  apply (placed_inv_run md (p_chunk_size pl) (p_step pl) (p_fade_size pl) batch_size
           (p_window pl) model (p_mix pl) fuel) in Hrun as (Hc & _).
  rewrite Hc in Hcv. apply sample_replayed in Hcv. exact Hcv.
Qed.

Lemma demix_run_placed fuel md batch_size model pl st :
  1 <= p_step pl -> rectangular (p_mix pl) -> batch_preserving model ->
  demix_run fuel md batch_size model pl = Done st ->
  map location (placed st)
  = schedule (p_chunk_size pl) (p_step pl) (cols (p_mix pl))
             (ceil_div (cols (p_mix pl)) (p_step pl))
  /\ Forall (fun p => match md with
                      | generic =>
                          exists j, start p + p_step pl <= j
                                    /\ window_used p
                                       = Some (batch_window (p_step pl) (p_fade_size pl)
                                                 (p_window pl) (p_mix pl) j)
                      | demucs => window_used p = None
                      end) (placed st).
Proof.
  unfold demix_run. intros Hstep Hrect Hmodel Hrun. split.
  - eapply demix_loop_final; eassumption.
  - apply (placed_inv_run md (p_chunk_size pl) (p_step pl) (p_fade_size pl) batch_size
             (p_window pl) model (p_mix pl) fuel) in Hrun as (_ & Hw & _). exact Hw.
Qed.

Lemma sample_normalize_inv r c k ch s v :
  sample (normalize r c) k ch s = Some v ->
  exists rv cv, sample r k ch s = Some rv /\ sample c k ch s = Some cv
                /\ v = nan_to_num (true_divide rv cv).
Proof.
  unfold sample, normalize.
  destruct (zip_with _ r c !! k) as [m|] eqn:Hm; [|discriminate].
  apply lookup_zip_with_Some in Hm as (mr & mc & -> & -> & ->).
  cbn [mbind option_bind].
  destruct (zip_with _ mr mc !! ch) as [x|] eqn:Hx; [|discriminate].
  apply lookup_zip_with_Some in Hx as (xr & xc & -> & -> & ->).
  cbn [mbind option_bind]. intros Hv.
  apply lookup_zip_with_Some in Hv as (rv & cv & -> & -> & ->). eauto.
Qed.

(** *** Chunks that do not overlap, generic mode *)

Lemma window_head_zero size fade w :
  0 < fade -> 2 * fade <= size -> _getWindowingArray size fade = Done w ->
  (nth 0 w 0 == 0)%Q.
Proof.
  intros Hf Hs Hw. rewrite getWindowingArray_parts in Hw by assumption.
  injection Hw as <-. rewrite app_nth1 by (rewrite length_linspace; lia).
  destruct (decide (fade = 1)) as [->|Hne]; [reflexivity|].
  rewrite nth_linspace by lia. change (inject_Z (Z.of_nat 0)) with 0%Q.
  rewrite Qmult_0_l. reflexivity.
Qed.

Lemma batch_window_head step fade w mix j :
  0 < fade -> 2 * fade <= length w -> step < j ->
  nth 0 (batch_window step fade w mix j) 0%Q = nth 0 w 0%Q.
Proof.
  intros Hf Hw Hj. unfold batch_window. cbn zeta.
  destruct (Nat.eqb_spec (j - step) 0) as [|_]; [lia|].
  destruct (cols mix <=? j); [|reflexivity].
  unfold tail_start. destruct (Nat.eqb_spec fade 0) as [|_]; [lia|].
  rewrite nth_fill_slice by lia.
  destruct (Nat.leb_spec (length w - fade) 0) as [Hle|_]; [lia|]. reflexivity.
Qed.

Lemma weight_at_head p s len w :
  window_used p = Some w -> start p = s -> s < len -> 1 <= seg_len p ->
  weight_at p s len = nth 0 w 0%Q.
Proof.
  intros Hw <- Hs Hseg. unfold weight_at. rewrite Hw, Nat.sub_diag.
  destruct (Nat.leb_spec (start p) (start p)) as [_|]; [|lia].
  destruct (Nat.ltb_spec (start p) len) as [_|]; [|lia]. cbn [andb].
  destruct w as [|x w]; [destruct (seg_len p); reflexivity|].
  destruct (seg_len p); [lia|]. reflexivity.
Qed.

(** X4: with [num_overlap = 1] the generic mode leaves a hole at every
    chunk boundary: the chunks do not overlap, the fade-in weight of the
    boundary sample is 0 and no other chunk covers it, so for every back
    end the sample [k * chunk_size] (k >= 1) of every channel of every
    returned stem is 0. *)
Theorem generic_single_overlap_zeroes_chunk_starts (fuel : nat) (cfg : config)
    (model : list array2 -> list array3) (mix : array2) (model_type : string)
    (fl : flags) (d : list (string * array2)) :
  select_mode fl model_type = generic ->
  inference_num_overlap cfg = 1 -> 10 <= audio_chunk_size cfg ->
  rectangular mix -> batch_preserving model ->
  demix fuel cfg model mix model_type fl = Done (Mapping d) ->
  forall k, 1 <= k -> k * audio_chunk_size cfg < cols mix ->
    Forall (fun kv => Forall (fun r => r !! (k * audio_chunk_size cfg) = Some 0%Q) kv.2) d.
Proof.
  intros Hmd HO HC Hrect Hmodel Hrun k Hk HkC.
  apply demix_inv in Hrun as (pl & st & Hpl & Hrun & Hout). rewrite Hmd in *.
  destruct (demix_rows_shape _ _ _ _ _ _ _ Hpl Hrect Hrun) as [_ Hshape].
  pose proof (demix_run_weight_ok _ _ _ _ _ _ _ Hpl Hrun) as Hok.
  destruct (demix_plan_generic cfg mix Hrect HC ltac:(lia)) as (w0 & Hw0 & Hpl').
  cbn zeta in Hpl'. rewrite Hpl in Hpl'. injection Hpl' as ->.
  rewrite HO, Nat.div_1_r, Nat.sub_diag in *.
  remember (audio_chunk_size cfg) as C eqn:HeqC.
  assert (Hnopad : padded 0 (cols mix) = false) by (unfold padded; apply andb_false_r).
  rewrite Hnopad in *.
  assert (Hfade : 0 < C / 10) by (apply Nat.div_str_pos; lia).
  assert (Hfade2 : 2 * (C / 10) <= C) by (div_facts C 10; lia).
  pose proof (length_getWindowingArray _ _ _ Hfade Hfade2 Hw0) as Hlen.
  pose proof (window_head_zero _ _ _ Hfade Hfade2 Hw0) as Hhead.
  destruct (fun H1 H2 => demix_run_placed _ _ _ _ _ _ H1 H2 Hmodel Hrun)
    as [Hsched Hwin]; [cbn; lia|exact Hrect|].
  cbn [p_chunk_size p_step p_mix p_fade_size p_window] in Hsched, Hwin.
  apply placed_lookup in Hsched as [Hplen Hplaced].
  injection Hout as ->. unfold demix_finalize, strip_border in *. cbn zeta in *.
  cbn [p_border p_length_init] in *. rewrite Hnopad in *.
  apply Forall_dict_of, Forall_zip_snd.
  apply Forall_lookup. intros inst a Ha. apply Forall_lookup. intros ch r Hr.
  assert (Hlr : length r = cols mix).
  { pose proof (proj1 (Forall_lookup _ _) Hshape inst a Ha) as [_ Hrows].
    exact (proj1 (Forall_lookup _ _) Hrows ch r Hr). }
  destruct (lookup_lt_is_Some_2 r (k * C) ltac:(lia)) as [v Hv]. rewrite Hv. f_equal.
  assert (Hsample : sample (normalize (result st) (counter st)) inst ch (k * C) = Some v).
  { unfold sample. rewrite Ha. cbn [mbind option_bind]. rewrite Hr. exact Hv. }
  apply sample_normalize_inv in Hsample as (rv & cv & Hrv & Hcv & ->).
  destruct (sample_weight_ok _ _ _ _ _ _ Hok Hcv) as (rv' & Hrv' & Hwok).
  rewrite Hrv in Hrv'. injection Hrv' as <-.
  apply true_divide_zero_weight; [exact Hwok|].
  destruct (demix_run_counter _ _ _ _ _ _ _ _ _ _ Hrun Hcv) as [_ Hcount].
  cbn [p_mix] in Hcount. rewrite Hcount.
  assert (Hkn : k < ceil_div (cols mix) C).
  { destruct (ceil_div_bound (cols mix) C ltac:(lia)) as [Hup _]. nia. }
  destruct (Hplaced k Hkn) as (p & Hp & Hstart & Hseg).
  rewrite (total_weight_single _ k p _ _ Hp).
  - pose proof (proj1 (Forall_lookup _ _) Hwin k p Hp) as (j & Hj & Hwp).
    cbn beta in Hj, Hwp.
    rewrite (weight_at_head p (k * C) (cols mix) _ Hwp Hstart HkC) by lia.
    rewrite batch_window_head by first [assumption|rewrite Hlen; assumption|nia].
    exact Hhead.
  - intros j q Hq Hjk.
    assert (Hjn : j < ceil_div (cols mix) C)
      by (rewrite <- Hplen; eapply lookup_lt_Some; exact Hq).
    destruct (Hplaced j Hjn) as (q' & Hq' & Hqs & Hqseg).
    rewrite Hq in Hq'. injection Hq' as <-.
    rewrite weight_at_outside; [reflexivity|]. nia.
Qed.

Lemma generic_single_overlap_zeroes_chunk_starts_witness :
  exists d,
    demix 5 cfg_10_1 identity_model [ramp 25] "mdx23c" native = Done (Mapping d)
    /\ Forall (fun kv => Forall (fun r => r !! 10 = Some 0%Q) kv.2) d.
Proof.
  evar (d : list (string * array2)).
  assert (H : demix 5 cfg_10_1 identity_model [ramp 25] "mdx23c" native = Done (Mapping d))
    by (subst d; vm_compute; reflexivity).
  exists d. split; [exact H|].
  apply (generic_single_overlap_zeroes_chunk_starts 5 cfg_10_1 identity_model [ramp 25]
           "mdx23c" native d eq_refl eq_refl ltac:(cbn; lia)
           ltac:(repeat constructor) batch_preserving_identity H 1);
    [lia|cbn; lia].
Defined.

(** *** Every sample is counted, demucs mode *)

Lemma weight_at_unit p s len :
  window_used p = None ->
  (0 <= weight_at p s len)%Q
  /\ (start p <= s < start p + seg_len p -> s < len -> weight_at p s len = 1%Q).
Proof.
  intros Hw. unfold weight_at. rewrite Hw. split.
  - destruct (_ && _); [|discriminate].
    apply nth_nonneg, Forall_replicate. discriminate.
  - intros [H1 H2] H3.
    destruct (Nat.leb_spec (start p) s) as [_|]; [|lia].
    destruct (Nat.ltb_spec s len) as [_|]; [|lia]. cbn [andb].
    apply nth_lookup_Some, lookup_replicate. split; [reflexivity|lia].
Qed.

Lemma total_weight_nonneg ps s len :
  Forall (fun q => 0 <= weight_at q s len)%Q ps -> (0 <= total_weight ps s len)%Q.
Proof.
  induction 1 as [|p ps Hp _ IH]; [discriminate|].
  rewrite total_weight_cons.
  change 0%Q with (0 + 0)%Q. apply Qplus_le_compat; assumption.
Qed.

Lemma total_weight_ge ps k p s len :
  Forall (fun q => 0 <= weight_at q s len)%Q ps -> ps !! k = Some p ->
  (weight_at p s len <= total_weight ps s len)%Q.
Proof.
  intros Hall Hk. rewrite <- (take_drop_middle ps k p Hk) in Hall |- *.
  apply Forall_app in Hall as [H1 H2]. apply Forall_cons in H2 as [_ H2].
  rewrite total_weight_app, total_weight_cons.
  apply total_weight_nonneg in H1, H2.
  rewrite <- (Qplus_0_l (weight_at p s len)) at 1.
  apply Qplus_le_compat; [exact H1|].
  rewrite <- (Qplus_0_r (weight_at p s len)) at 1.
  apply Qplus_le_compat; [apply Qle_refl|exact H2].
Qed.

(** X5: in demucs mode, with an overlap that leaves a step of at least
    one sample, every sample of a finished run was counted at least once:
    the final division is an ordinary one ([result / counter], no NaN to
    repair) for every back end, and with [num_overlap = 1] the counter is
    exactly 1. *)
Theorem demucs_every_sample_counted (fuel : nat) (cfg : config) (mix : array2)
    (model : list array2 -> list array3) (pl : plan) (st : loop_state) :
  demix_plan cfg demucs mix = Done pl ->
  inference_num_overlap cfg <= training_samplerate cfg * training_segment cfg ->
  rectangular mix -> batch_preserving model ->
  demix_run fuel demucs (inference_batch_size cfg) model pl = Done st ->
  forall inst ch s rv cv,
    sample (result st) inst ch s = Some rv -> sample (counter st) inst ch s = Some cv ->
    (1 <= cv)%Q
    /\ sample (normalize (result st) (counter st)) inst ch s = Some (rv / cv)%Q
    /\ (inference_num_overlap cfg = 1 -> (cv == 1)%Q).
Proof.
  intros Hpl HO Hrect Hmodel Hrun inst ch s rv cv Hrv Hcv.
  pose proof (demix_plan_inv _ _ _ _ Hpl) as (HO0 & Hstep & _ & HC & _ & Hmix).
  assert (Hstep1 : 1 <= p_step pl).
  { rewrite Hstep, HC. apply Nat.div_str_pos. lia. }
  assert (HstepC : p_step pl <= p_chunk_size pl).
  { rewrite Hstep. apply Nat.Div0.div_le_upper_bound.
    destruct (inference_num_overlap cfg); [lia|]. nia. }
  destruct (demix_run_counter _ _ _ _ _ _ _ _ _ _ Hrun Hcv) as [Hs Hcount].
  destruct (fun H2 => demix_run_placed _ _ _ _ _ _ Hstep1 H2 Hmodel Hrun)
    as [Hsched Hwin]; [rewrite Hmix; exact Hrect|].
  apply placed_lookup in Hsched as [Hplen Hplaced].
  set (P := cols (p_mix pl)) in *. set (k := s / p_step pl).
  assert (Hk : k * p_step pl <= s < k * p_step pl + p_step pl).
  { subst k. div_facts s (p_step pl). nia. }
  assert (Hkn : k < ceil_div P (p_step pl)).
  { destruct (ceil_div_bound P (p_step pl) Hstep1) as [Hup _]. nia. }
  destruct (Hplaced k Hkn) as (p & Hp & Hstart & Hseg).
  assert (Hnone : Forall (fun q => window_used q = None) (placed st)) by exact Hwin.
  assert (Hnonneg : Forall (fun q => 0 <= weight_at q s P)%Q (placed st)).
  { eapply Forall_impl; [exact Hnone|]. intros q Hq. apply weight_at_unit, Hq. }
  assert (Hone : weight_at p s P = 1%Q).
  { apply weight_at_unit; [exact (proj1 (Forall_lookup _ _) Hnone k p Hp)| |exact Hs]. lia. }
  assert (Hcv1 : (1 <= cv)%Q).
  { rewrite Hcount, <- Hone. apply (total_weight_ge _ k); assumption. }
  split; [exact Hcv1|]. split.
  - rewrite (sample_normalize _ _ _ _ _ _ _ Hrv Hcv). f_equal.
    unfold true_divide. destruct (Qeq_bool cv 0) eqn:Hz; [|reflexivity].
    apply Qeq_bool_iff in Hz. rewrite Hz in Hcv1.
    exfalso. revert Hcv1. apply Qlt_not_le. reflexivity.
  - intros HO1. rewrite Hcount, (total_weight_single _ k p _ _ Hp), Hone; [reflexivity|].
    intros j q Hq Hjk.
    assert (Hjn : j < ceil_div P (p_step pl))
      by (rewrite <- Hplen; eapply lookup_lt_Some; exact Hq).
    destruct (Hplaced j Hjn) as (q' & Hq' & Hqs & Hqseg).
    rewrite Hq in Hq'. injection Hq' as <-.
    assert (HCs : p_chunk_size pl = p_step pl)
      by (rewrite Hstep, HO1; symmetry; apply Nat.div_1_r).
    rewrite weight_at_outside; [reflexivity|]. nia.
Qed.

Lemma demucs_every_sample_counted_witness :
  exists pl st,
    demix_plan cfg_demucs demucs [ramp 8] = Done pl
    /\ demix_run 5 demucs 2 two_stem_model pl = Done st
    /\ sample (normalize (result st) (counter st)) 1 0 4 = Some (10 / 2)%Q.
Proof.
  evar (pl : plan). evar (st : loop_state).
  assert (Hpl : demix_plan cfg_demucs demucs [ramp 8] = Done pl)
    by (subst pl; vm_compute; reflexivity).
  assert (Hrun : demix_run 5 demucs (inference_batch_size cfg_demucs) two_stem_model pl
                 = Done st)
    by (subst pl st; vm_compute; reflexivity).
  assert (Hr : sample (result st) 1 0 4 = Some 10%Q) by (subst st; vm_compute; reflexivity).
  assert (Hc : sample (counter st) 1 0 4 = Some 2%Q) by (subst st; vm_compute; reflexivity).
  exists pl, st. split; [exact Hpl|]. split; [exact Hrun|].
  apply (demucs_every_sample_counted 5 cfg_demucs [ramp 8] two_stem_model pl st Hpl
           ltac:(cbn; lia) ltac:(repeat constructor)
           ltac:(intros b; apply length_map) Hrun 1 0 4 10%Q 2%Q Hr Hc).
Defined.

(** *** Overlapping chunks, generic mode *)

Lemma demix_run_counter_nth fuel md batch_size model pl st inst c s cv :
  demix_run fuel md batch_size model pl = Done st ->
  sample (counter st) inst c s = Some cv ->
  s < cols (p_mix pl)
  /\ cv = nth s (replay (placed st) (replicate (cols (p_mix pl)) 0%Q)) 0%Q.
Proof.
  unfold demix_run. intros Hrun Hcv.
  apply (placed_inv_run md (p_chunk_size pl) (p_step pl) (p_fade_size pl) batch_size
           (p_window pl) model (p_mix pl) fuel) in Hrun as (Hc & _).
  rewrite Hc in Hcv. revert Hcv. unfold sample.
  change (map ?f ?l) with (f <$> l). rewrite list_lookup_fmap.
  destruct (replicate _ _ !! inst) as [m|] eqn:Hm; [|discriminate].
  apply lookup_replicate in Hm as [-> _].
  cbn [fmap option_fmap option_map mbind option_bind].
  change (map ?f ?l) with (f <$> l). rewrite list_lookup_fmap.
  destruct (replicate _ _ !! c) as [r|] eqn:Hr; [|discriminate].
  apply lookup_replicate in Hr as [-> _].
  cbn [fmap option_fmap option_map mbind option_bind].
  intros Hs. pose proof (lookup_lt_Some _ _ _ Hs) as Hlt.
  rewrite length_replay, length_replicate in Hlt. split; [exact Hlt|].
  symmetry. apply nth_lookup_Some. exact Hs.
Qed.

(** X20: with overlapping chunks the generic mode never has to repair a
    sample it returns.  For chunks of at least 10 samples, an overlap of
    2 or more and every back end, the counter of a finished run is
    positive at every sample but the first, so the quotient there is the
    plain [result / counter]; on a border-padded input the first sample is
    cut off, and every returned sample is such a quotient. *)
Theorem generic_overlap_never_repairs (fuel : nat) (cfg : config) (mix : array2)
    (model : list array2 -> list array3) (pl : plan) (st : loop_state) :
  demix_plan cfg generic mix = Done pl ->
  10 <= audio_chunk_size cfg ->
  2 <= inference_num_overlap cfg <= audio_chunk_size cfg ->
  rectangular mix -> batch_preserving model ->
  demix_run fuel generic (inference_batch_size cfg) model pl = Done st ->
  (forall inst ch s rv cv,
     1 <= s ->
     sample (result st) inst ch s = Some rv -> sample (counter st) inst ch s = Some cv ->
     (0 < cv)%Q
     /\ sample (normalize (result st) (counter st)) inst ch s = Some (rv / cv)%Q)
  /\ (padded (p_border pl) (cols mix) = true ->
      forall inst ch t v,
        sample (strip_border generic pl (normalize (result st) (counter st))) inst ch t
        = Some v ->
        exists rv cv,
          sample (result st) inst ch (p_border pl + t) = Some rv
          /\ sample (counter st) inst ch (p_border pl + t) = Some cv
          /\ (0 < cv)%Q /\ v = (rv / cv)%Q).
Proof.
  intros Hpl HC HO Hrect Hmodel Hrun.
  pose proof (demix_plan_rectangular _ _ _ _ Hpl Hrect) as Hrect'.
  pose proof (demix_plan_inv _ _ _ _ Hpl)
    as (_ & Hstep & Hinit & HCs & _ & Hfade & Hborder & Hw0 & _).
  rewrite HCs in *.
  assert (Hstep1 : 1 <= p_step pl).
  { rewrite Hstep. apply Nat.div_str_pos. lia. }
  assert (Hhalf : 2 * p_step pl <= audio_chunk_size cfg).
  { rewrite Hstep. div_facts (audio_chunk_size cfg) (inference_num_overlap cfg). nia. }
  assert (Hf : 0 < p_fade_size pl) by (rewrite Hfade; apply Nat.div_str_pos; lia).
  assert (Hfs : 2 * p_fade_size pl <= audio_chunk_size cfg).
  { rewrite Hfade. div_facts (audio_chunk_size cfg) 10. lia. }
  destruct (fun H2 => demix_run_placed _ _ _ _ _ _ Hstep1 H2 Hmodel Hrun)
    as [Hsched Hwin]; [exact Hrect'|].
  rewrite HCs in Hsched. apply placed_lookup in Hsched as [Hplen Hplaced].
  set (P := cols (p_mix pl)) in *.
  pose proof (nonneg_getWindowingArray _ _ _ Hw0) as Hnn0.
  assert (Hnn : Forall nonneg_placement (placed st)).
  { eapply Forall_impl; [exact Hwin|]. cbn beta. intros p (j & _ & Hj).
    unfold nonneg_placement. rewrite Hj. apply nonneg_batch_window. exact Hnn0. }
  assert (Hzero : forall t, (0 <= nth t (replicate P 0%Q) 0)%Q).
  { intros t. apply nth_nonneg. apply Forall_replicate. apply Qle_refl. }
  assert (Hpos : forall inst ch s rv cv,
             1 <= s ->
             sample (result st) inst ch s = Some rv ->
             sample (counter st) inst ch s = Some cv ->
             (0 < cv)%Q
             /\ sample (normalize (result st) (counter st)) inst ch s = Some (rv / cv)%Q).
  { intros inst ch s rv cv Hs1 Hrv Hcv.
    destruct (demix_run_counter_nth _ _ _ _ _ _ _ _ _ _ Hrun Hcv) as [Hs Hcount].
    fold P in Hs, Hcount.
    assert (Hcv0 : (0 < cv)%Q).
    { assert (Hkt : exists k t, k * p_step pl + t = s /\ 1 <= t /\ t <= p_step pl).
      { div_facts s (p_step pl).
        destruct (Nat.eq_dec (s mod p_step pl) 0) as [Hr|Hr].
        - destruct (s / p_step pl) as [|q] eqn:Hq; [nia|].
          exists q, (p_step pl). nia.
        - exists (s / p_step pl), (s mod p_step pl). nia. }
      destruct Hkt as (k & t & Hkt & Ht1 & Ht2).
      assert (Hkn : k < ceil_div P (p_step pl)).
      { destruct (ceil_div_bound P (p_step pl) Hstep1) as [Hup _]. nia. }
      destruct (Hplaced k Hkn) as (p & Hp & Hstart & Hseg).
      pose proof (lookup_In _ _ _ Hp) as Hin.
      destruct (proj1 (Forall_lookup _ _) Hwin k p Hp) as (j & _ & Hj).
      rewrite Hcount.
      eapply Qlt_le_trans; [|apply (replay_lower (placed st) p _ s _ Hin Hj Hnn Hzero)].
      - rewrite Hstart. replace (s - k * p_step pl) with t by lia.
        apply batch_window_positive.
        apply (window_positive (audio_chunk_size cfg) (p_fade_size pl));
          [assumption ..|lia].
      - lia.
      - rewrite Hstart, Hseg. lia.
      - rewrite length_replicate. exact Hs. }
    split; [exact Hcv0|].
    rewrite (sample_normalize _ _ _ _ _ _ _ Hrv Hcv). f_equal.
    unfold true_divide. destruct (Qeq_bool cv 0) eqn:Hz; [|reflexivity].
    apply Qeq_bool_iff in Hz. rewrite Hz in Hcv0. discriminate Hcv0. }
  split; [exact Hpos|].
  intros Hpad inst ch t v Hv. apply sample_strip_border in Hv.
  unfold strip_offset in Hv. rewrite Hinit, Hpad in Hv.
  apply sample_normalize_inv in Hv as (rv & cv & Hrv & Hcv & ->).
  exists rv, cv.
  assert (Hb : 1 <= p_border pl + t).
  { unfold padded in Hpad. apply andb_prop in Hpad as [_ Hpad].
    apply Nat.ltb_lt in Hpad. lia. }
  destruct (Hpos inst ch _ rv cv Hb Hrv Hcv) as [Hcv0 Hq].
  rewrite (sample_normalize _ _ _ _ _ _ _ Hrv Hcv) in Hq. injection Hq as Hq.
  auto.
Qed.

Lemma generic_overlap_never_repairs_witness :
  exists pl st,
    demix_plan cfg_12_4 generic [ramp 13] = Done pl
    /\ demix_run 5 generic 2 identity_model pl = Done st
    /\ sample (normalize (result st) (counter st)) 0 0 4 = Some (10 / 2)%Q.
Proof.
  evar (pl : plan). evar (st : loop_state).
  assert (Hpl : demix_plan cfg_12_4 generic [ramp 13] = Done pl)
    by (subst pl; vm_compute; reflexivity).
  assert (Hrun : demix_run 5 generic (inference_batch_size cfg_12_4) identity_model pl
                 = Done st)
    by (subst pl st; vm_compute; reflexivity).
  assert (Hr : sample (result st) 0 0 4 = Some 10%Q) by (subst st; vm_compute; reflexivity).
  assert (Hc : sample (counter st) 0 0 4 = Some 2%Q)
    by (subst st; vm_compute; reflexivity).
  exists pl, st. split; [exact Hpl|]. split; [exact Hrun|].
  destruct (generic_overlap_never_repairs 5 cfg_12_4 [ramp 13] identity_model pl st Hpl
              ltac:(cbn; lia) ltac:(cbn; lia) ltac:(repeat constructor)
              batch_preserving_identity Hrun) as [Hpos _].
  apply (Hpos 0 0 4 10%Q 2%Q); [lia|exact Hr|exact Hc].
Defined.


(** ** The window builder on every pair of sizes *)

Lemma le1_linspace_up n : Forall (fun w => w <= 1)%Q (linspace 0 1 n).
Proof.
  destruct n as [|[|n]]; [constructor|repeat constructor; discriminate|].
  unfold linspace. apply List.Forall_forall. intros x Hx.
  apply in_map_iff in Hx as (k & <- & Hk). apply in_seq in Hk.
  set (d := inject_Z (Z.of_nat (S (S n) - 1))).
  assert (Hd : (0 < d)%Q).
  { subst d. change 0%Q with (inject_Z 0). rewrite <- Zlt_Qlt. lia. }
  assert (Hkd : (inject_Z (Z.of_nat k) <= d)%Q).
  { subst d. rewrite <- Zle_Qle. lia. }
  assert (E : (0 + inject_Z (Z.of_nat k) * ((1 - 0) / d) == inject_Z (Z.of_nat k) / d)%Q)
    by (field; intros H0; rewrite H0 in Hd; discriminate Hd).
  cbv beta. fold d. rewrite E.
  apply Qle_shift_div_r; [exact Hd|]. rewrite Qmult_1_l. exact Hkd.
Qed.

Lemma le1_linspace_down n : Forall (fun w => w <= 1)%Q (linspace 1 0 n).
Proof.
  destruct n as [|[|n]]; [constructor|repeat constructor; discriminate|].
  unfold linspace. apply List.Forall_forall. intros x Hx.
  apply in_map_iff in Hx as (k & <- & Hk). apply in_seq in Hk.
  set (d := inject_Z (Z.of_nat (S (S n) - 1))).
  assert (Hd : (0 < d)%Q).
  { subst d. change 0%Q with (inject_Z 0). rewrite <- Zlt_Qlt. lia. }
  assert (Hk0 : (0 <= inject_Z (Z.of_nat k))%Q).
  { change 0%Q with (inject_Z 0). rewrite <- Zle_Qle. lia. }
  assert (E : (1 + inject_Z (Z.of_nat k) * ((0 - 1) / d)
               == (d - inject_Z (Z.of_nat k)) / d)%Q)
    by (field; intros H0; rewrite H0 in Hd; discriminate Hd).
  cbv beta. fold d. rewrite E.
  apply Qle_shift_div_r; [exact Hd|]. rewrite Qmult_1_l.
  rewrite <- (Qplus_0_r d) at 2. apply Qplus_le_compat; [apply Qle_refl|].
  apply (Qopp_le_compat 0). exact Hk0.
Qed.

Lemma unit_linspace_up n : Forall (fun w => 0 <= w <= 1)%Q (linspace 0 1 n).
Proof. apply Forall_and. split; [apply nonneg_linspace_up|apply le1_linspace_up]. Qed.

Lemma unit_linspace_down n : Forall (fun w => 0 <= w <= 1)%Q (linspace 1 0 n).
Proof. apply Forall_and. split; [apply nonneg_linspace_down|apply le1_linspace_down]. Qed.

Lemma length_setitem_slice lo hi src l l' :
  lo <= hi <= length l -> setitem_slice lo hi src l = Done l' -> length l' = length l.
Proof.
  intros Hb. unfold setitem_slice, fill_slice.
  destruct (Nat.eqb_spec (length src) (hi - lo)) as [Hlen|_].
  - intros [= <-]. rewrite !length_app, length_take, length_drop. lia.
  - destruct src as [|v [|? ?]]; [discriminate| |discriminate].
    intros [= <-]. rewrite !length_app, length_take, length_replicate, length_drop. lia.
Qed.

Lemma setitem_slice_fits lo hi src l :
  length src = hi - lo -> setitem_slice lo hi src l = Done (take lo l ++ src ++ drop hi l).
Proof.
  intros Hlen. unfold setitem_slice. rewrite (proj2 (Nat.eqb_eq _ _) Hlen). reflexivity.
Qed.

Lemma setitem_slice_mismatch lo hi src l :
  length src <> hi - lo -> length src <> 1 ->
  setitem_slice lo hi src l = Raised RuntimeError.
Proof.
  intros Hlen H1. unfold setitem_slice.
  destruct (Nat.eqb_spec (length src) (hi - lo)) as [|_]; [contradiction|].
  destruct src as [|v [|? ?]]; [reflexivity|contradiction|reflexivity].
Qed.

(** X6: [_getWindowingArray] on every pair of sizes.  It raises (the
    slice assignment of a tensor of another length) exactly when the fade
    is empty for a non-empty window or longer than the window (a fade of
    one sample into an empty window is broadcast); in every other case it
    returns a window of [window_size] weights, each between 0 and 1. *)
Theorem window_builder_domain (size fade : nat) :
  ((fade = 0 /\ 0 < size) \/ (size < fade /\ 2 <= fade) ->
     _getWindowingArray size fade = Raised RuntimeError)
  /\ (1 <= fade <= size \/ (size = 0 /\ fade <= 1) ->
      exists w, _getWindowingArray size fade = Done w
                /\ length w = size
                /\ Forall (fun x => 0 <= x <= 1)%Q w).
Proof.
  split.
  - intros [[-> Hs]|[Hs Hf]]; [apply getWindowingArray_no_fade; lia|].
    unfold _getWindowingArray. cbn zeta.
    rewrite setitem_slice_mismatch; [reflexivity| |]; rewrite length_linspace; [|lia].
    unfold tail_start. destruct (Nat.eqb_spec fade 0); lia.
  - intros Hdom.
    assert (Hrun : exists w1 w,
               setitem_slice (tail_start size fade) size (linspace 1 0 fade)
                             (replicate size 1%Q) = Done w1
               /\ setitem_slice 0 (fade `min` size) (linspace 0 1 fade) w1 = Done w).
    { destruct Hdom as [Hf|[-> Hf]].
      - unfold tail_start. destruct (Nat.eqb_spec fade 0) as [|_]; [lia|].
        eexists _, _. split.
        + apply setitem_slice_fits. rewrite length_linspace. lia.
        + apply setitem_slice_fits. rewrite length_linspace. lia.
      - destruct fade as [|[|fade]]; [| |lia]; eexists _, _; split; reflexivity. }
    destruct Hrun as (w1 & w & H1 & H2). exists w.
    assert (Ht : tail_start size fade <= size).
    { unfold tail_start. destruct (fade =? 0); lia. }
    pose proof (fun Hb => length_setitem_slice _ _ _ _ _ Hb H1) as Hl1.
    rewrite length_replicate in Hl1. specialize (Hl1 ltac:(lia)).
    pose proof (fun Hb => length_setitem_slice _ _ _ _ _ Hb H2) as Hl2.
    specialize (Hl2 ltac:(lia)).
    split; [|split].
    + unfold _getWindowingArray. rewrite H1. cbn [mbind outcome_bind].
      rewrite H2. reflexivity.
    + lia.
    + eapply Forall_setitem_slice; [apply unit_linspace_up| |exact H2].
      eapply Forall_setitem_slice; [apply unit_linspace_down| |exact H1].
      apply Forall_replicate. split; discriminate.
Qed.

Lemma window_builder_domain_witness :
  _getWindowingArray 3 5 = Raised RuntimeError
  /\ exists w, _getWindowingArray 3 2 = Done w /\ length w = 3.
Proof.
  destruct (window_builder_domain 3 5) as [Hraise _].
  destruct (window_builder_domain 3 2) as [_ Hdone].
  split; [apply Hraise; lia|].
  destruct Hdone as (w & Hw & Hlen & _); [lia|]. exists w. auto.
Defined.

Lemma linspace_mirror n :
  2 <= n -> Forall2 Qeq (reverse (linspace 1 0 n)) (linspace 0 1 n).
Proof.
  intros Hn. apply Forall2_Qeq_nth.
  - rewrite length_reverse, !length_linspace. reflexivity.
  - rewrite length_reverse, length_linspace. intros s Hs.
    rewrite (nth_lookup (reverse _)), reverse_lookup, <- nth_lookup
      by (rewrite length_linspace; exact Hs).
    rewrite length_linspace, !nth_linspace by lia.
    set (d := inject_Z (Z.of_nat (n - 1))).
    assert (Hd : (0 < d)%Q).
    { subst d. change 0%Q with (inject_Z 0). rewrite <- Zlt_Qlt. lia. }
    assert (Hsum : (inject_Z (Z.of_nat (n - S s)) == d - inject_Z (Z.of_nat s))%Q).
    { subst d. unfold Qminus. rewrite <- inject_Z_opp, <- inject_Z_plus.
      apply inject_Z_injective. lia. }
    rewrite Hsum. field. intros H0. rewrite H0 in Hd. discriminate Hd.
Qed.

(** X7: for a fade of at least two samples that fits twice the window
    is symmetric: read backwards it is the same window, the fade-out
    mirroring the fade-in.  (A one-sample fade is not: it starts at 0 and
    ends at 1.) *)
Theorem window_symmetric (size fade : nat) (w : row) :
  2 <= fade -> 2 * fade <= size ->
  _getWindowingArray size fade = Done w ->
  Forall2 Qeq (reverse w) w.
Proof.
  intros Hf Hs Hw. rewrite getWindowingArray_parts in Hw by lia.
  injection Hw as <-. rewrite !reverse_app, reverse_replicate, <- app_assoc.
  pose proof (linspace_mirror fade Hf) as Hm.
  apply Forall2_app; [exact Hm|]. apply Forall2_app.
  - apply Forall2_Qeq_nth; [reflexivity|]. intros s _. reflexivity.
  - apply Forall2_reverse in Hm. rewrite reverse_involutive in Hm.
    apply Forall2_flip. eapply Forall2_impl; [exact Hm|].
    intros x y Hxy. symmetry. exact Hxy.
Qed.

Lemma window_symmetric_witness :
  exists w, _getWindowingArray 10 3 = Done w /\ Forall2 Qeq (reverse w) w.
Proof.
  evar (w : row).
  assert (H : _getWindowingArray 10 3 = Done w) by (subst w; vm_compute; reflexivity).
  exists w. split; [exact H|].
  apply (window_symmetric 10 3 w); [lia|lia|exact H].
Defined.

(** ** Augmented runs of [demix], step by step *)

Lemma inplace_app {A B : Type} (f : A -> B -> A) a1 : forall a2 b1 b2,
  length a1 = length b1 ->
  inplace f (a1 ++ a2) (b1 ++ b2) = inplace f a1 b1 ++ inplace f a2 b2.
Proof.
  induction a1 as [|x a1 IH]; intros a2 [|y b1] b2 Hlen; cbn [length] in Hlen;
    try discriminate.
  - reflexivity.
  - cbn [app inplace]. rewrite IH by lia. reflexivity.
Qed.

Lemma inplace_nil_r {A B : Type} (f : A -> B -> A) a : inplace f a [] = a.
Proof. destruct a; reflexivity. Qed.

Lemma reverse_inplace {A B : Type} (f : A -> B -> A) a : forall b,
  length a = length b -> reverse (inplace f a b) = inplace f (reverse a) (reverse b).
Proof.
  induction a as [|x a IH]; intros [|y b] Hlen; cbn [length] in Hlen; try discriminate.
  - reflexivity.
  - cbn [inplace]. rewrite !reverse_cons, IH by lia.
    rewrite inplace_app by (rewrite !length_reverse; lia). reflexivity.
Qed.

Lemma Forall2_inplace {A A' B B' : Type} (R : A -> A' -> Prop) (S : B -> B' -> Prop)
    (f : A -> B -> A) (f' : A' -> B' -> A') a a' :
  (forall x x' y y', R x x' -> S y y' -> R (f x y) (f' x' y')) ->
  Forall2 R a a' -> forall b b', Forall2 S b b' ->
  Forall2 R (inplace f a b) (inplace f' a' b').
Proof.
  intros Hf. induction 1 as [|x x' a a' Hx Ha IH]; intros b b' Hb.
  - constructor.
  - destruct Hb as [|y y' b b' Hy Hb]; cbn [inplace]; constructor; auto.
Qed.

Lemma Forall2_zip_with_l {A A' B C C' : Type} (R : A -> A' -> Prop) (T : C -> C' -> Prop)
    (f : A -> B -> C) (f' : A' -> B -> C') a a' :
  (forall x x' y, R x x' -> T (f x y) (f' x' y)) ->
  Forall2 R a a' -> forall b, Forall2 T (zip_with f a b) (zip_with f' a' b).
Proof.
  intros Hf. induction 1 as [|x x' a a' Hx Ha IH]; intros [|y b]; cbn [zip_with];
    constructor; auto.
Qed.

Lemma Forall2_with_left {A B : Type} (R : A -> B -> Prop) (P : A -> Prop) l l' :
  Forall2 R l l' -> Forall P l -> Forall2 (fun x y => R x y /\ P x) l l'.
Proof.
  induction 1 as [|x y l l' Hxy Hl IH]; intros HP; [constructor|].
  inversion HP; subst. constructor; auto.
Qed.

Lemma zip_with_replicate_row {A B C : Type} (f : A -> B -> C) (c : B) l : forall k,
  length l <= k -> zip_with f l (replicate k c) = map (fun x => f x c) l.
Proof.
  induction l as [|x l IH]; intros [|k] Hk; cbn [length] in Hk; try lia; [reflexivity ..|].
  cbn [replicate zip_with map]. rewrite IH by lia. reflexivity.
Qed.

Section Lockstep.

Variable flip : bool.
Variable sigma : Q.

Local Abbreviation qrel := (fun x y : Q => (y == sigma * x)%Q).
Local Abbreviation rrel := (Forall2 qrel).
Local Abbreviation arel := (augmented flip sigma).

Lemma arrange_length {A : Type} (a : list A) : length (arrange flip a) = length a.
Proof. unfold arrange. destruct flip; [apply length_reverse|reflexivity]. Qed.

Lemma arrange_map {A B : Type} (f : A -> B) (a : list A) :
  arrange flip (map f a) = map f (arrange flip a).
Proof.
  unfold arrange. destruct flip; [|reflexivity].
  change (map f) with (fmap (M := list) f). symmetry. apply fmap_reverse.
Qed.

Lemma arrange_Forall {A : Type} (P : A -> Prop) (a : list A) :
  Forall P a -> Forall P (arrange flip a).
Proof. unfold arrange. destruct flip; [apply Forall_reverse|exact id]. Qed.

Lemma arrange_replicate {A : Type} n (x : A) :
  arrange flip (replicate n x) = replicate n x.
Proof. unfold arrange. destruct flip; [apply reverse_replicate|reflexivity]. Qed.

Lemma arrange_inplace {A B : Type} (f : A -> B -> A) a b :
  length a = length b ->
  arrange flip (inplace f a b) = inplace f (arrange flip a) (arrange flip b).
Proof. unfold arrange. destruct flip; [apply reverse_inplace|reflexivity]. Qed.

Lemma augmented_length a b : arel a b -> length b = length a.
Proof.
  intros H. apply Forall2_length in H. rewrite arrange_length in H. auto.
Qed.

(** The rows of an augmented array have the lengths of the rows of the
    array. *)
Lemma augmented_lengths (P : nat -> Prop) a b :
  arel a b -> Forall (fun r : row => P (length r)) a -> Forall (fun r : row => P (length r)) b.
Proof.
  intros H Ha. apply (arrange_Forall _ a) in Ha. unfold augmented in H.
  induction H as [|r r' l l' Hr _ IH]; [constructor|].
  inversion Ha; subst. constructor; [|auto].
  apply Forall2_length in Hr. rewrite <- Hr. assumption.
Qed.

Lemma augmented_rectangular a b :
  rectangular a -> arel a b -> rectangular b /\ cols b = cols a.
Proof.
  intros Hrect H.
  pose proof (augmented_lengths (fun n => n = cols a) a b H Hrect) as Hb.
  assert (Hc : cols b = cols a).
  { destruct b as [|r b]; [|inversion Hb; subst; assumption].
    apply augmented_length in H. destruct a; [reflexivity|discriminate]. }
  split; [|exact Hc]. unfold rectangular. rewrite Hc. exact Hb.
Qed.

Lemma augmented_map (f f' : row -> row) a b :
  (forall r r', rrel r r' -> rrel (f r) (f' r')) ->
  arel a b -> arel (map f a) (map f' b).
Proof.
  intros Hf H. unfold augmented. rewrite arrange_map.
  change (map ?g ?l) with (g <$> l). apply Forall2_fmap.
  eapply Forall2_impl; [exact H|]. exact Hf.
Qed.

Lemma augmented_inplace (g g' : row -> row -> row) a a' x x' :
  (forall r r' y y', rrel r r' -> rrel y y' -> rrel (g r y) (g' r' y')) ->
  arel a a' -> arel x x' -> length a = length x ->
  arel (inplace g a x) (inplace g' a' x').
Proof.
  intros Hg Ha Hx Hlen. unfold augmented. rewrite arrange_inplace by exact Hlen.
  eapply Forall2_inplace; [exact Hg|exact Ha|exact Hx].
Qed.

Lemma rrel_zero n : rrel (replicate n 0%Q) (replicate n 0%Q).
Proof. apply Forall2_replicate. ring. Qed.

Lemma rrel_add_at start v v' r r' :
  rrel v v' -> rrel r r' -> rrel (add_at start v r) (add_at start v' r').
Proof.
  intros Hv Hr. unfold add_at. apply Forall2_app; [apply Forall2_take; exact Hr|].
  eapply Forall2_inplace; [|apply Forall2_drop; exact Hr|exact Hv].
  intros x x' y y' Hx Hy. cbn beta in *. rewrite Hx, Hy. ring.
Qed.

Lemma rrel_weighted seg (w xr xr' : row) :
  rrel xr xr' ->
  rrel (zip_with Qmult (take seg xr) (take seg w))
       (zip_with Qmult (take seg xr') (take seg w)).
Proof.
  intros H. eapply Forall2_zip_with_l; [|apply Forall2_take; exact H].
  intros x x' y Hx. cbn beta in *. rewrite Hx. ring.
Qed.

Lemma rrel_reflected left right r r' :
  rrel r r' -> rrel (reflected left right r) (reflected left right r').
Proof.
  intros H. unfold reflected. repeat apply Forall2_app.
  - apply Forall2_reverse, Forall2_take, Forall2_drop, H.
  - exact H.
  - apply Forall2_take, Forall2_drop, Forall2_reverse, H.
Qed.

Lemma rrel_constant_pad right r r' :
  rrel r r' -> rrel (constant_pad right r) (constant_pad right r').
Proof. intros H. unfold constant_pad. apply Forall2_app; [exact H|apply rrel_zero]. Qed.

Lemma rrel_cut n k r r' : rrel r r' -> rrel (take n (drop k r)) (take n (drop k r')).
Proof. intros H. apply Forall2_take, Forall2_drop, H. Qed.

Lemma reflect_pad_lockstep left right a b a1 :
  arel a b -> forM (reflect_pad left right) a = Done a1 ->
  exists b1, forM (reflect_pad left right) b = Done b1
             /\ a1 = map (reflected left right) a /\ arel a1 b1.
Proof.
  intros H Hrun. apply forM_inv in Hrun.
  assert (Ha : a1 = map (reflected left right) a
               /\ Forall (fun r : row => left < length r /\ right < length r) a).
  { clear H. induction Hrun as [|r r1 a a1 Hr _ [IH1 IH2]]; [split; [reflexivity|constructor]|].
    apply reflect_pad_inv in Hr as (Hl & Hr & ->). subst a1.
    split; [reflexivity|constructor; auto]. }
  destruct Ha as [-> Ha].
  pose proof (augmented_lengths (fun n => left < n /\ right < n) a b H Ha) as Hb.
  exists (map (reflected left right) b). split; [|split; [reflexivity|]].
  - apply forM_Done. eapply Forall_impl; [exact Hb|].
    intros r [Hl Hr]. unfold reflect_pad, reflected.
    destruct (Nat.ltb_spec left (length r)); [|lia].
    destruct (Nat.ltb_spec right (length r)); [|lia]. reflexivity.
  - apply augmented_map; [|exact H]. intros r r'. apply rrel_reflected.
Qed.

Lemma pad_part_lockstep md chunk_size part part' p :
  rectangular part -> arel part part' -> pad_part md chunk_size part = Done p ->
  exists p', pad_part md chunk_size part' = Done p' /\ arel p p'
             /\ length p = length part.
Proof.
  intros Hrect H. destruct (augmented_rectangular _ _ Hrect H) as [_ Hc].
  unfold pad_part. rewrite Hc.
  assert (Hpad : exists p', Done (map (constant_pad (chunk_size - cols part)) part')
                            = Done p'
                            /\ arel (map (constant_pad (chunk_size - cols part)) part) p'
                            /\ length (map (constant_pad (chunk_size - cols part)) part)
                               = length part).
  { eexists. split; [reflexivity|]. split; [|apply length_map].
    apply augmented_map; [|exact H]. intros r r'. apply rrel_constant_pad. }
  destruct md; [destruct (_ <? _)|].
  - intros Hrun. destruct (reflect_pad_lockstep _ _ _ _ _ H Hrun) as (b1 & Hb1 & -> & Hrel).
    exists b1. split; [exact Hb1|]. split; [exact Hrel|apply length_map].
  - intros [= <-]. exact Hpad.
  - intros [= <-]. exact Hpad.
Qed.


Lemma accumulate_lockstep md w loc ch xj xj' r r' c :
  Forall2 (in_step flip sigma ch) r r' -> Forall2 (in_step flip sigma ch) xj xj' ->
  Forall2 (in_step flip sigma ch)
          (accumulate md w loc xj (r, c)).1 (accumulate md w loc xj' (r', c)).1
  /\ (accumulate md w loc xj' (r', c)).2 = (accumulate md w loc xj (r, c)).2.
Proof.
  intros Hr Hx. destruct loc as [start seg]. unfold accumulate.
  destruct md; cbn [fst snd]; (split; [|reflexivity]).
  - eapply Forall2_inplace; [|exact Hr|exact Hx].
    intros m m' s s' [Hm Hlm] [Hs Hls]. split; [|rewrite length_inplace; exact Hlm].
    apply augmented_inplace; [|exact Hm|exact Hs|congruence].
    intros a a' y y' Ha Hy. apply rrel_add_at; [apply rrel_weighted; exact Hy|exact Ha].
  - eapply Forall2_inplace; [|exact Hr|exact Hx].
    intros m m' s s' [Hm Hlm] [Hs Hls]. split; [|rewrite length_inplace; exact Hlm].
    apply augmented_inplace; [|exact Hm|exact Hs|congruence].
    intros a a' y y' Ha Hy. apply rrel_add_at; [apply Forall2_take; exact Hy|exact Ha].
Qed.

Lemma accumulate_batch_lockstep md w ch locs : forall x x' r r' c rc1,
  Forall2 (Forall2 (in_step flip sigma ch)) x x' -> Forall2 (in_step flip sigma ch) r r' ->
  accumulate_batch md w locs x (r, c) = Done rc1 ->
  exists r1', accumulate_batch md w locs x' (r', c) = Done (r1', rc1.2)
              /\ Forall2 (in_step flip sigma ch) rc1.1 r1'.
Proof.
  induction locs as [|loc locs IH]; intros x x' r r' c rc1 Hx Hr; cbn [accumulate_batch].
  - intros [= <-]. exists r'. split; [reflexivity|exact Hr].
  - destruct Hx as [|xj xj' x x' Hxj Hx]; [discriminate|].
    intros Hrun.
    destruct (accumulate_lockstep md w loc ch xj xj' r r' c Hr Hxj) as [H1 H2].
    destruct (accumulate md w loc xj (r, c)) as [r1 c1] eqn:E.
    destruct (accumulate md w loc xj' (r', c)) as [r1' c1'] eqn:E'.
    cbn [fst snd] in *. subst c1'.
    apply (IH x x' r1 r1' c1 rc1 Hx H1 Hrun).
Qed.

Lemma rectangular_cut n k mix :
  rectangular mix -> rectangular (map (fun r => take n (drop k r)) mix).
Proof.
  intros Hrect. destruct mix as [|r0 rest]; [constructor|].
  unfold rectangular in *. cbn [map cols] in *.
  change (Forall (fun r : row => length r = length (take n (drop k r0)))
                 ((fun r => take n (drop k r)) <$> (r0 :: rest))).
  apply Forall_fmap. eapply Forall_impl; [exact Hrect|].
  intros r Hr. cbn. rewrite !length_take, !length_drop, Hr. reflexivity.
Qed.

Section Loop.

Variable md : mode.
Variable chunk_size step fade_size batch_size : nat.
Variable w0 : row.
Variable model : list array2 -> list array3.
Variable n : nat.
Variable mix mix' : array2.

Hypothesis Hcontract : keeps_contract n model.
Hypothesis Hcomm : commutes_with flip sigma model.
Hypothesis Hrect : rectangular mix.
Hypothesis Hmix : arel mix mix'.

Lemma outputs_in_step bd bd' :
  Forall2 (in_step flip sigma (length mix)) bd bd' ->
  Forall2 (Forall2 (in_step flip sigma (length mix))) (model bd) (model bd').
Proof.
  intros Hbd.
  assert (Hrel : Forall2 arel bd bd') by (eapply Forall2_impl; [exact Hbd|]; intros ? ? []; auto).
  assert (Hlen : Forall (fun c : array2 => length c = length mix) bd).
  { clear Hrel. induction Hbd as [|? ? ? ? [_ H] _ IH]; constructor; auto. }
  pose proof (Hcomm bd bd' Hrel) as Hout. pose proof (Hcontract bd) as Hk.
  assert (Hch : Forall (Forall (fun s : array2 => length s = length mix)) (model bd)).
  { clear Hout Hrel Hbd. induction Hk as [|c o bd0 x0 [_ Ho] _ IH]; [constructor|].
    inversion Hlen; subst. constructor; [|auto].
    eapply Forall_impl; [exact Ho|]. intros s Hs.
    apply Forall2_length in Hs. congruence. }
  pose proof (Forall2_with_left _ _ _ _ Hout Hch) as H.
  eapply Forall2_impl; [exact H|]. intros o o' [Ho Hlo].
  exact (Forall2_with_left _ _ _ _ Ho Hlo).
Qed.

Lemma batch_window_lockstep k :
  batch_window step fade_size w0 mix' k = batch_window step fade_size w0 mix k.
Proof.
  unfold batch_window. rewrite (proj2 (augmented_rectangular _ _ Hrect Hmix)). reflexivity.
Qed.

Lemma loop_body_lockstep st st' st1 :
  lockstep flip sigma (length mix) st st' ->
  loop_body md chunk_size step fade_size batch_size w0 model mix st = Done st1 ->
  exists st1',
    loop_body md chunk_size step fade_size batch_size w0 model mix' st' = Done st1'
    /\ lockstep flip sigma (length mix) st1 st1'.
Proof.
  intros (Hi & Hbd & Hbl & Hres & Hcnt & Hpl) Hb.
  destruct (augmented_rectangular _ _ Hrect Hmix) as [_ Hc].
  unfold loop_body in *. rewrite Hi, Hbl, Hcnt, Hpl, Hc, batch_window_lockstep.
  set (part := map (fun r => take chunk_size (drop (i st) r)) mix) in *.
  set (part' := map (fun r => take chunk_size (drop (i st) r)) mix').
  assert (Hpart : arel part part').
  { apply augmented_map; [|exact Hmix]. intros r r'. apply rrel_cut. }
  pose proof (rectangular_cut chunk_size (i st) mix Hrect) as Hprect. fold part in Hprect.
  rewrite (proj2 (augmented_rectangular _ _ Hprect Hpart)).
  destruct (pad_part md chunk_size part) as [p| |] eqn:Hp; cbn [mbind outcome_bind] in Hb;
    [|discriminate ..].
  destruct (pad_part_lockstep _ _ _ _ _ Hprect Hpart Hp) as (p' & -> & Hrel & Hlen).
  cbn [mbind outcome_bind].
  assert (Hbd1 : Forall2 (in_step flip sigma (length mix))
                         (batch_data st ++ [p]) (batch_data st' ++ [p'])).
  { apply Forall2_app; [exact Hbd|]. constructor; [|constructor].
    split; [exact Hrel|]. rewrite Hlen. subst part. apply length_map. }
  rewrite <- (Forall2_length _ _ _ Hbd1).
  destruct (_ || _).
  - destruct (accumulate_batch _ _ _ _ _) as [rc| |] eqn:Hacc; cbn [mbind outcome_bind] in Hb;
      [|discriminate ..].
    injection Hb as <-.
    destruct (accumulate_batch_lockstep _ _ _ _ _ _ _ _ _ _
                (outputs_in_step _ _ Hbd1) Hres Hacc) as (r1' & -> & Hr1).
    cbn [mbind outcome_bind fst snd]. eexists. split; [reflexivity|].
    repeat split; cbn; auto.
  - injection Hb as <-. eexists. split; [reflexivity|].
    repeat split; cbn; auto.
Qed.

Lemma demix_loop_lockstep fuel : forall st st' st1,
  lockstep flip sigma (length mix) st st' ->
  demix_loop md chunk_size step fade_size batch_size w0 model mix fuel st = Done st1 ->
  exists st1',
    demix_loop md chunk_size step fade_size batch_size w0 model mix' fuel st' = Done st1'
    /\ lockstep flip sigma (length mix) st1 st1'.
Proof.
  destruct (augmented_rectangular _ _ Hrect Hmix) as [_ Hc].
  induction fuel as [|fuel IH]; intros st st' st1 Hl; cbn [demix_loop];
    rewrite Hc, (proj1 Hl).
  - destruct (_ <? _); [discriminate|]. intros [= <-]. eauto.
  - destruct (_ <? _); [|intros [= <-]; eauto].
    destruct (loop_body _ _ _ _ _ _ _ mix st) as [st2| |] eqn:Hb; cbn [mbind outcome_bind];
      [|discriminate ..].
    destruct (loop_body_lockstep _ _ _ Hl Hb) as (st2' & -> & Hl2).
    cbn [mbind outcome_bind]. apply IH. exact Hl2.
Qed.

End Loop.

End Lockstep.

Lemma Forall2_zip_with_replicate {A A' B C C' : Type} (R : A -> A' -> Prop)
    (T : C -> C' -> Prop) (f : A -> B -> C) (f' : A' -> B -> C') (c : B) a a' :
  (forall x x', R x x' -> T (f x c) (f' x' c)) ->
  Forall2 R a a' -> forall n, Forall2 T (zip_with f a (replicate n c))
                                      (zip_with f' a' (replicate n c)).
Proof.
  intros Hf. induction 1 as [|x x' a a' Hx Ha IH]; intros [|n]; cbn [replicate zip_with];
    constructor; auto.
Qed.

Lemma counter_uniform fuel md batch_size model pl st :
  demix_run fuel md batch_size model pl = Done st ->
  counter st
  = replicate (p_num_instruments pl)
      (replicate (length (p_mix pl))
         (replay (placed st) (replicate (cols (p_mix pl)) 0%Q))).
Proof.
  unfold demix_run. intros Hrun.
  apply (placed_inv_run md (p_chunk_size pl) (p_step pl) (p_fade_size pl) batch_size
           (p_window pl) model (p_mix pl) fuel) in Hrun as (Hc & _).
  rewrite Hc. change (map ?g ?l) with (g <$> l). rewrite fmap_replicate.
  f_equal. change (map ?g ?l) with (g <$> l). rewrite fmap_replicate. reflexivity.
Qed.

Section AugmentedRun.

Variable flip : bool.
Variable sigma : Q.
Hypothesis Hsigma : (sigma == 1 \/ sigma == -1)%Q.

Local Abbreviation qrel := (fun x y : Q => (y == sigma * x)%Q).
Local Abbreviation rrel := (Forall2 qrel).
Local Abbreviation arel := (augmented flip sigma).

Lemma qrel_divide x y c :
  qrel x y -> qrel (nan_to_num (true_divide x c)) (nan_to_num (true_divide y c)).
Proof.
  cbn beta. intros Hxy. unfold true_divide.
  destruct (Qeq_bool c 0) eqn:Ec.
  - assert (Hzero : (x == 0 <-> y == 0)%Q).
    { destruct Hsigma as [Hs|Hs]; rewrite Hs in Hxy; split; intros H.
      - rewrite Hxy, H. ring.
      - assert (E : (x == y)%Q) by (rewrite Hxy; ring). rewrite E. exact H.
      - rewrite Hxy, H. ring.
      - assert (E : (x == - y)%Q) by (rewrite Hxy; ring). rewrite E, H. ring. }
    destruct (Qeq_bool x 0) eqn:Ex, (Qeq_bool y 0) eqn:Ey.
    + cbn. ring.
    + apply Qeq_bool_iff in Ex. apply Qeq_bool_neq in Ey. tauto.
    + apply Qeq_bool_iff in Ey. apply Qeq_bool_neq in Ex. tauto.
    + apply Qeq_bool_neq in Ex.
      assert (Hsign : ((0 <= y) <-> (if Qeq_bool sigma 1 then 0 <= x else x <= 0))%Q).
      { destruct Hsigma as [Hs|Hs].
        - rewrite (proj2 (Qeq_bool_iff sigma 1) Hs). rewrite Hs in Hxy.
          assert (E : (y == x)%Q) by (rewrite Hxy; ring). rewrite E. tauto.
        - destruct (Qeq_bool sigma 1) eqn:E1.
          + apply Qeq_bool_iff in E1. rewrite Hs in E1. discriminate E1.
          + rewrite Hs in Hxy. assert (E : (y == - x)%Q) by (rewrite Hxy; ring).
            rewrite E. split; intros H.
            * apply Qopp_le_compat in H. rewrite Qopp_involutive in H. exact H.
            * apply Qopp_le_compat in H. exact H. }
      destruct (Qeq_bool sigma 1) eqn:E1.
      * apply Qeq_bool_iff in E1.
        destruct (Qle_bool 0 x) eqn:Lx, (Qle_bool 0 y) eqn:Ly; cbn [nan_to_num];
          try (rewrite E1; ring); exfalso.
        -- apply Qle_bool_iff in Lx. apply Hsign in Lx. apply Qle_bool_iff in Lx. congruence.
        -- apply Qle_bool_iff in Ly. apply Hsign in Ly. apply Qle_bool_iff in Ly. congruence.
      * assert (Hs : (sigma == -1)%Q).
        { destruct Hsigma as [Hs|Hs]; [|exact Hs].
          apply Qeq_bool_iff in Hs. congruence. }
        destruct (Qle_bool 0 x) eqn:Lx, (Qle_bool 0 y) eqn:Ly; cbn [nan_to_num];
          try (rewrite Hs; ring); exfalso.
        -- apply Qle_bool_iff in Lx, Ly. apply Hsign in Ly.
           apply Ex. apply Qle_antisym; assumption.
        -- assert (H : ~ (0 <= x)%Q) by (intros H; apply Qle_bool_iff in H; congruence).
           apply Qnot_le_lt in H. apply Qlt_le_weak in H. apply Hsign in H.
           apply Qle_bool_iff in H. congruence.
  - apply Qeq_bool_neq in Ec. cbn [nan_to_num]. rewrite Hxy. field. exact Ec.
Qed.

Lemma demix_plan_lockstep cfg md mix mix' pl :
  rectangular mix -> arel mix mix' -> demix_plan cfg md mix = Done pl ->
  exists m',
    demix_plan cfg md mix'
    = Done {| p_chunk_size := p_chunk_size pl; p_num_instruments := p_num_instruments pl;
              p_step := p_step pl; p_fade_size := p_fade_size pl; p_border := p_border pl;
              p_length_init := p_length_init pl; p_window := p_window pl; p_mix := m' |}
    /\ arel (p_mix pl) m'.
Proof.
  intros Hrect H. destruct (augmented_rectangular flip sigma _ _ Hrect H) as [_ Hc].
  unfold demix_plan. rewrite Hc. destruct md.
  - destruct (floordiv _ _) as [step| |]; cbn [mbind outcome_bind]; [|discriminate ..].
    destruct (_getWindowingArray _ _) as [w| |]; cbn [mbind outcome_bind]; [|discriminate ..].
    destruct (padded _ _).
    + destruct (forM _ mix) as [m| |] eqn:Hm; cbn [mbind outcome_bind]; [|discriminate ..].
      intros [= <-]. cbn.
      destruct (reflect_pad_lockstep flip sigma _ _ _ _ _ H Hm) as (m' & -> & _ & Hrel).
      cbn [mbind outcome_bind]. exists m'. split; [reflexivity|exact Hrel].
    + cbn [mbind outcome_bind]. intros [= <-]. cbn. exists mix'.
      split; [reflexivity|exact H].
  - destruct (floordiv _ _) as [step| |]; cbn [mbind outcome_bind]; [|discriminate ..].
    intros [= <-]. cbn. exists mix'. split; [reflexivity|exact H].
Qed.

Lemma initial_state_lockstep pl m' :
  rectangular (p_mix pl) -> arel (p_mix pl) m' ->
  lockstep flip sigma (length (p_mix pl)) (initial_state pl)
    (initial_state
       {| p_chunk_size := p_chunk_size pl; p_num_instruments := p_num_instruments pl;
          p_step := p_step pl; p_fade_size := p_fade_size pl; p_border := p_border pl;
          p_length_init := p_length_init pl; p_window := p_window pl; p_mix := m' |}).
Proof.
  intros Hrect H. destruct (augmented_rectangular flip sigma _ _ Hrect H) as [_ Hc].
  unfold initial_state, lockstep. cbn.
  rewrite Hc, (augmented_length flip sigma _ _ H).
  repeat split; try constructor.
  apply Forall2_replicate. split; [|apply length_replicate].
  unfold augmented. rewrite arrange_replicate.
  apply Forall2_replicate. apply rrel_zero.
Qed.

Lemma demix_run_lockstep n fuel md batch_size model pl m' st :
  keeps_contract n model -> commutes_with flip sigma model ->
  rectangular (p_mix pl) -> arel (p_mix pl) m' ->
  demix_run fuel md batch_size model pl = Done st ->
  exists st',
    demix_run fuel md batch_size model
      {| p_chunk_size := p_chunk_size pl; p_num_instruments := p_num_instruments pl;
         p_step := p_step pl; p_fade_size := p_fade_size pl; p_border := p_border pl;
         p_length_init := p_length_init pl; p_window := p_window pl; p_mix := m' |}
    = Done st'
    /\ lockstep flip sigma (length (p_mix pl)) st st'.
Proof.
  intros Hk Hcomm Hrect H Hrun. unfold demix_run in *.
  cbn [p_chunk_size p_step p_fade_size p_window p_mix].
  eapply (demix_loop_lockstep flip sigma); try eassumption.
  apply initial_state_lockstep; assumption.
Qed.

Lemma rrel_strip b r r' :
  rrel r r' -> rrel (drop b (take (length r - b) r)) (drop b (take (length r' - b) r')).
Proof.
  intros H. rewrite <- (Forall2_length _ _ _ H). apply Forall2_drop, Forall2_take, H.
Qed.

Lemma strip_border_lockstep md pl pl' a a' :
  p_border pl' = p_border pl -> p_length_init pl' = p_length_init pl ->
  Forall2 arel a a' -> Forall2 arel (strip_border md pl a) (strip_border md pl' a').
Proof.
  intros Hb Hl H. unfold strip_border. rewrite Hb, Hl.
  destruct md; [destruct (padded _ _)|]; try exact H.
  change (map ?g ?l) with (g <$> l). apply Forall2_fmap.
  eapply Forall2_impl; [exact H|]. intros m m' Hm.
  apply (augmented_map flip sigma); [|exact Hm]. intros r r'. apply rrel_strip.
Qed.

Lemma normalize_lockstep n ch crow R R' :
  Forall2 (in_step flip sigma ch) R R' ->
  Forall2 arel (normalize R (replicate n (replicate ch crow)))
               (normalize R' (replicate n (replicate ch crow))).
Proof.
  intros H. unfold normalize.
  eapply Forall2_zip_with_replicate; [|exact H].
  intros m m' [Hm Hlen].
  rewrite !zip_with_replicate_row
    by (try rewrite (augmented_length flip sigma _ _ Hm); lia).
  apply (augmented_map flip sigma); [|exact Hm].
  intros r r' Hr. eapply Forall2_zip_with_l; [|exact Hr].
  intros x x' c. apply qrel_divide.
Qed.

Lemma dict_set_augmented k v v' d d' :
  arel v v' -> dict_augmented flip sigma d d' ->
  dict_augmented flip sigma (dict_set k v d) (dict_set k v' d').
Proof.
  intros Hv. unfold dict_augmented.
  induction 1 as [|[k0 v0] [k0' v0'] d d' [Hk H0] Hd IH]; cbn [dict_set].
  - repeat constructor. exact Hv.
  - cbn [fst snd] in *. subst k0'.
    destruct (String.eqb k0 k); constructor; cbn [fst snd]; auto.
Qed.

Lemma dict_of_augmented names : forall es es',
  Forall2 arel es es' ->
  dict_augmented flip sigma (dict_of (zip names es)) (dict_of (zip names es')).
Proof.
  unfold dict_of.
  assert (H : forall es es' acc acc',
             Forall2 arel es es' -> dict_augmented flip sigma acc acc' ->
             dict_augmented flip sigma
               (fold_left (fun d kv => dict_set kv.1 kv.2 d) (zip names es) acc)
               (fold_left (fun d kv => dict_set kv.1 kv.2 d) (zip names es') acc')).
  { induction names as [|k names IH]; intros es es' acc acc' Hes Hacc.
    - exact Hacc.
    - destruct Hes as [|e e' es es' He Hes]; [exact Hacc|].
      cbn [zip zip_with fold_left fst snd]. apply IH; [exact Hes|].
      apply dict_set_augmented; assumption. }
  intros es es' Hes. apply H; [exact Hes|constructor].
Qed.

Lemma dict_augmented_keys d d' : dict_augmented flip sigma d d' -> map fst d' = map fst d.
Proof.
  induction 1 as [|[k v] [k' v'] d d' [Hk _] _ IH]; [reflexivity|].
  cbn [map fst] in *. congruence.
Qed.

Lemma dict_augmented_get d d' el b :
  dict_augmented flip sigma d d' -> dict_get el d = Some b ->
  exists v, dict_get el d' = Some v /\ arel b v.
Proof.
  induction 1 as [|[k v] [k' v'] d d' [Hk Hv] _ IH]; cbn [dict_get]; [discriminate|].
  cbn [fst snd] in *. subst k'. destruct (String.eqb k el); [|exact IH].
  intros [= <-]. eauto.
Qed.

Lemma demix_lockstep n fuel cfg model mix mix' model_type fl d :
  keeps_contract n model -> commutes_with flip sigma model ->
  rectangular mix -> arel mix mix' ->
  demix fuel cfg model mix model_type fl = Done (Mapping d) ->
  exists d', demix fuel cfg model mix' model_type fl = Done (Mapping d')
             /\ dict_augmented flip sigma d d'.
Proof.
  intros Hk Hcomm Hrect H Hrun.
  apply demix_inv in Hrun as (pl & st & Hpl & Hrun & Hout).
  pose proof (demix_plan_rectangular _ _ _ _ Hpl Hrect) as Hprect.
  destruct (demix_plan_lockstep _ _ _ _ _ Hrect H Hpl) as (m' & Hpl' & Hm').
  destruct (demix_run_lockstep n _ _ _ _ _ _ _ Hk Hcomm Hprect Hm' Hrun)
    as (st' & Hrun' & Hlock).
  pose proof (counter_uniform _ _ _ _ _ _ Hrun) as Hcnt.
  unfold demix. cbn zeta. rewrite Hpl'. cbn [mbind outcome_bind].
  rewrite Hrun'. cbn [mbind outcome_bind].
  set (pl' := Build_plan _ _ _ _ _ _ _ _) in *.
  assert (Hes : Forall2 arel
                  (strip_border (select_mode fl model_type) pl
                     (normalize (result st) (counter st)))
                  (strip_border (select_mode fl model_type) pl'
                     (normalize (result st') (counter st')))).
  { apply strip_border_lockstep; [reflexivity ..|].
    destruct Hlock as (_ & _ & _ & Hres & -> & _). rewrite Hcnt.
    apply normalize_lockstep. exact Hres. }
  unfold demix_finalize in *. cbn zeta in *.
  destruct (select_mode fl model_type).
  - injection Hout as ->. eexists. split; [reflexivity|].
    apply dict_of_augmented. exact Hes.
  - change (p_num_instruments pl') with (p_num_instruments pl).
    destruct (p_num_instruments pl <=? 1); [discriminate|].
    injection Hout as ->. eexists. split; [reflexivity|].
    apply dict_of_augmented. exact Hes.
Qed.

End AugmentedRun.

(** ** [apply_tta]: merging the augmented results *)

Lemma negate_opp mix : negate mix = map (map Qopp) mix.
Proof.
  unfold negate. apply map_ext. intros r. apply map_ext.
  intros [[|p|p] d]; reflexivity.
Qed.

Lemma stretch_same {A : Type} (l : list A) : stretch (length l) l = l.
Proof. destruct l as [|x [|y l]]; reflexivity. Qed.

Lemma stem_like_cols mix a b : stem_like mix a -> stem_like mix b -> cols a = cols b.
Proof.
  intros [Ha1 Ha2] [Hb1 Hb2].
  destruct a as [|ra a], b as [|rb b]; cbn [length] in *; try congruence.
  inversion Ha2; inversion Hb2; subst. cbn [cols]. congruence.
Qed.

Lemma array_inplace_same_shape op mix a b :
  stem_like mix a -> stem_like mix b ->
  array_inplace op a b = Done (zip_with (zip_with op) a b)
  /\ stem_like mix (zip_with (zip_with op) a b).
Proof.
  intros Ha Hb. pose proof (stem_like_cols _ _ _ Ha Hb) as Hc.
  destruct Ha as [Ha1 Ha2], Hb as [Hb1 Hb2]. split.
  - assert (Hlen : length b = length a) by congruence.
    unfold array_inplace, broadcasts. rewrite Hlen, <- Hc, !Nat.eqb_refl.
    cbn [orb andb]. f_equal. rewrite <- Hlen, stretch_same.
    clear Ha1 Hb1 Hc Hlen. revert b Hb2.
    induction Ha2 as [|ra a Hra _ IH]; intros b Hb2; [reflexivity|].
    destruct Hb2 as [|rb b Hrb Hb2]; [reflexivity|]. cbn [zip_with].
    rewrite IH by exact Hb2. f_equal.
    replace (length ra) with (length rb) by congruence.
    rewrite stretch_same. reflexivity.
  - split; [rewrite length_zip_with; lia|].
    apply (Forall_zip_with_both (fun r : row => length r = cols mix)
             (fun r : row => length r = cols mix)); [exact Ha2|exact Hb2|].
    intros x y Hx Hy. rewrite length_zip_with. lia.
Qed.

(** An operand with one channel is applied to every channel, an operand
    with one sample to every sample. *)
Lemma array_inplace_one_channel op (a : array2) (rb : row) :
  a <> [] -> Forall (fun ra : row => length ra = length rb) a ->
  array_inplace op a [rb] = Done (map (fun ra => zip_with op ra rb) a).
Proof.
  intros Hne Ha. unfold array_inplace, broadcasts. cbn [length cols].
  assert (Hc : cols a = length rb) by (destruct Ha; [contradiction|assumption]).
  rewrite Hc, !Nat.eqb_refl, orb_true_r. cbn [andb stretch]. f_equal.
  rewrite zip_with_replicate_row by lia.
  apply map_ext_in. intros ra Hra.
  rewrite List.Forall_forall in Ha. rewrite (Ha ra Hra), stretch_same. reflexivity.
Qed.

Lemma array_inplace_one_sample :
  array_inplace Qplus [[1; 2]; [3; 4]]%Q [[10]]%Q = Done [[11; 12]; [13; 14]]%Q
  /\ array_inplace Qplus [[1; 2]; [3; 4]]%Q [[10; 20; 30]]%Q = Raised ValueError.
Proof. split; vm_compute; reflexivity. Qed.

Lemma stem_like_reverse mix a : stem_like mix a -> stem_like mix (reverse a).
Proof.
  intros [H1 H2]. split; [rewrite length_reverse; exact H1|apply Forall_reverse; exact H2].
Qed.

Lemma cols_reverse mix : rectangular mix -> cols (reverse mix) = cols mix.
Proof.
  intros Hrect.
  assert (H : Forall (fun r : row => length r = cols mix) (reverse mix))
    by (apply Forall_reverse; exact Hrect).
  destruct (reverse mix) as [|r l] eqn:E; [|inversion H; subst; assumption].
  apply (f_equal length) in E. rewrite length_reverse in E.
  destruct mix; [reflexivity|discriminate].
Qed.

Lemma rectangular_reverse mix : rectangular mix -> rectangular (reverse mix).
Proof.
  intros Hrect. unfold rectangular. rewrite cols_reverse by exact Hrect.
  apply Forall_reverse. exact Hrect.
Qed.

Lemma cols_negate mix : cols (negate mix) = cols mix.
Proof. unfold negate. destruct mix; [reflexivity|apply length_map]. Qed.

Lemma rectangular_negate mix : rectangular mix -> rectangular (negate mix).
Proof.
  intros Hrect. unfold rectangular. rewrite cols_negate. unfold negate.
  apply List.Forall_map. eapply Forall_impl; [exact Hrect|].
  intros r Hr. cbn beta. rewrite length_map. exact Hr.
Qed.

Lemma stem_like_reversed mix a :
  rectangular mix -> stem_like (reverse mix) a -> stem_like mix a.
Proof.
  intros Hrect [H1 H2]. rewrite length_reverse in H1.
  rewrite cols_reverse in H2 by exact Hrect. split; assumption.
Qed.

Lemma stem_like_negated mix a : stem_like (negate mix) a -> stem_like mix a.
Proof.
  intros [H1 H2]. rewrite cols_negate in H2. unfold negate in H1.
  rewrite length_map in H1. split; assumption.
Qed.

Lemma dict_get_Forall {V : Type} (P : V -> Prop) (d : list (string * V)) k v :
  Forall (fun kv => P kv.2) d -> dict_get k d = Some v -> P v.
Proof.
  induction 1 as [|[k' v'] d Hk _ IH]; cbn [dict_get]; [discriminate|].
  destruct (String.eqb k' k); [|exact IH]. intros [= <-]. exact Hk.
Qed.

(** The stems of a mapping [demix] returns have the shape of the input. *)
Lemma demix_stems_like fuel cfg model mix model_type fl d :
  rectangular mix -> demix fuel cfg model mix model_type fl = Done (Mapping d) ->
  Forall (fun kv => stem_like mix kv.2) d.
Proof.
  intros Hrect Hrun. apply demix_inv in Hrun as (pl & st & Hpl & Hrun & Hout).
  destruct (demix_rows_shape _ _ _ _ _ _ _ Hpl Hrect Hrun) as [_ Hrows].
  unfold demix_finalize in Hout. cbn zeta in Hout.
  assert (E : exists names, d = dict_of (zip names
                (strip_border (select_mode fl model_type) pl
                   (normalize (result st) (counter st))))).
  { destruct (select_mode fl model_type).
    - injection Hout as ->. eauto.
    - destruct (_ <=? 1); [discriminate|]. injection Hout as ->. eauto. }
  destruct E as [names ->]. apply Forall_dict_of, Forall_zip_snd. exact Hrows.
Qed.

(** One augmentation pass over the keys [ks] of [waveforms], when the
    stems on both sides have the shape of the input. *)
Lemma merge_keys mix i (w : list (string * array2)) ks : forall orig,
  List.NoDup ks ->
  (forall el, In el ks ->
     (exists v, dict_get el w = Some v /\ stem_like mix v)
     /\ (exists b, dict_get el orig = Some b /\ stem_like mix b)) ->
  exists orig',
    foldlM (fun orig el =>
              match dict_get el w with
              | None => Raised KeyError
              | Some v =>
                  if i =? 0 then dict_update Qplus el (channel_reverse v) orig
                  else dict_update Qminus el v orig
              end) ks orig = Done orig'
    /\ map fst orig' = map fst orig
    /\ (forall el, ~ In el ks -> dict_get el orig' = dict_get el orig)
    /\ (forall el b v, In el ks -> dict_get el orig = Some b -> dict_get el w = Some v ->
          dict_get el orig' = Some (merged i b v) /\ stem_like mix (merged i b v)).
Proof.
  induction ks as [|k ks IH]; intros orig Hnd Hks; cbn [foldlM].
  - exists orig. repeat split; auto; destruct H.
  - apply List.NoDup_cons_iff in Hnd as [Hk Hnd].
    destruct (Hks k (or_introl eq_refl)) as [(v & Hv & Hvs) (b & Hb & Hbs)].
    rewrite Hv.
    set (orig1 := dict_set k (merged i b v) orig).
    assert (Hstep : (if i =? 0 then dict_update Qplus k (channel_reverse v) orig
                     else dict_update Qminus k v orig) = Done orig1
                    /\ stem_like mix (merged i b v)).
    { unfold dict_update. rewrite Hb. subst orig1. unfold merged, arr_add, arr_sub.
      unfold channel_reverse. destruct (i =? 0).
      - destruct (array_inplace_same_shape Qplus mix b (reverse v) Hbs
                    (stem_like_reverse _ _ Hvs)) as [-> Hs]. split; [reflexivity|exact Hs].
      - destruct (array_inplace_same_shape Qminus mix b v Hbs Hvs) as [-> Hs].
        split; [reflexivity|exact Hs]. }
    destruct Hstep as [Hstep Hshape]. rewrite Hstep. cbn [mbind outcome_bind].
    assert (Hkeys1 : map fst orig1 = map fst orig).
    { subst orig1. apply keys_dict_set. eapply dict_get_Some_keys. exact Hb. }
    assert (Hget1 : forall el, el <> k -> dict_get el orig1 = dict_get el orig).
    { intros el Hne. subst orig1. rewrite dict_get_set.
      destruct (String.eqb_spec k el); [congruence|reflexivity]. }
    destruct (IH orig1 Hnd) as (orig' & Hrun & Hkeys & Hout & Hin).
    { intros el Hel. rewrite Hget1 by (intros ->; contradiction).
      apply Hks. right. exact Hel. }
    exists orig'. split; [exact Hrun|]. split; [congruence|]. split.
    + intros el Hel. rewrite Hout by (intros H; apply Hel; right; exact H).
      apply Hget1. intros ->. apply Hel. left. reflexivity.
    + intros el b' v' [<-|Hel] Hb' Hv'.
      * rewrite Hout by exact Hk. subst orig1. rewrite dict_get_set, String.eqb_refl.
        split; [congruence|]. congruence.
      * apply Hin; [exact Hel| |exact Hv'].
        rewrite Hget1 by (intros ->; contradiction). exact Hb'.
Qed.

Lemma merge_augmented_spec mix i (w orig : list (string * array2)) :
  List.NoDup (map fst w) ->
  Forall (fun kv => stem_like mix kv.2) w ->
  (forall el, In el (map fst w) -> exists b, dict_get el orig = Some b /\ stem_like mix b) ->
  exists orig',
    merge_augmented i w orig = Done orig'
    /\ map fst orig' = map fst orig
    /\ (forall el, dict_get el w = None -> dict_get el orig' = dict_get el orig)
    /\ (forall el b v, dict_get el orig = Some b -> dict_get el w = Some v ->
          dict_get el orig' = Some (merged i b v) /\ stem_like mix (merged i b v)).
Proof.
  intros Hnd Hw Hsub. unfold merge_augmented.
  destruct (merge_keys mix i w (map fst w) orig Hnd) as (orig' & Hrun & Hkeys & Hout & Hin).
  { intros el Hel. split; [|apply Hsub; exact Hel].
    destruct (dict_get_Some_In _ _ Hel) as [v Hv]. exists v. split; [exact Hv|].
    exact (dict_get_Forall _ _ _ _ Hw Hv). }
  exists orig'. split; [exact Hrun|]. split; [exact Hkeys|]. split.
  - intros el Hel. apply Hout. intros Hk.
    destruct (dict_get_Some_In _ _ Hk) as [v Hv]. congruence.
  - intros el b v Hb Hv. apply (Hin el b v); [|exact Hb|exact Hv].
    eapply dict_get_Some_keys. exact Hv.
Qed.

Lemma keys_fold_dict_set {V : Type} names : forall (es es' : list V) acc acc',
  length es = length es' -> map fst acc = map fst acc' ->
  map fst (fold_left (fun d kv => dict_set kv.1 kv.2 d) (zip names es) acc)
  = map fst (fold_left (fun d kv => dict_set kv.1 kv.2 d) (zip names es') acc').
Proof.
  induction names as [|k names IH]; intros [|e es] [|e' es'] acc acc' Hlen Hacc;
    cbn [length] in Hlen; try discriminate; try exact Hacc.
  cbn [zip zip_with fold_left fst snd]. apply IH; [lia|].
  destruct (in_dec String.string_dec k (map fst acc)) as [Hin|Hn].
  - rewrite (proj1 (keys_dict_set acc k e) Hin).
    rewrite Hacc in Hin. rewrite (proj1 (keys_dict_set acc' k e') Hin). exact Hacc.
  - rewrite (proj2 (keys_dict_set acc k e) Hn).
    rewrite Hacc in Hn. rewrite (proj2 (keys_dict_set acc' k e') Hn). congruence.
Qed.

(** The names [demix] returns depend on the configuration only. *)
Lemma demix_keys fuel cfg model mix mix' model_type fl d d' :
  rectangular mix -> rectangular mix' ->
  demix fuel cfg model mix model_type fl = Done (Mapping d) ->
  demix fuel cfg model mix' model_type fl = Done (Mapping d') ->
  map fst d' = map fst d.
Proof.
  intros Hrect Hrect' Hrun Hrun'.
  apply demix_inv in Hrun as (pl & st & Hpl & Hrun & Hout).
  apply demix_inv in Hrun' as (pl' & st' & Hpl' & Hrun' & Hout').
  destruct (demix_rows_shape _ _ _ _ _ _ _ Hpl Hrect Hrun) as [Hlen _].
  destruct (demix_rows_shape _ _ _ _ _ _ _ Hpl' Hrect' Hrun') as [Hlen' _].
  apply demix_plan_inv in Hpl as (_ & _ & _ & Hmd).
  apply demix_plan_inv in Hpl' as (_ & _ & _ & Hmd').
  unfold demix_finalize in Hout, Hout'. cbn zeta in Hout, Hout'.
  destruct (select_mode fl model_type).
  - destruct Hmd as (_ & Hn & _), Hmd' as (_ & Hn' & _).
    injection Hout as ->. injection Hout' as ->.
    apply keys_fold_dict_set; [|reflexivity].
    etransitivity; [exact Hlen'|]. rewrite Hn', <- Hn. symmetry. exact Hlen.
  - destruct Hmd as (_ & Hn & _), Hmd' as (_ & Hn' & _).
    destruct (p_num_instruments pl <=? 1); [discriminate|].
    destruct (p_num_instruments pl' <=? 1); [discriminate|].
    injection Hout as ->. injection Hout' as ->.
    apply keys_fold_dict_set; [|reflexivity].
    etransitivity; [exact Hlen'|]. rewrite Hn', <- Hn. symmetry. exact Hlen.
Qed.

(** The two passes and the division, when every returned name is bound
    in the given stems to a stem of the input's shape. *)
Lemma apply_tta_runs fuel cfg model mix base model_type w_rev w_neg :
  rectangular mix ->
  demix fuel cfg model (reverse mix) model_type native = Done (Mapping w_rev) ->
  demix fuel cfg model (negate mix) model_type native = Done (Mapping w_neg) ->
  (forall el, In el (map fst w_rev) \/ In el (map fst w_neg) ->
              exists b, dict_get el base = Some b /\ stem_like mix b) ->
  exists out,
    apply_tta fuel cfg model mix base model_type = Done out
    /\ map fst out = map fst base
    /\ (forall el b r n,
          dict_get el base = Some b -> dict_get el w_rev = Some r ->
          dict_get el w_neg = Some n ->
          dict_get el out = Some (arr_div (arr_sub (arr_add b (reverse r)) n) 3)
          /\ stem_like mix r /\ stem_like mix n
          /\ stem_like mix (arr_sub (arr_add b (reverse r)) n))
    /\ (forall el b,
          dict_get el base = Some b -> dict_get el w_rev = None ->
          dict_get el w_neg = None -> dict_get el out = Some (arr_div b 3)).
Proof.
  intros Hrect Hrev Hneg Hkeys.
  pose proof (demix_Mapping_NoDup _ _ _ _ _ _ _ Hrev) as Hnd1.
  pose proof (demix_Mapping_NoDup _ _ _ _ _ _ _ Hneg) as Hnd2.
  assert (Hs1 : Forall (fun kv => stem_like mix kv.2) w_rev).
  { eapply Forall_impl;
      [exact (demix_stems_like _ _ _ _ _ _ _ (rectangular_reverse _ Hrect) Hrev)|].
    intros kv. apply stem_like_reversed. exact Hrect. }
  assert (Hs2 : Forall (fun kv => stem_like mix kv.2) w_neg).
  { eapply Forall_impl;
      [exact (demix_stems_like _ _ _ _ _ _ _ (rectangular_negate _ Hrect) Hneg)|].
    intros kv. apply stem_like_negated. }
  destruct (merge_augmented_spec mix 0 w_rev base Hnd1 Hs1)
    as (o1 & Hm1 & Hk1 & Hout1 & Hin1).
  { intros el Hel. apply Hkeys. left. exact Hel. }
  destruct (merge_augmented_spec mix 1 w_neg o1 Hnd2 Hs2)
    as (o2 & Hm2 & Hk2 & Hout2 & Hin2).
  { intros el Hel. destruct (Hkeys el (or_intror Hel)) as (b & Hb & Hbs).
    destruct (dict_get el w_rev) as [r|] eqn:Hr.
    - destruct (Hin1 el b r Hb Hr) as [H1 H2]. eauto.
    - rewrite (Hout1 el Hr). eauto. }
  eexists. split; [|split; [|split]].
  - unfold apply_tta. cbn [imap foldlM fst snd compose].
    change (channel_reverse mix) with (reverse mix).
    rewrite Hrev. cbn [mbind outcome_bind]. rewrite Hm1. cbn [mbind outcome_bind].
    rewrite Hneg. cbn [mbind outcome_bind]. rewrite Hm2. cbn [mbind outcome_bind].
    reflexivity.
  - rewrite map_map. cbn [fst]. rewrite <- Hk1, <- Hk2. reflexivity.
  - intros el b r n Hb Hr Hn.
    rewrite (dict_get_map_arrays (fun a => map (map (fun x => (x / _)%Q)) a)).
    destruct (Hin1 el b r Hb Hr) as [H1 _].
    destruct (Hin2 el _ n H1 Hn) as [H2 H3]. rewrite H2.
    split; [reflexivity|]. split; [exact (dict_get_Forall _ _ _ _ Hs1 Hr)|].
    split; [exact (dict_get_Forall _ _ _ _ Hs2 Hn)|exact H3].
  - intros el b Hb Hr Hn.
    rewrite (dict_get_map_arrays (fun a => map (map (fun x => (x / _)%Q)) a)).
    rewrite (Hout2 el Hn), (Hout1 el Hr), Hb. reflexivity.
Qed.

Lemma at2_inv (a : list row) ch s x :
  at2 a ch s = Some x -> exists r, a !! ch = Some r /\ r !! s = Some x.
Proof.
  unfold at2. destruct (a !! ch) as [r|]; cbn; [eauto|discriminate].
Qed.

Lemma at2_tta_average mix b r n ch s bv rv nv :
  stem_like mix b -> stem_like mix r ->
  at2 b ch s = Some bv -> at2 r (length mix - 1 - ch) s = Some rv ->
  at2 n ch s = Some nv ->
  at2 (arr_div (arr_sub (arr_add b (reverse r)) n) 3) ch s = Some ((bv + rv - nv) / 3)%Q.
Proof.
  intros [Hb _] [Hr _] Hbv Hrv Hnv.
  apply at2_inv in Hbv as (rb & Hrb & Hbv). apply at2_inv in Hrv as (rr & Hrr & Hrv).
  apply at2_inv in Hnv as (rn & Hrn & Hnv).
  pose proof (lookup_lt_Some _ _ _ Hrb) as Hch.
  assert (Hrev : reverse r !! ch = Some rr).
  { rewrite reverse_lookup by lia. rewrite <- Hrr. f_equal. lia. }
  unfold at2, arr_div, arr_sub, arr_add.
  change (map ?g ?l) with (g <$> l). rewrite list_lookup_fmap, !lookup_zip_with.
  rewrite Hrb, Hrev, Hrn. cbn.
  change (map ?g ?l) with (g <$> l). rewrite list_lookup_fmap, !lookup_zip_with.
  rewrite Hbv, Hrv, Hnv. reflexivity.
Qed.

(** A third of [b + r - n] is [b] when [r] is [b] and [n] is [-b]. *)
Lemma tta_average_same (b r n : array2) :
  Forall2 (Forall2 (fun x y => y == 1 * x)%Q) b r ->
  Forall2 (Forall2 (fun x y => y == -1 * x)%Q) b n ->
  Forall2 (Forall2 Qeq) (arr_div (arr_sub (arr_add b r) n) 3) b.
Proof.
  unfold arr_div, arr_sub, arr_add. intros Hr. revert n.
  induction Hr as [|rb rr b r Hrow _ IH]; intros n Hn.
  - inversion Hn; subst. constructor.
  - inversion Hn as [|? rn ? n' Hnrow Hn']; subst. cbn [zip_with map].
    constructor; [|apply IH; exact Hn'].
    clear IH Hn Hn'. revert rn Hnrow.
    induction Hrow as [|x y rb rr Hxy _ IHrow]; intros rn Hnrow.
    + inversion Hnrow; subst. constructor.
    + inversion Hnrow as [|? z ? rn' Hz Hrn']; subst. cbn [zip_with map].
      constructor; [|apply IHrow; exact Hrn'].
      rewrite Hxy, Hz. field.
Qed.

Lemma augmented_refl_reverse mix : augmented true 1 mix (reverse mix).
Proof.
  unfold augmented, arrange. apply Forall_Forall2_diag, Forall_true.
  intros r. apply Forall_Forall2_diag, Forall_true. intros x. ring.
Qed.

Lemma augmented_negate mix : augmented false (-1) mix (negate mix).
Proof.
  unfold augmented, arrange, negate. change (map ?g ?l) with (g <$> l).
  apply Forall2_fmap_r, Forall_Forall2_diag, Forall_true. intros r.
  change (map ?g ?l) with (g <$> l).
  apply Forall2_fmap_r, Forall_Forall2_diag, Forall_true. intros x. reflexivity.
Qed.

(** For a back end that commutes with the two augmentations, the
    augmented runs return when the plain run does, and the average is
    the plain result. *)
Lemma apply_tta_invariant n fuel cfg model mix base model_type :
  rectangular mix -> tta_invariant n model ->
  demix fuel cfg model mix model_type native = Done (Mapping base) ->
  exists out,
    apply_tta fuel cfg model mix base model_type = Done out
    /\ map fst out = map fst base
    /\ forall el b, dict_get el base = Some b ->
         exists o, dict_get el out = Some o /\ Forall2 (Forall2 Qeq) o b.
Proof.
  intros Hrect (Hk & Hc1 & Hc2) Hbase.
  destruct (demix_lockstep true 1 (or_introl (Qeq_refl 1)) n _ _ _ _ _ _ _ _
              Hk Hc1 Hrect (augmented_refl_reverse mix) Hbase) as (w_rev & Hrev & Hd1).
  assert (Hm1 : (-1 == 1 \/ -1 == -1)%Q) by (right; reflexivity).
  destruct (demix_lockstep false (-1) Hm1 n _ _ _ _ _ _ _ _
              Hk Hc2 Hrect (augmented_negate mix) Hbase) as (w_neg & Hneg & Hd2).
  pose proof (demix_stems_like _ _ _ _ _ _ _ Hrect Hbase) as Hshape.
  destruct (apply_tta_runs _ _ _ _ base _ _ _ Hrect Hrev Hneg)
    as (out & Hout & Hkeys & Hin & _).
  { intros el Hel.
    assert (Hb : In el (map fst base)).
    { destruct Hel as [Hel|Hel].
      - rewrite <- (dict_augmented_keys _ _ _ _ Hd1). exact Hel.
      - rewrite <- (dict_augmented_keys _ _ _ _ Hd2). exact Hel. }
    destruct (dict_get_Some_In _ _ Hb) as [b Hget]. exists b. split; [exact Hget|].
    exact (dict_get_Forall _ _ _ _ Hshape Hget). }
  exists out. split; [exact Hout|]. split; [exact Hkeys|].
  intros el b Hb.
  destruct (dict_augmented_get _ _ _ _ _ _ Hd1 Hb) as (r & Hr & Hbr).
  destruct (dict_augmented_get _ _ _ _ _ _ Hd2 Hb) as (m & Hn & Hbn).
  destruct (Hin el b r m Hb Hr Hn) as [Hget _].
  eexists. split; [exact Hget|]. apply tta_average_same.
  - unfold augmented, arrange in Hbr. apply Forall2_reverse in Hbr.
    rewrite reverse_involutive in Hbr. exact Hbr.
  - exact Hbn.
Qed.

Lemma contract_identity : keeps_contract 1 identity_model.
Proof.
  intros batch. unfold identity_model. change (map ?g ?l) with (g <$> l).
  apply Forall2_fmap_r, Forall_Forall2_diag, Forall_true. intros chunk.
  split; [reflexivity|]. constructor; [|constructor].
  apply Forall_Forall2_diag, Forall_true. reflexivity.
Qed.

Lemma commutes_identity flip sigma : commutes_with flip sigma identity_model.
Proof.
  intros batch batch' H. unfold identity_model. change (map ?g ?l) with (g <$> l).
  apply Forall2_fmap. eapply Forall2_impl; [exact H|].
  intros a b Hab. constructor; [exact Hab|constructor].
Qed.

Lemma tta_invariant_identity : tta_invariant 1 identity_model.
Proof.
  split; [apply contract_identity|]. split; apply commutes_identity.
Qed.

(** C4: test-time augmentation.  Let the separations of the mixture
    with its channels reversed and of the negated mixture return, and let
    the given stems be what [demix] returns for the mixture, or any
    stems that bind the returned names to arrays of the input's shape.
    Then [apply_tta] returns; the names and their order are those given,
    and for every instrument the stem is (base + r' - n) / 3 sample by
    sample, [r'] being the result of the first separation with its
    channels put back in order (channel [ch] of [r'] is channel
    [channels - 1 - ch] of that result), [n] the result of the second.
    Consequently, for a back end that keeps the output contract and
    commutes with the reversal of the channels and with the change of
    sign (as a no-op linear model does), [apply_tta] on the result of
    [demix] returns, and its stems equal that result. *)
Theorem tta_averaging (fuel : nat) (cfg : config) (model : list array2 -> list array3)
    (mix : array2) (model_type : string) :
  rectangular mix ->
  (forall (base w_rev w_neg : list (string * array2)),
     demix fuel cfg model (reverse mix) model_type native = Done (Mapping w_rev) ->
     demix fuel cfg model (map (map Qopp) mix) model_type native = Done (Mapping w_neg) ->
     demix fuel cfg model mix model_type native = Done (Mapping base)
     \/ (forall el, In el (map fst w_rev) \/ In el (map fst w_neg) ->
                    exists b, dict_get el base = Some b /\ stem_like mix b) ->
     exists out,
       apply_tta fuel cfg model mix base model_type = Done out
       /\ map fst out = map fst base
       /\ forall el b r n,
            dict_get el base = Some b -> dict_get el w_rev = Some r ->
            dict_get el w_neg = Some n ->
            exists o,
              dict_get el out = Some o /\ stem_like mix o
              /\ forall ch s bv rv nv,
                   at2 b ch s = Some bv -> at2 r (length mix - 1 - ch) s = Some rv ->
                   at2 n ch s = Some nv ->
                   at2 o ch s = Some ((bv + rv - nv) / 3)%Q)
  /\ (forall base,
        tta_invariant (length (prefer_target_instrument cfg)) model ->
        demix fuel cfg model mix model_type native = Done (Mapping base) ->
        exists out,
          apply_tta fuel cfg model mix base model_type = Done out
          /\ map fst out = map fst base
          /\ forall el b, dict_get el base = Some b ->
               exists o, dict_get el out = Some o /\ Forall2 (Forall2 Qeq) o b).
Proof.
  intros Hrect. split.
  - intros base w_rev w_neg Hrev Hneg Hbase. rewrite <- negate_opp in Hneg.
    assert (Hkeys : forall el, In el (map fst w_rev) \/ In el (map fst w_neg) ->
                               exists b, dict_get el base = Some b /\ stem_like mix b).
    { destruct Hbase as [Hbase|Hkeys]; [|exact Hkeys]. intros el Hel.
      assert (Hin : In el (map fst base)).
      { destruct Hel as [Hel|Hel].
        - rewrite <- (demix_keys _ _ _ _ _ _ _ _ _ Hrect (rectangular_reverse _ Hrect)
                        Hbase Hrev). exact Hel.
        - rewrite <- (demix_keys _ _ _ _ _ _ _ _ _ Hrect (rectangular_negate _ Hrect)
                        Hbase Hneg). exact Hel. }
      destruct (dict_get_Some_In _ _ Hin) as [b Hb]. exists b. split; [exact Hb|].
      exact (dict_get_Forall _ _ _ _ (demix_stems_like _ _ _ _ _ _ _ Hrect Hbase) Hb). }
    destruct (apply_tta_runs _ _ _ _ base _ _ _ Hrect Hrev Hneg Hkeys)
      as (out & Hout & Hk & Hin & _).
    exists out. split; [exact Hout|]. split; [exact Hk|].
    intros el b r n Hb Hr Hn.
    destruct (Hin el b r n Hb Hr Hn) as (Hget & Hrs & Hns & Hs).
    destruct (Hkeys el) as (b' & Hb' & Hbs).
    { left. eapply dict_get_Some_keys. exact Hr. }
    assert (b' = b) by congruence. subst b'.
    eexists. split; [exact Hget|]. split.
    + destruct Hs as [H1 H2]. unfold arr_div. split; [rewrite length_map; exact H1|].
      apply List.Forall_map. eapply Forall_impl; [exact H2|].
      intros x Hx. cbn beta. rewrite length_map. exact Hx.
    + intros ch s bv rv nv. apply (at2_tta_average mix); assumption.
  - intros base Hinv Hbase. eapply apply_tta_invariant; eassumption.
Qed.

Lemma tta_averaging_witness :
  exists base out out2,
    demix 5 cfg_10_2 identity_model stereo_12 "mdx23c" native = Done (Mapping base)
    /\ apply_tta 5 cfg_10_2 identity_model stereo_12 base "mdx23c" = Done out
    /\ (exists b o, dict_get "vocals" base = Some b /\ dict_get "vocals" out = Some o
                    /\ Forall2 (Forall2 Qeq) o b)
    /\ apply_tta 5 cfg_10_2 identity_model stereo_12 [("vocals", stereo_12)] "mdx23c"
       = Done out2
    /\ exists o rv nv,
         dict_get "vocals" out2 = Some o
         /\ at2 o 0 2 = Some ((3 + rv - nv) / 3)%Q /\ (rv == 3)%Q /\ (nv == - (3))%Q.
Proof.
  assert (Hrect : rectangular stereo_12) by (repeat constructor).
  destruct (tta_averaging 5 cfg_10_2 identity_model stereo_12 "mdx23c" Hrect)
    as [Hformula Hsame].
  evar (base : list (string * array2)).
  assert (Hbase : demix 5 cfg_10_2 identity_model stereo_12 "mdx23c" native
                  = Done (Mapping base))
    by (subst base; vm_compute; reflexivity).
  destruct (Hsame _ tta_invariant_identity Hbase) as (out & Hout & _ & Hget).
  edestruct (Hget "vocals") as (o & Ho & Heq); [subst base; reflexivity|].
  evar (w_rev : list (string * array2)). evar (w_neg : list (string * array2)).
  assert (Hrev : demix 5 cfg_10_2 identity_model (reverse stereo_12) "mdx23c" native
                 = Done (Mapping w_rev))
    by (subst w_rev; vm_compute; reflexivity).
  assert (Hneg : demix 5 cfg_10_2 identity_model (map (map Qopp) stereo_12) "mdx23c" native
                 = Done (Mapping w_neg))
    by (subst w_neg; vm_compute; reflexivity).
  destruct (Hformula [("vocals", stereo_12)] w_rev w_neg Hrev Hneg)
    as (out2 & Hout2 & _ & Hel).
  { right. intros el Hel. exists stereo_12.
    assert (el = "vocals")
      by (subst w_rev w_neg; cbn in Hel; destruct Hel as [[<-|[]]|[<-|[]]]; reflexivity).
    subst el.
    split; [reflexivity|]. split; [reflexivity|repeat constructor]. }
  edestruct (Hel "vocals") as (o2 & Ho2 & _ & Hat);
    [reflexivity|subst w_rev; reflexivity|subst w_neg; reflexivity|].
  exists base, out, out2. split; [exact Hbase|]. split; [exact Hout|].
  split; [eexists _, o; split; [subst base; reflexivity|split; [exact Ho|exact Heq]]|].
  split; [exact Hout2|].
  eexists o2, _, _. split; [exact Ho2|].
  split; [apply Hat; reflexivity|]. split; reflexivity.
Defined.

(** ** [apply_tta] and the stems it is given *)

Lemma merge_keys_missing mix i (w : list (string * array2)) ks : forall orig,
  (forall k, In k ks -> exists v, dict_get k w = Some v /\ stem_like mix v) ->
  (forall el b, dict_get el orig = Some b -> stem_like mix b) ->
  (exists el, In el ks /\ ~ In el (map fst orig)) ->
  foldlM (fun orig el =>
            match dict_get el w with
            | None => Raised KeyError
            | Some v =>
                if i =? 0 then dict_update Qplus el (channel_reverse v) orig
                else dict_update Qminus el v orig
            end) ks orig = Raised KeyError.
Proof.
  induction ks as [|k ks IH]; intros orig Hw Hshape (el & Hel & Hmiss); [destruct Hel|].
  cbn [foldlM]. destruct (Hw k (or_introl eq_refl)) as (v & -> & Hv).
  assert (Hstep : forall op u, stem_like mix u ->
             dict_update op k u orig = Raised KeyError
             \/ exists orig', dict_update op k u orig = Done orig'
                              /\ map fst orig' = map fst orig /\ el <> k
                              /\ forall el b, dict_get el orig' = Some b -> stem_like mix b).
  { intros op u Hu. unfold dict_update. destruct (dict_get k orig) as [cur|] eqn:Hcur;
      [right|left; reflexivity].
    destruct (array_inplace_same_shape op mix cur u (Hshape _ _ Hcur) Hu) as [-> Hs].
    cbn [mbind outcome_bind]. eexists. split; [reflexivity|].
    apply dict_get_Some_keys in Hcur. split; [apply keys_dict_set; exact Hcur|].
    split; [intros ->; contradiction|].
    intros el' b'. rewrite dict_get_set. destruct (String.eqb k el').
    - intros [= <-]. exact Hs.
    - apply Hshape. }
  assert (Hrest : forall orig', map fst orig' = map fst orig -> el <> k ->
             (forall el b, dict_get el orig' = Some b -> stem_like mix b) ->
             foldlM (fun orig el =>
                       match dict_get el w with
                       | None => Raised KeyError
                       | Some v =>
                           if i =? 0 then dict_update Qplus el (channel_reverse v) orig
                           else dict_update Qminus el v orig
                       end) ks orig' = Raised KeyError).
  { intros orig' Hk Hne Hs'. apply IH; [|exact Hs'|].
    - intros k' Hk'. apply Hw. right. exact Hk'.
    - exists el. rewrite Hk. split; [|exact Hmiss].
      destruct Hel as [->|Hel]; [contradiction|exact Hel]. }
  destruct (i =? 0).
  - destruct (Hstep Qplus (channel_reverse v) (stem_like_reverse _ _ Hv))
      as [->|(orig' & -> & Hk & Hne & Hs')]; [reflexivity|].
    cbn [mbind outcome_bind]. apply Hrest; assumption.
  - destruct (Hstep Qminus v Hv) as [->|(orig' & -> & Hk & Hne & Hs')]; [reflexivity|].
    cbn [mbind outcome_bind]. apply Hrest; assumption.
Qed.

Lemma merge_keys_mismatch (w : list (string * array2)) el v b ks : forall orig,
  List.NoDup ks ->
  (forall k, In k ks -> In k (map fst w) /\ In k (map fst orig)) ->
  In el ks -> dict_get el w = Some v -> dict_get el orig = Some b ->
  broadcasts (reverse v) b = false ->
  foldlM (fun orig el =>
            match dict_get el w with
            | None => Raised KeyError
            | Some v =>
                if 0 =? 0 then dict_update Qplus el (channel_reverse v) orig
                else dict_update Qminus el v orig
            end) ks orig = Raised ValueError.
Proof.
  induction ks as [|k ks IH]; intros orig Hnd Hks Hel Hv Hb Hbad; [destruct Hel|].
  cbn [foldlM Nat.eqb]. apply List.NoDup_cons_iff in Hnd as [Hk Hnd].
  destruct (Hks k (or_introl eq_refl)) as [Hkw Hko].
  destruct (dict_get_Some_In _ _ Hkw) as [vk Hvk].
  destruct (dict_get_Some_In _ _ Hko) as [cur Hcur].
  rewrite Hvk. unfold dict_update. rewrite Hcur. unfold array_inplace, channel_reverse.
  destruct (broadcasts (reverse vk) cur) eqn:Hbc; [|reflexivity].
  cbn [mbind outcome_bind].
  assert (Hne : k <> el) by (intros ->; congruence).
  apply IH; [exact Hnd| |destruct Hel; [contradiction|assumption]|exact Hv| |exact Hbad].
  - intros k' Hk'. destruct (Hks k' (or_intror Hk')) as [H1 H2].
    split; [exact H1|]. rewrite (proj1 (keys_dict_set orig k _) Hko). exact H2.
  - rewrite dict_get_set. destruct (String.eqb_spec k el); [contradiction|exact Hb].
Qed.

(** X8: [apply_tta] needs the stems it is given to match what [demix]
    returns.  With given stems of the input's shape, a returned name
    that they lack raises KeyError.  With all returned names present, a
    given stem (of at least one channel) to which the result of the same
    name cannot be broadcast raises ValueError.  A given stem that
    [demix] does not return is no error when the others match: it is only
    divided by 3. *)
Theorem apply_tta_key_mismatch (fuel : nat) (cfg : config)
    (model : list array2 -> list array3) (mix : array2)
    (base : list (string * array2)) (model_type : string)
    (w_rev : list (string * array2)) :
  rectangular mix ->
  demix fuel cfg model (reverse mix) model_type native = Done (Mapping w_rev) ->
  ((forall el b, dict_get el base = Some b -> stem_like mix b) ->
   (exists el, In el (map fst w_rev) /\ ~ In el (map fst base)) ->
   apply_tta fuel cfg model mix base model_type = Raised KeyError)
  /\ ((forall el, In el (map fst w_rev) -> In el (map fst base)) ->
      (exists el v b, dict_get el w_rev = Some v /\ dict_get el base = Some b
                      /\ b <> [] /\ broadcasts (reverse v) b = false) ->
      apply_tta fuel cfg model mix base model_type = Raised ValueError)
  /\ (forall w_neg,
        demix fuel cfg model (map (map Qopp) mix) model_type native = Done (Mapping w_neg) ->
        (forall el, In el (map fst w_rev) \/ In el (map fst w_neg) ->
                    exists b, dict_get el base = Some b /\ stem_like mix b) ->
        exists out,
          apply_tta fuel cfg model mix base model_type = Done out
          /\ forall el b,
               dict_get el base = Some b ->
               dict_get el w_rev = None -> dict_get el w_neg = None ->
               dict_get el out = Some (arr_div b 3)).
Proof.
  intros Hrect Hrev.
  assert (Hs1 : Forall (fun kv => stem_like mix kv.2) w_rev).
  { eapply Forall_impl;
      [exact (demix_stems_like _ _ _ _ _ _ _ (rectangular_reverse _ Hrect) Hrev)|].
    intros kv. apply stem_like_reversed. exact Hrect. }
  split; [|split].
  - intros Hshape Hmiss. unfold apply_tta. cbn [imap foldlM fst snd compose].
    change (channel_reverse mix) with (reverse mix).
    rewrite Hrev. cbn [mbind outcome_bind]. unfold merge_augmented.
    rewrite (merge_keys_missing mix); [reflexivity| |exact Hshape|exact Hmiss].
    intros k Hk. destruct (dict_get_Some_In _ _ Hk) as [v Hv]. exists v.
    split; [exact Hv|exact (dict_get_Forall _ _ _ _ Hs1 Hv)].
  - intros Hkeys (el & v & b & Hv & Hb & _ & Hbad).
    unfold apply_tta. cbn [imap foldlM fst snd compose].
    change (channel_reverse mix) with (reverse mix).
    rewrite Hrev. cbn [mbind outcome_bind]. unfold merge_augmented.
    rewrite (merge_keys_mismatch w_rev el v b);
      [reflexivity|exact (demix_Mapping_NoDup _ _ _ _ _ _ _ Hrev)| | |exact Hv|exact Hb
       |exact Hbad].
    + intros k Hk. split; [exact Hk|apply Hkeys; exact Hk].
    + eapply dict_get_Some_keys. exact Hv.
  - intros w_neg Hneg Hkeys. rewrite <- negate_opp in Hneg.
    destruct (apply_tta_runs _ _ _ _ base _ _ _ Hrect Hrev Hneg Hkeys)
      as (out & Hout & _ & _ & Hsurplus).
    exists out. split; [exact Hout|exact Hsurplus].
Qed.

Lemma apply_tta_key_mismatch_witness :
  apply_tta 5 cfg_10_2 identity_model [ramp 12] [("drums", [ramp 12])] "mdx23c"
  = Raised KeyError
  /\ apply_tta 5 cfg_10_2 identity_model [ramp 12] [("vocals", [ramp 11])] "mdx23c"
     = Raised ValueError
  /\ exists out,
       apply_tta 5 cfg_10_2 identity_model [ramp 12]
                 [("vocals", [ramp 12]); ("drums", [ramp 12])] "mdx23c" = Done out
       /\ dict_get "drums" out = Some (arr_div [ramp 12] 3).
Proof.
  assert (Hrect : rectangular [ramp 12]) by (repeat constructor).
  evar (w_rev : list (string * array2)).
  assert (Hrev : demix 5 cfg_10_2 identity_model (reverse [ramp 12]) "mdx23c" native
                 = Done (Mapping w_rev))
    by (subst w_rev; vm_compute; reflexivity).
  evar (w_neg : list (string * array2)).
  assert (Hneg : demix 5 cfg_10_2 identity_model (map (map Qopp) [ramp 12]) "mdx23c" native
                 = Done (Mapping w_neg))
    by (subst w_neg; vm_compute; reflexivity).
  split; [|split].
  - destruct (apply_tta_key_mismatch 5 cfg_10_2 identity_model [ramp 12]
                [("drums", [ramp 12])] "mdx23c" w_rev Hrect Hrev) as [Hraise _].
    apply Hraise.
    + intros el b. cbn [dict_get]. destruct (String.eqb "drums" el); [|discriminate].
      intros [= <-]. split; [reflexivity|repeat constructor].
    + exists "vocals". subst w_rev. split; [left; reflexivity|].
      cbn. intros [H|[]]. discriminate H.
  - destruct (apply_tta_key_mismatch 5 cfg_10_2 identity_model [ramp 12]
                [("vocals", [ramp 11])] "mdx23c" w_rev Hrect Hrev) as (_ & Hraise & _).
    apply Hraise.
    + subst w_rev. cbn. tauto.
    + eexists "vocals", _, [ramp 11]. subst w_rev.
      split; [reflexivity|]. split; [reflexivity|]. split; [discriminate|reflexivity].
  - destruct (apply_tta_key_mismatch 5 cfg_10_2 identity_model [ramp 12]
                [("vocals", [ramp 12]); ("drums", [ramp 12])] "mdx23c" w_rev Hrect Hrev)
      as (_ & _ & Hsurplus).
    destruct (Hsurplus w_neg Hneg) as (out & Hout & Hget).
    + intros el Hel. exists [ramp 12].
      assert (el = "vocals")
        by (subst w_rev w_neg; cbn in Hel; destruct Hel as [[<-|[]]|[<-|[]]]; reflexivity).
      subst el. split; [reflexivity|]. split; [reflexivity|repeat constructor].
    + exists out. split; [exact Hout|]. apply Hget; [reflexivity| |].
      * subst w_rev. reflexivity.
      * subst w_neg. reflexivity.
Defined.


(** ** The loaders *)

Lemma dict_get_NoDup {V : Type} (l : list (string * V)) k v :
  List.NoDup (map fst l) -> In (k, v) l -> dict_get k l = Some v.
Proof.
  induction l as [|[k' v'] l IH]; cbn [map fst In dict_get]; [tauto|].
  intros Hnd [Heq|Hin].
  - injection Heq as -> ->. rewrite String.eqb_refl. reflexivity.
  - apply List.NoDup_cons_iff in Hnd as [Hk' Hnd].
    destruct (String.eqb_spec k' k) as [->|_]; [|apply IH; assumption].
    exfalso. apply Hk'. apply in_map_iff. exists (k, v). auto.
Qed.

Lemma reconcile_entry_dict (d : gmap string pyobj) el cur :
  reconcile_entry (PDict d) el cur
  = match d !! el with
    | None => Done cur
    | Some (PTensor old_t) =>
        Done (if bool_decide (shape cur = shape old_t) then old_t
              else if bool_decide (length (shape cur) ≠ length (shape old_t)) then cur
                   else reconcile cur old_t)
    | Some _ => Raised AttributeError
    end.
Proof.
  destruct (d !! el) as [o|] eqn:Hel; [|apply reconcile_entry_absent; exact Hel].
  destruct o as [t|inner|]; [apply reconcile_entry_present; exact Hel| |];
    unfold reconcile_entry, py_contains, py_getitem; rewrite Hel; reflexivity.
Qed.

Lemma reconcile_entry_shape old_model el cur t :
  reconcile_entry old_model el cur = Done t -> shape t = shape cur.
Proof.
  destruct old_model as [?|d|]; [discriminate| |discriminate].
  rewrite reconcile_entry_dict. destruct (d !! el) as [[old_t| |]|]; try discriminate.
  - intros [= <-].
    destruct (decide (shape cur = shape old_t)) as [Heq|Hne].
    + rewrite bool_decide_eq_true_2 by assumption. symmetry. exact Heq.
    + rewrite bool_decide_eq_false_2 by assumption.
      destruct (decide (length (shape cur) ≠ length (shape old_t))) as [Hrank|Hrank].
      * rewrite bool_decide_eq_true_2 by assumption. reflexivity.
      * rewrite bool_decide_eq_false_2 by assumption. apply shape_reconcile.
        destruct (decide (length (shape cur) = length (shape old_t))); tauto.
  - intros [= <-]. reflexivity.
Qed.

Lemma reconcile_shape_only a b old_t :
  shape a = shape b -> reconcile a old_t = reconcile b old_t.
Proof. intros H. unfold reconcile. rewrite H. reflexivity. Qed.

(** Reconciling what was reconciled changes nothing. *)
Lemma reconcile_entry_again old_model el cur t :
  reconcile_entry old_model el cur = Done t -> reconcile_entry old_model el t = Done t.
Proof.
  intros Ht. pose proof (reconcile_entry_shape _ _ _ _ Ht) as Hshape. revert Ht.
  destruct old_model as [?|d|]; [discriminate| |discriminate].
  rewrite !reconcile_entry_dict. destruct (d !! el) as [[old_t| |]|]; try discriminate.
  - intros [= Ht]. f_equal. rewrite Hshape.
    destruct (bool_decide (shape cur = shape old_t)) eqn:H1; [exact Ht|].
    destruct (bool_decide (length (shape cur) ≠ length (shape old_t))) eqn:H2;
      [reflexivity|].
    rewrite <- Ht at 2. apply reconcile_shape_only. exact Hshape.
  - reflexivity.
Qed.

Lemma forM_Forall2 {A B : Type} (f : A -> outcome B) (xs : list A) (ys : list B) :
  Forall2 (fun x y => f x = Done y) xs ys -> forM f xs = Done ys.
Proof.
  induction 1 as [|x y xs ys Hx _ IH]; [reflexivity|].
  cbn [forM]. rewrite Hx. cbn [mbind outcome_bind]. rewrite IH. reflexivity.
Qed.

Lemma forM_raises {A B : Type} (f : A -> outcome B) (xs : list A) e :
  (forall x, In x xs -> (exists y, f x = Done y) \/ f x = Raised e) ->
  (exists x, In x xs /\ f x = Raised e) ->
  forM f xs = Raised e.
Proof.
  induction xs as [|x xs IH]; intros Hall (x0 & Hin & Hx0); [destruct Hin|].
  cbn [forM]. destruct (Hall x (or_introl eq_refl)) as [[y Hy]|Hraise].
  - rewrite Hy. cbn [mbind outcome_bind]. rewrite IH; [reflexivity| |].
    + intros x' Hx'. apply Hall. right. exact Hx'.
    + exists x0. split; [|exact Hx0]. destruct Hin as [->|Hin]; [|exact Hin].
      rewrite Hy in Hx0. discriminate.
  - rewrite Hraise. reflexivity.
Qed.

Lemma keys_Forall2 {V W : Type} (R : string * V -> string * W -> Prop) l k :
  Forall2 (fun x y => y.1 = x.1 /\ R x y) l k -> map fst k = map fst l.
Proof.
  induction 1 as [|x y l k [Hxy _] _ IH]; [reflexivity|]. cbn [map]. congruence.
Qed.

(** The strict load at the end of the loader accepts a state dict with
    the model's names and shapes, and installs it. *)
Lemma load_state_dict_entries (state sd : list (string * tensor)) :
  List.NoDup (map fst state) ->
  Forall2 (fun kv q => q.1 = kv.1 /\ shape q.2 = shape kv.2) state sd ->
  load_state_dict state sd = Done sd.
Proof.
  intros Hnd Hall.
  pose proof (keys_Forall2 _ _ _ Hall) as Hkeys.
  assert (Hget : forall q, In q sd -> dict_get q.1 sd = Some q.2).
  { intros [k v] Hq. apply dict_get_NoDup; [rewrite Hkeys; exact Hnd|exact Hq]. }
  unfold load_state_dict.
  assert (H1 : forallb (fun p => match dict_get p.1 sd with
                                 | Some t => bool_decide (shape p.2 = shape t)
                                 | None => false
                                 end) state = true).
  { apply forallb_forall. intros p Hp. apply In_lookup in Hp as [k Hk].
    destruct (Forall2_lookup_l _ _ _ _ _ Hall Hk) as (q & Hq & Hname & Hshape).
    rewrite <- Hname, (Hget q (lookup_In _ _ _ Hq)).
    apply bool_decide_eq_true_2. symmetry. exact Hshape. }
  assert (H2 : forallb (fun s => match dict_get s.1 state with
                                 | Some _ => true
                                 | None => false
                                 end) sd = true).
  { apply forallb_forall. intros s Hs.
    destruct (dict_get_Some_In state s.1) as [v ->]; [|reflexivity].
    rewrite <- Hkeys. apply in_map. exact Hs. }
  rewrite H1, H2. cbn [andb]. f_equal. apply list_eq. intros k.
  change (map ?f ?l) with (f <$> l). rewrite list_lookup_fmap.
  destruct (state !! k) as [p|] eqn:Hk.
  - destruct (Forall2_lookup_l _ _ _ _ _ Hall Hk) as (q & Hq & Hname & Hshape).
    rewrite Hq. cbn [fmap option_fmap option_map]. f_equal.
    rewrite <- Hname, (Hget q (lookup_In _ _ _ Hq)). destruct q; reflexivity.
  - cbn [fmap option_fmap option_map]. symmetry. apply lookup_ge_None.
    rewrite <- (Forall2_length _ _ _ Hall). apply lookup_ge_None. exact Hk.
Qed.

Lemma loader_from_entries state weights old_model sd :
  List.NoDup (map fst state) ->
  unwrap_containers weights = Done old_model ->
  Forall2 (entry_loaded old_model) state sd ->
  load_not_compatible_weights state weights = Done sd.
Proof.
  intros Hnd Hunwrap Hall. unfold load_not_compatible_weights.
  rewrite Hunwrap. cbn [mbind outcome_bind].
  rewrite (forM_Forall2 _ state sd).
  - cbn [mbind outcome_bind]. apply load_state_dict_entries; [exact Hnd|].
    eapply Forall2_impl; [exact Hall|]. intros kv q (H1 & _ & H3). auto.
  - eapply Forall2_impl; [exact Hall|]. intros kv q (H1 & H2 & _). cbn beta.
    rewrite H2. cbn [mbind outcome_bind]. rewrite <- H1. destruct q; reflexivity.
Qed.

Lemma loader_inv state weights params :
  List.NoDup (map fst state) ->
  load_not_compatible_weights state weights = Done params ->
  exists old_model,
    unwrap_containers weights = Done old_model
    /\ Forall2 (entry_loaded old_model) state params.
Proof.
  intros Hnd. unfold load_not_compatible_weights.
  destruct (unwrap_containers weights) as [old_model| |]; cbn [mbind outcome_bind];
    [|discriminate ..].
  destruct (forM _ state) as [sd| |] eqn:Hloop; cbn [mbind outcome_bind];
    [|discriminate ..].
  intros Hload. exists old_model. split; [reflexivity|].
  apply forM_inv in Hloop.
  assert (Hall : Forall2 (entry_loaded old_model) state sd).
  { eapply Forall2_impl; [exact Hloop|]. intros kv q. cbn beta.
    destruct (reconcile_entry old_model kv.1 kv.2) as [t| |] eqn:Ht;
      cbn [mbind outcome_bind]; [|discriminate ..].
    intros [= <-]. cbn [fst snd]. repeat split; [exact Ht|].
    eapply reconcile_entry_shape. exact Ht. }
  rewrite load_state_dict_entries in Hload.
  - injection Hload as <-. exact Hall.
  - exact Hnd.
  - eapply Forall2_impl; [exact Hall|]. intros kv q (H1 & _ & H3). auto.
Qed.

(** X9: whatever the checkpoint holds, a load that returns leaves the
    model with the parameters it had: the same names in the same order,
    each with the shape it had before. *)
Theorem loader_keeps_names_and_shapes (state : list (string * tensor))
    (weights : pyobj) (params : list (string * tensor)) :
  load_not_compatible_weights state weights = Done params ->
  Forall2 (fun p q => q.1 = p.1 /\ shape q.2 = shape p.2) state params.
Proof.
  unfold load_not_compatible_weights.
  destruct (unwrap_containers weights) as [old_model| |]; cbn [mbind outcome_bind];
    [|discriminate ..].
  destruct (forM _ state) as [sd| |]; cbn [mbind outcome_bind]; [|discriminate ..].
  unfold load_state_dict.
  destruct (forallb _ state) eqn:Hshapes; cbn [andb]; [|discriminate].
  destruct (forallb _ sd); [|discriminate]. intros [= <-].
  change (map ?f ?l) with (f <$> l). apply Forall2_fmap_r, Forall_Forall2_diag.
  apply List.Forall_forall. intros p Hp. cbn [compose fst snd]. split; [reflexivity|].
  pose proof (proj1 (forallb_forall _ _) Hshapes p Hp) as Hp'. cbn beta in Hp'.
  destruct (dict_get p.1 sd) as [t|]; [|discriminate].
  apply bool_decide_eq_true_1 in Hp'. symmetry. exact Hp'.
Qed.

Lemma loader_keeps_names_and_shapes_witness :
  exists params,
    load_not_compatible_weights state_wb (PDict {[ "state" := PDict checkpoint_w ]})
    = Done params
    /\ Forall2 (fun p q => q.1 = p.1 /\ shape q.2 = shape p.2) state_wb params.
Proof.
  evar (params : list (string * tensor)).
  assert (H : load_not_compatible_weights state_wb
                (PDict {[ "state" := PDict checkpoint_w ]}) = Done params)
    by (subst params; vm_compute; reflexivity).
  exists params. split; [exact H|].
  exact (loader_keeps_names_and_shapes _ _ _ H).
Defined.

(** X10: loading is idempotent: loading the same checkpoint into the
    model that a first load produced changes nothing (parameter names
    being distinct, as the keys of a state dict are). *)
Theorem loader_idempotent (state : list (string * tensor)) (weights : pyobj)
    (params : list (string * tensor)) :
  List.NoDup (map fst state) ->
  load_not_compatible_weights state weights = Done params ->
  load_not_compatible_weights params weights = Done params.
Proof.
  intros Hnd Hload.
  destruct (loader_inv _ _ _ Hnd Hload) as (old_model & Hunwrap & Hall).
  pose proof (keys_Forall2 (fun kv q => reconcile_entry old_model kv.1 kv.2 = Done q.2
                                        /\ shape q.2 = shape kv.2) _ _ Hall) as Hkeys.
  apply (loader_from_entries _ _ old_model); [rewrite Hkeys; exact Hnd|exact Hunwrap|].
  apply Forall_Forall2_diag, Forall_lookup. intros k q Hq.
  destruct (Forall2_lookup_r _ _ _ _ _ Hall Hq) as (kv & _ & Hname & Hentry & _).
  repeat split. rewrite Hname. eapply reconcile_entry_again. exact Hentry.
Qed.

Lemma loader_idempotent_witness :
  exists params,
    load_not_compatible_weights state_wb (PDict {[ "state" := PDict checkpoint_w ]})
    = Done params
    /\ load_not_compatible_weights params (PDict {[ "state" := PDict checkpoint_w ]})
       = Done params.
Proof.
  evar (params : list (string * tensor)).
  assert (H : load_not_compatible_weights state_wb
                (PDict {[ "state" := PDict checkpoint_w ]}) = Done params)
    by (subst params; vm_compute; reflexivity).
  exists params. split; [exact H|].
  apply (loader_idempotent state_wb); [|exact H].
  repeat constructor; cbn; intros Hin; decompose [or] Hin; discriminate || contradiction.
Defined.


(** ** Strict and lenient loading *)

Lemma checkpoint_values_entries (d : gmap string pyobj) state :
  (forall el cur, In (el, cur) state ->
     exists t, d !! el = Some (PTensor t) /\ shape t = shape cur) ->
  Forall2 (entry_loaded (PDict d)) state (checkpoint_values d state).
Proof.
  intros Hcompat. unfold checkpoint_values. change (map ?f ?l) with (f <$> l).
  apply Forall2_fmap_r, Forall_Forall2_diag, List.Forall_forall.
  intros [el cur] Hin. unfold entry_loaded. cbn [compose fst snd].
  destruct (Hcompat el cur Hin) as (t & Hel & Hshape).
  rewrite reconcile_entry_dict, Hel, bool_decide_eq_true_2 by (symmetry; exact Hshape).
  auto.
Qed.

Lemma load_entry_compatible strict (d : gmap string pyobj) el cur t :
  d !! el = Some (PTensor t) -> shape t = shape cur ->
  load_entry strict d (el, cur) = Done (Some t).
Proof.
  intros Hel Hshape. unfold load_entry. cbn [fst snd]. rewrite Hel.
  assert (Hrule : bool_decide (shape cur = []) && (length (shape t) =? 1) = false).
  { destruct (decide (shape cur = [])) as [Hs|Hs].
    - rewrite Hshape, Hs. apply andb_false_r.
    - rewrite bool_decide_eq_false_2 by exact Hs. reflexivity. }
  rewrite Hrule. cbn [mbind outcome_bind].
  rewrite bool_decide_eq_true_2 by (symmetry; exact Hshape). reflexivity.
Qed.

Lemma load_state_dict_obj_compatible strict (d : gmap string pyobj) state :
  (forall el cur, In (el, cur) state ->
     exists t, d !! el = Some (PTensor t) /\ shape t = shape cur) ->
  (strict = true -> forall k, is_Some (d !! k) -> In k (map fst state)) ->
  load_state_dict_obj strict state (PDict d) = Done (checkpoint_values d state).
Proof.
  intros Hcompat Hkeys. unfold load_state_dict_obj.
  rewrite (forM_Done _ (fun p => Some (match d !! p.1 with
                                       | Some (PTensor t) => t
                                       | _ => p.2
                                       end)) state).
  - cbn [mbind outcome_bind].
    assert (H1 : forallb (fun t : option tensor =>
                            match t with Some _ => true | None => false end)
                         (map (fun p : string * tensor =>
                                 Some (match d !! p.1 with
                                       | Some (PTensor t) => t
                                       | _ => p.2
                                       end)) state) = true).
    { apply forallb_forall. intros r Hr. apply in_map_iff in Hr as (p & <- & _).
      reflexivity. }
    rewrite H1. cbn [andb].
    assert (Hvalues : zip_with (fun (p : string * tensor) t => (p.1, default p.2 t)) state
                        (map (fun p : string * tensor =>
                                Some (match d !! p.1 with
                                      | Some (PTensor t) => t
                                      | _ => p.2
                                      end)) state)
                      = checkpoint_values d state).
    { change (map ?f ?l) with (f <$> l). rewrite zip_with_fmap_r, zip_with_diag.
      reflexivity. }
    rewrite Hvalues. destruct strict; cbn [negb orb]; [|reflexivity].
    assert (H2 : forallb (fun k => match dict_get k state with
                                   | Some _ => true
                                   | None => false
                                   end) (map fst (map_to_list d)) = true).
    { apply forallb_forall. intros k Hk.
      apply in_map_iff in Hk as ([k' v] & <- & Hin). cbn [fst].
      apply list_elem_of_In, elem_of_map_to_list in Hin.
      destruct (dict_get_Some_In state k') as [x ->]; [|reflexivity].
      apply Hkeys; [reflexivity|]. rewrite Hin. eauto. }
    rewrite H2. reflexivity.
  - apply List.Forall_forall. intros [el cur] Hin. cbn [fst snd].
    destruct (Hcompat el cur Hin) as (t & Hel & Hshape).
    rewrite Hel. apply load_entry_compatible; assumption.
Qed.

(** X11: on a checkpoint that holds, for every parameter, a tensor of the
    parameter's shape, the lenient loader does what [load_state_dict]
    does: the model gets the checkpoint's tensors, as with [strict=False],
    and as with the strict load when the checkpoint has no other key.
    Keys that name no parameter are ignored by the lenient loader. *)
Theorem loader_agrees_with_strict_load (state : list (string * tensor))
    (weights : pyobj) (d : gmap string pyobj) :
  List.NoDup (map fst state) ->
  unwrap_containers weights = Done (PDict d) ->
  (forall el cur, In (el, cur) state ->
     exists t, d !! el = Some (PTensor t) /\ shape t = shape cur) ->
  load_not_compatible_weights state weights = Done (checkpoint_values d state)
  /\ load_state_dict_obj false state (PDict d) = Done (checkpoint_values d state)
  /\ ((forall k, is_Some (d !! k) -> In k (map fst state)) ->
      load_state_dict_obj true state (PDict d) = Done (checkpoint_values d state)).
Proof.
  intros Hnd Hunwrap Hcompat. split; [|split].
  - apply (loader_from_entries _ _ (PDict d)); [exact Hnd|exact Hunwrap|].
    apply checkpoint_values_entries. exact Hcompat.
  - apply load_state_dict_obj_compatible; [exact Hcompat|discriminate].
  - intros Hkeys. apply load_state_dict_obj_compatible; [exact Hcompat|auto].
Qed.

Lemma loader_agrees_with_strict_load_witness :
  load_not_compatible_weights state_w (PDict lora_file)
  = load_state_dict_obj false state_w (PDict lora_file).
Proof.
  destruct (loader_agrees_with_strict_load state_w (PDict lora_file) lora_file)
    as (H1 & H2 & _).
  - repeat constructor. cbn. tauto.
  - reflexivity.
  - intros el cur [[= <- <-]|[]]. eexists. split; reflexivity.
  - rewrite H1, H2. reflexivity.
Defined.

(** X12: an entry of the checkpoint that carries a parameter's name but
    has no [.shape], a nested dict or a plain value such as [None] or a
    Python number, stops the loader with AttributeError (line 607), before
    anything is loaded. *)
Theorem loader_rejects_non_tensor (state : list (string * tensor)) (weights : pyobj)
    (d : gmap string pyobj) (el : string) (cur : tensor) (o : pyobj) :
  unwrap_containers weights = Done (PDict d) ->
  In (el, cur) state -> d !! el = Some o ->
  (exists inner, o = PDict inner) \/ o = PValue ->
  load_not_compatible_weights state weights = Raised AttributeError.
Proof.
  intros Hunwrap Hin Hel Ho. unfold load_not_compatible_weights.
  rewrite Hunwrap. cbn [mbind outcome_bind].
  rewrite (forM_raises _ state AttributeError); [reflexivity| |].
  - intros [el' cur'] _. cbn [fst snd]. rewrite reconcile_entry_dict.
    destruct (d !! el') as [[t| |]|]; cbn [mbind outcome_bind]; eauto.
  - exists (el, cur). split; [exact Hin|]. cbn [fst snd].
    rewrite reconcile_entry_dict, Hel.
    destruct Ho as [[inner ->]| ->]; reflexivity.
Qed.

Lemma loader_rejects_non_tensor_witness :
  load_not_compatible_weights state_w (PDict {[ "w" := PDict checkpoint_w ]})
  = Raised AttributeError.
Proof.
  apply (loader_rejects_non_tensor state_w (PDict {[ "w" := PDict checkpoint_w ]})
           {[ "w" := PDict checkpoint_w ]}
           "w" {| shape := [2; 3]; data := zeros [2; 3] |} (PDict checkpoint_w));
    [reflexivity|left; reflexivity|reflexivity|left; eauto].
Defined.

(** *** [load_start_checkpoint] *)

Lemma load_start_checkpoint_train args state :
  load_start_checkpoint args state "train"
  = then_lora args (load_not_compatible_weights state (start_check_point args)).
Proof. reflexivity. Qed.

Lemma load_start_checkpoint_inference args state type_ :
  type_ <> "train" ->
  load_start_checkpoint args state type_
  = then_lora args
      (state_dict ←
         (if String.eqb (model_type_arg args) "htdemucs"
             || String.eqb (model_type_arg args) "apollo"
          then unwrap_containers (start_check_point args)
          else Done (start_check_point args));
       load_state_dict_obj true state state_dict).
Proof.
  intros Hne. unfold load_start_checkpoint, then_lora.
  destruct (String.eqb_spec type_ "train") as [|_]; [contradiction|]. reflexivity.
Qed.

Lemma load_entries_run strict (d : gmap string pyobj) state :
  indexable d state -> exists loaded, forM (load_entry strict d) state = Done loaded.
Proof.
  induction 1 as [|p state Hp _ [loaded IH]]; [exists []; reflexivity|].
  assert (Hrun : exists r, load_entry strict d p = Done r).
  { unfold load_entry. destruct (d !! p.1) as [[t| |]|] eqn:Hel; eauto.
    destruct (bool_decide (shape p.2 = []) && (length (shape t) =? 1)) eqn:Hrule;
      cbn [mbind outcome_bind]; [|eauto].
    apply andb_prop in Hrule as [H0 H1]. apply bool_decide_eq_true_1 in H0.
    apply Nat.eqb_eq in H1. destruct (Hp t eq_refl H0 H1) as (x & xs & Hdata).
    unfold first_element. rewrite Hdata. cbn [mbind outcome_bind]. eauto. }
  destruct Hrun as [r Hr]. exists (r :: loaded). cbn [forM].
  rewrite Hr. cbn [mbind outcome_bind]. rewrite IH. reflexivity.
Qed.

(** A parameter for which an error message is collected, or under
    [strict] a key that names no parameter: the load does not return, and
    raises RuntimeError unless an index error comes first. *)
Lemma load_state_dict_obj_fails strict (d : gmap string pyobj) state :
  (exists p, In p state /\ forall r, load_entry strict d p = Done r -> r = None)
  \/ (strict = true /\ exists k, is_Some (d !! k) /\ dict_get k state = None) ->
  (forall params, load_state_dict_obj strict state (PDict d) <> Done params)
  /\ (indexable d state -> load_state_dict_obj strict state (PDict d) = Raised RuntimeError).
Proof.
  intros Hbad.
  assert (Hcheck : forall loaded,
             forM (load_entry strict d) state = Done loaded ->
             forallb (fun t : option tensor => match t with Some _ => true | None => false end)
                     loaded
             && (negb strict
                 || forallb (fun k => match dict_get k state with
                                      | Some _ => true
                                      | None => false
                                      end) (map fst (map_to_list d))) = false).
  { intros loaded Hrun. apply forM_inv in Hrun.
    destruct Hbad as [(p & Hin & Hp)|(-> & k & [o Ho] & Hk)].
    - apply andb_false_iff. left.
      apply In_lookup in Hin as [j Hj].
      destruct (Forall2_lookup_l _ _ _ _ _ Hrun Hj) as (r & Hr & Hload).
      rewrite (Hp r Hload) in Hr.
      destruct (forallb _ loaded) eqn:Hall; [|reflexivity].
      pose proof (proj1 (forallb_forall _ _) Hall None (lookup_In _ _ _ Hr)) as Hnone.
      discriminate Hnone.
    - apply andb_false_iff. right. cbn [negb orb].
      destruct (forallb _ (map fst (map_to_list d))) eqn:Hall; [|reflexivity].
      assert (Hkey : In k (map fst (map_to_list d))).
      { apply in_map_iff. exists (k, o). split; [reflexivity|].
        apply list_elem_of_In, elem_of_map_to_list. exact Ho. }
      pose proof (proj1 (forallb_forall _ _) Hall k Hkey) as Hparam. cbn beta in Hparam.
      rewrite Hk in Hparam. discriminate Hparam. }
  unfold load_state_dict_obj. split.
  - intros params. destruct (forM _ state) as [loaded| |] eqn:Hrun;
      cbn [mbind outcome_bind]; [|discriminate ..].
    rewrite (Hcheck loaded eq_refl). discriminate.
  - intros Hidx. destruct (load_entries_run strict d state Hidx) as [loaded Hrun].
    rewrite Hrun. cbn [mbind outcome_bind]. rewrite (Hcheck loaded Hrun). reflexivity.
Qed.

Lemma load_entry_no_tensor strict (d : gmap string pyobj) el cur o r :
  d !! el = Some o -> (forall t, o <> PTensor t) ->
  load_entry strict d (el, cur) = Done r -> r = None.
Proof.
  intros Hel Ho. unfold load_entry. cbn [fst snd]. rewrite Hel.
  destruct o as [t| |]; [destruct (Ho t eq_refl)| |]; intros [= <-]; reflexivity.
Qed.

Lemma load_entry_missing (d : gmap string pyobj) el cur r :
  d !! el = None -> load_entry true d (el, cur) = Done r -> r = None.
Proof.
  intros Hel. unfold load_entry. cbn [fst snd]. rewrite Hel. intros [= <-]. reflexivity.
Qed.

Lemma strict_load_rejects_container (d inner : gmap string pyobj) state :
  d !! "state" = Some (PDict inner) ->
  (forall params, load_state_dict_obj true state (PDict d) <> Done params)
  /\ (indexable d state -> load_state_dict_obj true state (PDict d) = Raised RuntimeError).
Proof.
  intros Hd. apply load_state_dict_obj_fails.
  destruct (dict_get "state" state) as [cur|] eqn:Hget.
  - left. apply dict_get_Some_keys, in_map_iff in Hget as ([k v] & Hk & Hin).
    cbn [fst] in Hk. subst k. exists ("state", v). split; [exact Hin|].
    intros r. apply (load_entry_no_tensor _ _ _ _ _ _ Hd). discriminate.
  - right. split; [reflexivity|]. exists "state". rewrite Hd. eauto.
Qed.

(** X13: outside training the containers are entered only for htdemucs
    and apollo.  A checkpoint that keeps its tensors under ['state'] is
    refused for every other model type, whatever the model: the call does
    not return, and what it raises is the RuntimeError of the strict load
    (unless a 0-D parameter is offered an empty 1-D tensor, whose indexing
    fails first); for these two types the strict load is given the inner
    dict. *)
Theorem start_checkpoint_unwraps_for_two_types (args : start_args)
    (state : list (string * tensor)) (type_ : string) (d inner : gmap string pyobj) :
  type_ <> "train" ->
  start_check_point args = PDict d ->
  d !! "state" = Some (PDict inner) -> inner !! "state_dict" = None ->
  (model_type_arg args <> "htdemucs" -> model_type_arg args <> "apollo" ->
     (forall params, load_start_checkpoint args state type_ <> Done params)
     /\ (indexable d state ->
         load_start_checkpoint args state type_ = Raised RuntimeError))
  /\ (model_type_arg args = "htdemucs" \/ model_type_arg args = "apollo" ->
      load_start_checkpoint args state type_
      = then_lora args (load_state_dict_obj true state (PDict inner))).
Proof.
  intros Hty Hck Hd Hinner. rewrite (load_start_checkpoint_inference _ _ _ Hty), Hck.
  split.
  - intros H1 H2.
    destruct (String.eqb_spec (model_type_arg args) "htdemucs") as [|_]; [contradiction|].
    destruct (String.eqb_spec (model_type_arg args) "apollo") as [|_]; [contradiction|].
    cbn [orb mbind outcome_bind].
    destruct (strict_load_rejects_container _ _ state Hd) as [Hnot Hraise]. split.
    + intros params. unfold then_lora.
      destruct (load_state_dict_obj true state (PDict d)) as [st| |] eqn:Hload;
        cbn [mbind outcome_bind]; [|discriminate ..].
      destruct (Hnot st eq_refl).
    + intros Hidx. rewrite (Hraise Hidx). reflexivity.
  - intros Hmt.
    assert (Hsel : String.eqb (model_type_arg args) "htdemucs"
                   || String.eqb (model_type_arg args) "apollo" = true).
    { destruct Hmt as [-> | ->]; reflexivity. }
    rewrite Hsel. unfold unwrap_containers.
    rewrite (unwrap_nested _ _ _ Hd). cbn [mbind outcome_bind].
    rewrite (unwrap_flat _ _ Hinner). reflexivity.
Qed.

Lemma start_checkpoint_unwraps_for_two_types_witness :
  load_start_checkpoint (args_of (PDict {[ "state" := PDict lora_file ]}) "mdx23c")
                        state_w "inference" = Raised RuntimeError.
Proof.
  destruct (start_checkpoint_unwraps_for_two_types
              (args_of (PDict {[ "state" := PDict lora_file ]}) "mdx23c")
              state_w "inference" {[ "state" := PDict lora_file ]} lora_file)
    as [Hraise _]; [discriminate|reflexivity|reflexivity|reflexivity|].
  apply Hraise; [discriminate|discriminate|].
  repeat constructor. intros t Ht. vm_compute in Ht. discriminate Ht.
Defined.

Lemma reconcile_entry_tensors (d : gmap string pyobj) el cur :
  (forall o, d !! el = Some o -> exists t, o = PTensor t) ->
  entry_loaded (PDict d) (el, cur) (el, reconciled (PDict d) (el, cur)).
Proof.
  intros Htensor. unfold entry_loaded, reconciled. cbn [fst snd].
  assert (Hrun : exists t, reconcile_entry (PDict d) el cur = Done t).
  { rewrite reconcile_entry_dict. destruct (d !! el) as [o|] eqn:Hel; [|eauto].
    destruct (Htensor o eq_refl) as [t ->]. eauto. }
  destruct Hrun as [t Ht]. rewrite Ht. repeat split.
  eapply reconcile_entry_shape. exact Ht.
Qed.

(** X14: a parameter the checkpoint does not hold.  Outside training the
    strict load refuses the checkpoint for every model type: the call
    does not return, and what it raises is RuntimeError (unless a 0-D
    parameter is offered an empty 1-D tensor, whose indexing fails
    first); in training mode the same checkpoint is loaded and the
    parameter keeps the value it had. *)
Theorem start_checkpoint_missing_parameter (args : start_args)
    (state : list (string * tensor)) (d : gmap string pyobj) (el : string)
    (cur : tensor) :
  start_check_point args = PDict d ->
  d !! "state" = None -> d !! "state_dict" = None ->
  In (el, cur) state -> d !! el = None ->
  (forall type_, type_ <> "train" ->
     (forall params, load_start_checkpoint args state type_ <> Done params)
     /\ (indexable d state ->
         load_start_checkpoint args state type_ = Raised RuntimeError))
  /\ (List.NoDup (map fst state) -> lora_checkpoint args = None ->
      (forall el' cur' o, In (el', cur') state -> d !! el' = Some o ->
         exists t, o = PTensor t) ->
      exists params,
        load_start_checkpoint args state "train" = Done params
        /\ dict_get el params = Some cur).
Proof.
  intros Hck Hs Hsd Hin Hel. split.
  - intros type_ Hty. rewrite (load_start_checkpoint_inference _ _ _ Hty), Hck.
    assert (Hflat : unwrap_containers (PDict d) = Done (PDict d)).
    { unfold unwrap_containers. rewrite (unwrap_flat _ _ Hs). cbn [mbind outcome_bind].
      apply unwrap_flat. exact Hsd. }
    rewrite Hflat.
    assert (Hsame : (state_dict ←
                       (if String.eqb (model_type_arg args) "htdemucs"
                           || String.eqb (model_type_arg args) "apollo"
                        then Done (PDict d) else Done (PDict d));
                     load_state_dict_obj true state state_dict)
                    = load_state_dict_obj true state (PDict d)).
    { destruct (String.eqb _ _ || String.eqb _ _); reflexivity. }
    rewrite Hsame.
    destruct (load_state_dict_obj_fails true d state) as [Hnot Hraise].
    { left. exists (el, cur). split; [exact Hin|]. intros r.
      apply load_entry_missing. exact Hel. }
    split.
    + intros params. unfold then_lora.
      destruct (load_state_dict_obj true state (PDict d)) as [st| |] eqn:Hload;
        cbn [mbind outcome_bind]; [|discriminate ..].
      destruct (Hnot st eq_refl).
    + intros Hidx. rewrite (Hraise Hidx). reflexivity.
  - intros Hnd Hlora Htensors.
    exists (map (fun kv => (kv.1, reconciled (PDict d) kv)) state). split.
    + rewrite load_start_checkpoint_train, Hck. unfold then_lora.
      rewrite (loader_from_entries state (PDict d) (PDict d)
                 (map (fun kv => (kv.1, reconciled (PDict d) kv)) state)).
      * cbn [mbind outcome_bind]. rewrite Hlora. reflexivity.
      * exact Hnd.
      * unfold unwrap_containers. rewrite (unwrap_flat _ _ Hs). cbn [mbind outcome_bind].
        apply unwrap_flat. exact Hsd.
      * change (map ?f ?l) with (f <$> l).
        apply Forall2_fmap_r, Forall_Forall2_diag, List.Forall_forall.
        intros [el' cur'] Hin'. cbn [compose fst snd].
        apply reconcile_entry_tensors. intros o Ho. eapply Htensors; eassumption.
    + rewrite (dict_get_map_values (reconciled (PDict d)) state el cur Hnd Hin).
      f_equal. unfold reconciled. cbn [fst snd].
      rewrite reconcile_entry_dict, Hel. reflexivity.
Qed.

Lemma start_checkpoint_missing_parameter_witness :
  load_start_checkpoint (args_of (PDict checkpoint_w) "mdx23c") state_wb "inference"
  = Raised RuntimeError
  /\ exists params,
       load_start_checkpoint (args_of (PDict checkpoint_w) "mdx23c") state_wb "train"
       = Done params
       /\ dict_get "b" params
          = Some {| shape := [3]; data := Axis [Scalar 7; Scalar 8; Scalar 9] |}.
Proof.
  destruct (start_checkpoint_missing_parameter
              (args_of (PDict checkpoint_w) "mdx23c") state_wb checkpoint_w "b"
              {| shape := [3]; data := Axis [Scalar 7; Scalar 8; Scalar 9] |})
    as [Hraise Htrain];
    [reflexivity|reflexivity|reflexivity|right; left; reflexivity|reflexivity|].
  split.
  - apply Hraise; [discriminate|].
    repeat constructor; intros t Ht Hs; discriminate Hs.
  - apply Htrain; [|reflexivity|].
    + repeat constructor; cbn; intros Hin; decompose [or] Hin; discriminate || contradiction.
    + intros el' cur' o [[= <- <-]|[[= <- <-]|[]]] Ho; vm_compute in Ho.
      * injection Ho as <-. eauto.
      * discriminate.
Defined.

(** The case the two statements above set apart: a 0-D parameter that
    is offered an empty 1-D tensor stops the strict load with the
    IndexError of [input_param[0]], before missing and unexpected keys
    are reported; so for a checkpoint nested under ['state'], and for a
    flat one that lacks the parameter ["w"]. *)
Lemma strict_load_index_error :
  load_start_checkpoint
    (args_of (PDict {[ "gain" := PTensor {| shape := [0]; data := Axis [] |};
                       "state" := PDict checkpoint_w ]}) "mdx23c")
    state_gain "inference"
  = Raised IndexError
  /\ load_start_checkpoint
       (args_of (PDict {[ "gain" := PTensor {| shape := [0]; data := Axis [] |} ]})
                "mdx23c")
       (state_gain ++ state_w) "inference"
     = Raised IndexError.
Proof. split; vm_compute; reflexivity. Qed.

Lemma loaded_entries strict (d : gmap string pyobj) state loaded :
  Forall2 (fun p r => load_entry strict d p = Done r) state loaded ->
  forallb (fun t : option tensor => match t with Some _ => true | None => false end) loaded
  = true ->
  Forall2 (fun p q => q.1 = p.1 /\ load_entry strict d p = Done (Some q.2)) state
          (zip_with (fun (p : string * tensor) t => (p.1, default p.2 t)) state loaded).
Proof.
  induction 1 as [|p r state loaded Hp _ IH]; cbn [forallb zip_with]; [constructor|].
  destruct r as [t|]; [|discriminate]. cbn [andb]. intros Hall.
  constructor; [|apply IH; exact Hall]. split; [reflexivity|exact Hp].
Qed.

(** X15: [load_lora_weights] is a partial update.  When it returns, the
    model keeps its parameter names; a parameter the file does not hold
    keeps its value; one it holds takes the file's tensor, which has the
    parameter's shape, or, for a 0-D parameter offered a 1-D tensor, that
    tensor's first element; keys of the file that name no parameter play
    no part.  A tensor of another shape under a parameter's name (the 0-D
    case apart) makes the call fail although the load is not strict, with
    RuntimeError unless an index error comes first. *)
Theorem lora_load_is_partial (state : list (string * tensor)) (d : gmap string pyobj) :
  (forall params,
     List.NoDup (map fst state) ->
     load_lora_weights state (PDict d) = Done params ->
     map fst params = map fst state
     /\ forall el cur, In (el, cur) state ->
          match d !! el with
          | None => dict_get el params = Some cur
          | Some (PTensor t) =>
              (shape t = shape cur /\ dict_get el params = Some t)
              \/ (shape cur = [] /\ length (shape t) = 1
                  /\ exists t0, first_element t = Done t0 /\ dict_get el params = Some t0)
          | Some _ => False
          end)
  /\ (forall el cur t,
        In (el, cur) state -> d !! el = Some (PTensor t) ->
        shape t <> shape cur -> ~ (shape cur = [] /\ length (shape t) = 1) ->
        (forall params, load_lora_weights state (PDict d) <> Done params)
        /\ (indexable d state -> load_lora_weights state (PDict d) = Raised RuntimeError)).
Proof.
  split.
  - intros params Hnd. unfold load_lora_weights, load_state_dict_obj.
    destruct (forM _ state) as [loaded| |] eqn:Hrun; cbn [mbind outcome_bind];
      [|discriminate ..].
    destruct (forallb _ loaded) eqn:Hall; cbn [andb negb orb]; [|discriminate].
    intros [= <-]. apply forM_inv in Hrun.
    pose proof (loaded_entries _ _ _ _ Hrun Hall) as Hparams.
    pose proof (keys_Forall2 (fun p q => load_entry false d p = Done (Some q.2)) _ _ Hparams)
      as Hkeys.
    split; [exact Hkeys|]. intros el cur Hin.
    apply In_lookup in Hin as [j Hj].
    destruct (Forall2_lookup_l _ _ _ _ _ Hparams Hj) as ([k v] & Hq & Hname & Hload).
    cbn [fst snd] in Hname, Hload. subst k.
    assert (Hget : dict_get el (zip_with (fun (p : string * tensor) t => (p.1, default p.2 t))
                                         state loaded) = Some v).
    { apply dict_get_NoDup; [rewrite Hkeys; exact Hnd|exact (lookup_In _ _ _ Hq)]. }
    rewrite Hget. revert Hload. unfold load_entry. cbn [fst snd].
    destruct (d !! el) as [[t| |]|]; [|discriminate|discriminate|intros [= <-]; reflexivity].
    destruct (bool_decide (shape cur = []) && (length (shape t) =? 1)) eqn:Hrule.
    + apply andb_prop in Hrule as [H0 H1]. apply bool_decide_eq_true_1 in H0.
      apply Nat.eqb_eq in H1.
      destruct (first_element t) as [t0| |]; cbn [mbind outcome_bind]; [|discriminate ..].
      destruct (bool_decide (shape cur = shape t0)); [|discriminate].
      intros [= <-]. right. eauto.
    + cbn [mbind outcome_bind].
      destruct (bool_decide (shape cur = shape t)) eqn:Hshape; [|discriminate].
      apply bool_decide_eq_true_1 in Hshape. intros [= <-]. left. auto.
  - intros el cur t Hin Hel Hshape Hzero. unfold load_lora_weights.
    apply load_state_dict_obj_fails. left. exists (el, cur). split; [exact Hin|].
    intros r. unfold load_entry. cbn [fst snd]. rewrite Hel.
    assert (Hrule : bool_decide (shape cur = []) && (length (shape t) =? 1) = false).
    { destruct (decide (shape cur = [])) as [H0|H0];
        [|rewrite bool_decide_eq_false_2 by exact H0; reflexivity].
      destruct (Nat.eqb_spec (length (shape t)) 1) as [H1|H1];
        [tauto|apply andb_false_r]. }
    rewrite Hrule. cbn [mbind outcome_bind].
    rewrite bool_decide_eq_false_2 by (intros H; apply Hshape; symmetry; exact H).
    intros [= <-]. reflexivity.
Qed.

Lemma lora_load_is_partial_witness :
  load_lora_weights state_wb (PDict lora_file) = Raised RuntimeError
  /\ exists params,
       load_lora_weights state_gain (PDict gain_file) = Done params
       /\ dict_get "gain" params = Some {| shape := []; data := Scalar 5 |}.
Proof.
  destruct (lora_load_is_partial state_wb lora_file) as [_ Hraise].
  destruct (lora_load_is_partial state_gain gain_file) as [Hdone _].
  split.
  - apply (Hraise "w" {| shape := [4; 3]; data := zeros [4; 3] |} (tensor_2x3 1 2 3 4 5 6));
      [left; reflexivity|reflexivity|discriminate|intros [H _]; discriminate H|].
    repeat constructor; intros t Ht Hs; discriminate Hs.
  - evar (params : list (string * tensor)).
    assert (H : load_lora_weights state_gain (PDict gain_file) = Done params)
      by (subst params; vm_compute; reflexivity).
    exists params. split; [exact H|].
    destruct (Hdone params) as [_ Hget]; [repeat constructor; cbn; tauto|exact H|].
    specialize (Hget "gain" {| shape := []; data := Scalar 1 |} (or_introl eq_refl)).
    change (gain_file !! "gain")
      with (Some (PTensor {| shape := [1]; data := Axis [Scalar 5] |})) in Hget.
    destruct Hget as [[Hs _]|(_ & _ & t0 & Ht0 & Hget)]; [discriminate Hs|].
    injection Ht0 as <-. exact Hget.
Defined.


(** ** Reading and normalising audio *)

Lemma transpose_lookup channels frames c :
  c < channels -> transpose channels frames !! c = Some (map (fun fr => nth c fr 0%Q) frames).
Proof.
  intros Hc. unfold transpose. change (map ?f ?l) with (f <$> l) at 1.
  rewrite list_lookup_fmap, lookup_seq_lt by exact Hc. reflexivity.
Qed.

(** X16: a successful read is returned channels first.  For a file of
    [n] frames with [c] channels the array has [c] rows of [n] samples,
    row [j] holding sample [j] of every frame, and the sample rate is
    passed on; a one-dimensional (mono) read becomes the single row of its
    samples.  The rows have one length, as [demix] expects. *)
Theorem read_audio_channels_first (data : sf_data) (sr : nat) (skip_err : bool) :
  well_formed data ->
  exists mix,
    read_audio_transposed (Some (data, sr)) skip_err = Done (Some (mix, sr))
    /\ length mix = channels_of data
    /\ Forall (fun r => length r = length (frames_of data)) mix
    /\ rectangular mix
    /\ (forall j t, at2 mix j t = at2 (frames_of data) t j)
    /\ (forall samples, data = Mono samples -> mix = [samples]).
Proof.
  intros Hwf.
  assert (Hmix : read_audio_transposed (Some (data, sr)) skip_err
                 = Done (Some (transpose (channels_of data) (frames_of data), sr))).
  { destruct data; reflexivity. }
  exists (transpose (channels_of data) (frames_of data)).
  assert (Hrows : Forall (fun r => length r = length (frames_of data))
                         (transpose (channels_of data) (frames_of data))).
  { unfold transpose. apply List.Forall_map, List.Forall_forall. intros j _.
    apply length_map. }
  split; [exact Hmix|]. split; [|split; [exact Hrows|split; [|split]]].
  - unfold transpose. rewrite length_map, length_seq. reflexivity.
  - unfold rectangular. destruct (transpose _ _) as [|r rows] eqn:Ht; [constructor|].
    cbn [cols]. inversion Hrows as [|? ? Hr _]; subst.
    eapply Forall_impl; [exact Hrows|]. cbn beta. intros r' Hr'. congruence.
  - intros j t. unfold at2.
    destruct (Nat.lt_ge_cases j (channels_of data)) as [Hj|Hj].
    + rewrite (transpose_lookup _ _ _ Hj). cbn [mbind option_bind].
      change (map ?f ?l) with (f <$> l). rewrite list_lookup_fmap.
      destruct (frames_of data !! t) as [fr|] eqn:Hfr;
        cbn [fmap option_fmap option_map mbind option_bind]; [|reflexivity].
      pose proof (proj1 (Forall_lookup _ _) Hwf t fr Hfr) as Hlen. cbn beta in Hlen.
      destruct (lookup_lt_is_Some_2 fr j ltac:(lia)) as [x Hx].
      rewrite Hx. f_equal. apply nth_lookup_Some. exact Hx.
    + rewrite (proj2 (lookup_ge_None _ _)) by
        (unfold transpose; rewrite length_map, length_seq; exact Hj).
      cbn [mbind option_bind].
      destruct (frames_of data !! t) as [fr|] eqn:Hfr; cbn [mbind option_bind];
        [|reflexivity].
      pose proof (proj1 (Forall_lookup _ _) Hwf t fr Hfr) as Hlen. cbn beta in Hlen.
      symmetry. apply lookup_ge_None. lia.
  - intros samples ->. cbn [channels_of frames_of]. unfold transpose. cbn [seq map].
    f_equal. rewrite map_map. cbn [nth]. apply map_id.
Qed.

Lemma read_audio_channels_first_witness :
  exists mix,
    read_audio_transposed (Some (Frames 2 [[1; 2]; [3; 4]; [5; 6]]%Q, 4000)) false
    = Done (Some (mix, 4000))
    /\ at2 mix 1 2 = Some 6%Q.
Proof.
  destruct (read_audio_channels_first (Frames 2 [[1; 2]; [3; 4]; [5; 6]]%Q) 4000 false)
    as (mix & Hmix & _ & _ & _ & Hat & _).
  - repeat constructor.
  - exists mix. split; [exact Hmix|]. rewrite Hat. reflexivity.
Defined.

Section NormalizeFacts.

Variable sqrt : Q -> Q.

Lemma normalize_audio_params audio :
  (normalize_audio sqrt audio).2
  = [("mean", fmean (mean_over_channels audio));
     ("std", fstd sqrt (mean_over_channels audio))].
Proof. reflexivity. Qed.

(** X17: normalising and denormalising.  Applied to what
    [normalize_audio] returns, [denormalize_audio] never raises (both keys
    are there).  On finite audio with a finite mean and a finite non-zero
    standard deviation the pair is a round trip, sample by sample, in
    exact arithmetic; with a zero deviation (constant audio) every sample
    comes back as NaN. *)
Theorem normalize_denormalize (a : array2) (m s : Q) :
  let audio := map (map Finite) a in
  let normed := (normalize_audio sqrt audio).1 in
  let params := (normalize_audio sqrt audio).2 in
  dict_get "mean" params = Some (Finite m) ->
  dict_get "std" params = Some (Finite s) ->
  exists out,
    denormalize_audio normed params = Done out
    /\ (~ (s == 0)%Q -> Forall2 (Forall2 holds) out a)
    /\ ((s == 0)%Q -> out = map (map (fun _ => NaN)) a).
Proof.
  intros audio normed params. subst normed params.
  rewrite normalize_audio_params. unfold normalize_audio. cbn [fst].
  cbn [dict_get String.eqb Ascii.eqb Bool.eqb]. intros [= Hm] [= Hs].
  rewrite Hm, Hs. unfold denormalize_audio.
  cbn [dict_get String.eqb Ascii.eqb Bool.eqb]. eexists. split; [reflexivity|].
  subst audio. rewrite !map_map. split.
  - intros Hne. change (map ?f ?l) with (f <$> l).
    apply Forall2_fmap_l, Forall_Forall2_diag, List.Forall_forall. intros r _.
    cbn [compose]. rewrite !map_map. change (map ?f ?l) with (f <$> l).
    apply Forall2_fmap_l, Forall_Forall2_diag, List.Forall_forall. intros x _.
    cbn [compose fsub fneg fadd fdiv]. unfold true_divide.
    destruct (Qeq_bool s 0) eqn:Hz; [apply Qeq_bool_iff in Hz; contradiction|].
    cbn [fmul fadd holds]. field. exact Hne.
  - intros Hz. apply map_ext. intros r. rewrite !map_map. apply map_ext. intros x.
    cbn [fsub fneg fadd fdiv]. unfold true_divide.
    rewrite (proj2 (Qeq_bool_iff s 0) Hz).
    assert (Hcmp : (s ?= 0)%Q = Eq) by (apply Qeq_alt; exact Hz).
    destruct (Qeq_bool (x + - m) 0); [reflexivity|].
    destruct (Qle_bool 0 (x + - m)); cbn [fmul scale_inf]; unfold scale_inf;
      rewrite Hcmp; reflexivity.
Qed.

End NormalizeFacts.

Lemma normalize_denormalize_witness :
  exists out,
    denormalize_audio (normalize_audio Qsqrt_floor [[Finite 1; Finite 3]]).1
                      (normalize_audio Qsqrt_floor [[Finite 1; Finite 3]]).2 = Done out
    /\ Forall2 (Forall2 holds) out [[1; 3]]%Q.
Proof.
  evar (m : Q). evar (s : Q).
  assert (Hm : dict_get "mean" (normalize_audio Qsqrt_floor [[Finite 1; Finite 3]]).2
               = Some (Finite m)) by (subst m; vm_compute; reflexivity).
  assert (Hs : dict_get "std" (normalize_audio Qsqrt_floor [[Finite 1; Finite 3]]).2
               = Some (Finite s)) by (subst s; vm_compute; reflexivity).
  destruct (normalize_denormalize Qsqrt_floor [[1; 3]]%Q m s Hm Hs)
    as (out & Hout & Hround & _).
  exists out. split; [exact Hout|]. apply Hround.
  subst s. intros H. vm_compute in H. discriminate H.
Defined.


(** ** Round trips of the loaders *)

Lemma has_shape_getitem_region sn : forall mx a,
  Forall2 le sn mx -> has_shape mx a -> has_shape sn (getitem_region sn a).
Proof.
  induction sn as [|b sn IH]; intros mx a Hle Ha.
  - inversion Hle; subst. exact Ha.
  - inversion Hle as [|? n ? mx' Hb Hle']; subst.
    destruct a as [|xs]; [contradiction|]. cbn in Ha |- *. destruct Ha as [Hlen Hxs].
    split; [rewrite length_map, length_take; lia|].
    apply List.Forall_map, Forall_take. eapply Forall_impl; [exact Hxs|].
    intros x Hx. apply (IH mx'); assumption.
Qed.

Lemma has_shape_reconcile new_t old_t :
  length (shape new_t) = length (shape old_t) ->
  has_shape (shape old_t) (data old_t) ->
  has_shape (shape new_t) (data (reconcile new_t old_t)).
Proof.
  intros Hlen Hold. rewrite reconcile_unfold by assumption. cbn [data].
  apply (has_shape_getitem_region _ (zip_with Nat.max (shape new_t) (shape old_t)));
    [apply le_zip_max_l; exact Hlen|].
  generalize (length (shape new_t)). intros m.
  induction m as [|m IHm]; cbn [Nat.iter nat_rect]; [apply has_shape_zeros|].
  apply has_shape_setitem_region; [apply le_zip_max_r; exact Hlen|exact IHm|exact Hold].
Qed.

Lemma in_bounds_le idx s s' : in_bounds idx s -> Forall2 le s s' -> in_bounds idx s'.
Proof.
  unfold in_bounds. intros Hidx. revert s'.
  induction Hidx; intros s' Hle; inversion Hle; subst; constructor; [lia|auto].
Qed.

(** X18: growing a layer and shrinking it back loses nothing.  A tensor
    reconciled into a shape that is at least as large in every dimension,
    and the result reconciled back into the original shape, has the
    original shape and the original value at every index. *)
Theorem reconcile_grow_then_shrink (small big : tensor) (idx : list nat) :
  length (shape small) = length (shape big) -> shape small <> shape big ->
  Forall2 le (shape small) (shape big) ->
  has_shape (shape small) (data small) -> in_bounds idx (shape small) ->
  shape (reconcile small (reconcile big small)) = shape small
  /\ item idx (data (reconcile small (reconcile big small))) = item idx (data small).
Proof.
  intros Hlen Hne Hle Hsmall Hidx.
  pose proof (shape_reconcile big small (eq_sym Hlen)) as Hgrown.
  split; [apply shape_reconcile; rewrite Hgrown; exact Hlen|].
  rewrite item_reconcile; rewrite ?Hgrown; try assumption.
  - rewrite bool_decide_eq_true_2 by (eapply in_bounds_le; eassumption).
    rewrite item_reconcile;
      [|symmetry; exact Hlen|intros H; apply Hne; symmetry; exact H|exact Hsmall
       |eapply in_bounds_le; eassumption].
    rewrite bool_decide_eq_true_2 by exact Hidx. reflexivity.
  - apply has_shape_reconcile; [symmetry; exact Hlen|exact Hsmall].
Qed.

Lemma reconcile_grow_then_shrink_witness :
  item [1; 2] (data (reconcile (tensor_2x3 1 2 3 4 5 6)
                       (reconcile {| shape := [4; 3]; data := zeros [4; 3] |}
                                  (tensor_2x3 1 2 3 4 5 6))))
  = Some 6%Q.
Proof.
  destruct (reconcile_grow_then_shrink (tensor_2x3 1 2 3 4 5 6)
              {| shape := [4; 3]; data := zeros [4; 3] |} [1; 2]) as [_ Hitem].
  - reflexivity.
  - discriminate.
  - repeat constructor.
  - cbn. repeat constructor.
  - repeat constructor.
  - rewrite Hitem. reflexivity.
Defined.

Lemma keys_state_dict (state : list (string * tensor)) :
  (map (fun p => (p.1, PTensor p.2)) state).*1 = map fst state.
Proof. induction state as [|p state IH]; [reflexivity|]. cbn. f_equal. exact IH. Qed.

Lemma state_dict_of_lookup state el cur :
  List.NoDup (map fst state) -> In (el, cur) state ->
  state_dict_of state !! el = Some (PTensor cur).
Proof.
  intros Hnd Hin. unfold state_dict_of. apply elem_of_list_to_map_1.
  - rewrite keys_state_dict. apply NoDup_ListNoDup. exact Hnd.
  - apply list_elem_of_In, in_map_iff. exists (el, cur). auto.
Qed.

Lemma state_dict_of_keys state k :
  is_Some (state_dict_of state !! k) -> In k (map fst state).
Proof.
  intros [o Ho]. destruct (in_dec String.string_dec k (map fst state)) as [Hin|Hout];
    [exact Hin|].
  unfold state_dict_of in Ho. rewrite not_elem_of_list_to_map_1 in Ho; [discriminate|].
  rewrite keys_state_dict.
  intros Hk. apply Hout, list_elem_of_In. exact Hk.
Qed.

Lemma state_dict_of_absent state k :
  ~ In k (map fst state) -> state_dict_of state !! k = None.
Proof.
  intros Hout. destruct (state_dict_of state !! k) as [o|] eqn:Ho; [|reflexivity].
  exfalso. apply Hout, state_dict_of_keys. rewrite Ho. eauto.
Qed.

(** X19: saving and loading.  Started from the model's own state dict
    (no parameter being called [state] or [state_dict], no LoRA file),
    [load_start_checkpoint] returns and leaves every parameter as it was,
    in training mode and outside it, for every model type. *)
Theorem start_checkpoint_own_state (args : start_args) (state : list (string * tensor))
    (type_ : string) :
  List.NoDup (map fst state) ->
  start_check_point args = PDict (state_dict_of state) ->
  lora_checkpoint args = None ->
  ~ In "state" (map fst state) -> ~ In "state_dict" (map fst state) ->
  load_start_checkpoint args state type_ = Done state.
Proof.
  intros Hnd Hck Hlora Hs Hsd.
  set (d := state_dict_of state).
  assert (Hcompat : forall el cur, In (el, cur) state ->
             exists t, d !! el = Some (PTensor t) /\ shape t = shape cur).
  { intros el cur Hin. exists cur. split; [|reflexivity].
    apply state_dict_of_lookup; assumption. }
  assert (Hvalues : checkpoint_values d state = state).
  { unfold checkpoint_values. rewrite <- (map_id state) at 2.
    apply map_ext_in. intros [el cur] Hin. cbn [fst snd].
    subst d. rewrite (state_dict_of_lookup _ _ _ Hnd Hin). reflexivity. }
  assert (Hflat : unwrap_containers (PDict d) = Done (PDict d)).
  { subst d. unfold unwrap_containers.
    rewrite (unwrap_flat _ _ (state_dict_of_absent _ _ Hs)). cbn [mbind outcome_bind].
    apply unwrap_flat, state_dict_of_absent. exact Hsd. }
  destruct (String.eqb_spec type_ "train") as [->|Hty].
  - rewrite load_start_checkpoint_train, Hck. unfold then_lora. fold d.
    rewrite (loader_from_entries state (PDict d) (PDict d) (checkpoint_values d state)
               Hnd Hflat (checkpoint_values_entries d state Hcompat)).
    cbn [mbind outcome_bind]. rewrite Hlora, Hvalues. reflexivity.
  - rewrite (load_start_checkpoint_inference _ _ _ Hty), Hck. unfold then_lora. fold d.
    rewrite Hflat.
    assert (Hload : load_state_dict_obj true state (PDict d) = Done state).
    { rewrite <- Hvalues at 2. apply load_state_dict_obj_compatible; [exact Hcompat|].
      intros _ k Hk. apply state_dict_of_keys. exact Hk. }
    destruct (String.eqb _ _ || String.eqb _ _); cbn [mbind outcome_bind];
      rewrite Hload; cbn [mbind outcome_bind]; rewrite Hlora; reflexivity.
Qed.

Lemma start_checkpoint_own_state_witness :
  load_start_checkpoint (args_of (PDict (state_dict_of state_wb)) "htdemucs") state_wb
                        "inference" = Done state_wb.
Proof.
  apply (start_checkpoint_own_state (args_of (PDict (state_dict_of state_wb)) "htdemucs")
           state_wb "inference").
  - repeat constructor; cbn; intros Hin; decompose [or] Hin; discriminate || contradiction.
  - reflexivity.
  - reflexivity.
  - cbn. intros Hin. decompose [or] Hin; discriminate || contradiction.
  - cbn. intros Hin. decompose [or] Hin; discriminate || contradiction.
Defined.
